(** * hextract: the hex/RGB codec, the average-colour extractor and the
      WCAG contrast calculator of [src/index.ts], embedded in Rocq.

    The development follows the source file function by function.

    - JavaScript strings are sequences of code units; the codec only ever
      distinguishes code units below 128, so a string is a [string] whose
      [ascii] elements stand for the code units 0..255.
    - The numbers that flow through the codec and the extractor are integers
      far below 2^53 (channel samples, their sums, pixel counts) or one of the
      non-finite values produced by [0 / 0] and [parseInt]; they are the type
      [number] below.  Signed zeros are not distinguished.
    - The numbers of the contrast calculator are binary64 floats ([float],
      the kernel's primitive floats), with [Math.pow], which ECMAScript
      leaves implementation-approximated, as a parameter. *)

From Stdlib Require Import Floats.
From Stdlib Require Import ZArith List Ascii String Bool Lia.
From Stdlib.Strings Require Import Byte.
From Stdlib Require Import Permutation.
From stdpp Require Import base option gmap.

Import ListNotations.
Local Open Scope string_scope.
Local Open Scope Z_scope.

(* ===================================================================== *)
(** ** JavaScript numbers and strings *)
(* ===================================================================== *)

(** The values of type [number] that occur in the codec and the extractor. *)
Inductive number : Type :=
| Int (z : Z)
| NaN
| PosInfinity
| NegInfinity.

(** What reading an array yields: an element, or [undefined] out of range. *)
Inductive jsval : Type :=
| Undefined
| Num (n : number).

(** [ToNumber]: [undefined] converts to [NaN]. *)
Definition ToNumber (v : jsval) : number :=
  match v with
  | Undefined => NaN
  | Num n => n
  end.

(** [x + y] on numbers. *)
Definition js_add (x y : number) : number :=
  match x, y with
  | NaN, _ | _, NaN => NaN
  | PosInfinity, NegInfinity | NegInfinity, PosInfinity => NaN
  | PosInfinity, _ | _, PosInfinity => PosInfinity
  | NegInfinity, _ | _, NegInfinity => NegInfinity
  | Int a, Int b => Int (a + b)
  end.

(** [Math.floor(x / y)].  For integers [a], [b] below 2^53 the binary64
    quotient rounds to a value with the same floor as the exact quotient, so
    the composite is integer floor division; a zero divisor gives [NaN] or an
    infinity, which [Math.floor] returns unchanged. *)
Definition Math_floor_div (x y : number) : number :=
  match x, y with
  | NaN, _ | _, NaN => NaN
  | Int a, Int b =>
      if b =? 0 then
        (if a =? 0 then NaN else if 0 <? a then PosInfinity else NegInfinity)
      else Int (a / b)
  | Int _, (PosInfinity | NegInfinity) => Int 0
  | PosInfinity, Int b => if 0 <=? b then PosInfinity else NegInfinity
  | NegInfinity, Int b => if 0 <=? b then NegInfinity else PosInfinity
  | (PosInfinity | NegInfinity), (PosInfinity | NegInfinity) => NaN
  end.

(** The code unit of a character. *)
Definition code (c : ascii) : Z := Z.of_N (N_of_ascii c).

Definition char_of (z : Z) : ascii := ascii_of_N (Z.to_N z).

Definition in_range (lo hi c : ascii) : bool :=
  (code lo <=? code c) && (code c <=? code hi).

(** The digit of value [d] (0..15) in [Number.prototype.toString(16)]:
    lowercase letters for 10..15. *)
Definition digit_char (d : Z) : ascii :=
  if d <? 10 then char_of (48 + d) else char_of (87 + d).

(** The hexadecimal digits of a positive integer, most significant first,
    prepended to [acc].  [fuel] bounds the number of digits. *)
Fixpoint digits16 (fuel : nat) (n : Z) (acc : string) : string :=
  match fuel with
  | O => acc
  | S fuel' =>
      let acc' := String (digit_char (n mod 16)) acc in
      if n <? 16 then acc' else digits16 fuel' (n / 16) acc'
  end.

(** One more than the number of bits of [n]: never fewer than its number of
    hexadecimal digits. *)
Definition digits16_fuel (n : Z) : nat := S (Z.to_nat (Z.log2 n)).

(** [c.toString(16)]. *)
Definition Number_toString16 (c : number) : string :=
  match c with
  | NaN => "NaN"
  | PosInfinity => "Infinity"
  | NegInfinity => "-Infinity"
  | Int z =>
      if z <? 0 then String "-" (digits16 (digits16_fuel (- z)) (- z) "")
      else digits16 (digits16_fuel z) z ""
  end.

(* ===================================================================== *)
(** ** The hex/RGB codec *)
(* ===================================================================== *)

(** [componentToHex] (index.ts, lines 43-46). *)
Definition componentToHex (c : number) : string :=
  let hex := Number_toString16 c in
  if (String.length hex =? 1)%nat then "0" ++ hex else hex.

(** [rgbToHex] (lines 48-50). *)
Definition rgbToHex (r g b : number) : string :=
  "#" ++ componentToHex r ++ componentToHex g ++ componentToHex b.

(** [rgbToHexString] (lines 171-173). *)
Definition rgbToHexString (r g b : number) : string := rgbToHex r g b.

(** *** The regular expression of [hexToRgb]

    [/^#?([a-f\d]{2})([a-f\d]{2})([a-f\d]{2})$/i] is a sequence of an
    optional literal and three capturing groups, each a character class
    repeated a fixed number of times, anchored at both ends (no [m] flag).
    The matcher below is the backtracking matcher of ECMAScript restricted
    to these node kinds. *)

Inductive node : Type :=
| Optional (c : ascii)                     (* c?  (greedy) *)
| Capture (cls : list ascii) (n : nat).    (* (cls{n}) *)

(** [Canonicalize] under the [i] flag without [u]: the upper-case mapping,
    which never maps a code unit of 128 or more to one below 128. *)
Definition Canonicalize (c : ascii) : ascii :=
  if in_range "a" "z" c then char_of (code c - 32) else c.

(** Case-insensitive membership of [ch] in a class given by its members. *)
Definition class_matches (cls : list ascii) (ch : ascii) : bool :=
  existsb (fun a => Ascii.eqb (Canonicalize a) (Canonicalize ch)) cls.

(** Consume exactly [n] characters of the class; the consumed text and the
    rest of the input. *)
Fixpoint take_class (cls : list ascii) (n : nat) (s : string)
  : option (string * string) :=
  match n with
  | O => Some ("", s)
  | S n' =>
      match s with
      | EmptyString => None
      | String ch rest =>
          if class_matches cls ch then
            match take_class cls n' rest with
            | Some (m, rest') => Some (String ch m, rest')
            | None => None
            end
          else None
      end
  end.

(** Match the nodes against the whole of [s] (the pattern ends in [$]);
    the captures in order. *)
Fixpoint match_nodes (p : list node) (s : string) : option (list string) :=
  match p with
  | [] => match s with EmptyString => Some [] | _ => None end
  | Optional c :: p' =>
      let skip := match_nodes p' s in
      match s with
      | String ch rest =>
          if Ascii.eqb (Canonicalize c) (Canonicalize ch) then
            match match_nodes p' rest with
            | Some caps => Some caps
            | None => skip
            end
          else skip
      | EmptyString => skip
      end
  | Capture cls n :: p' =>
      match take_class cls n s with
      | Some (m, rest) =>
          match match_nodes p' rest with
          | Some caps => Some (m :: caps)
          | None => None
          end
      | None => None
      end
  end.

(** The members of [[a-f\d]]. *)
Definition class_a_f_d : list ascii :=
  ["a"; "b"; "c"; "d"; "e"; "f";
   "0"; "1"; "2"; "3"; "4"; "5"; "6"; "7"; "8"; "9"]%char.

Definition hex_color_regex : list node :=
  [Optional "#"; Capture class_a_f_d 2; Capture class_a_f_d 2;
   Capture class_a_f_d 2].

(** [regex.exec(hex)]: [null] or the three captures [result[1..3]]. *)
Definition regex_exec (hex : string) : option (list string) :=
  match_nodes hex_color_regex hex.

(** *** [parseInt(s, 16)] *)

(** [StrWhiteSpaceChar] among the code units below 256. *)
Definition is_whitespace (c : ascii) : bool :=
  in_range "009" "013" c || Ascii.eqb c " " || Ascii.eqb c "160".

Fixpoint trim_start (s : string) : string :=
  match s with
  | String c rest => if is_whitespace c then trim_start rest else s
  | EmptyString => s
  end.

(** The value of a radix-16 digit. *)
Definition digit_value (c : ascii) : option Z :=
  if in_range "0" "9" c then Some (code c - 48)
  else if in_range "a" "f" c then Some (code c - 87)
  else if in_range "A" "F" c then Some (code c - 55)
  else None.

(** The longest prefix of radix-16 digits, as a number: [acc] is the value
    of the digits read so far, [seen] whether there was any. *)
Fixpoint parse_digits (s : string) (acc : Z) (seen : bool) : option Z :=
  match s with
  | String c rest =>
      match digit_value c with
      | Some d => parse_digits rest (16 * acc + d) true
      | None => if seen then Some acc else None
      end
  | EmptyString => if seen then Some acc else None
  end.

Definition strip_0x (s : string) : string :=
  match s with
  | String c0 (String c1 rest) =>
      if Ascii.eqb c0 "0" && (Ascii.eqb c1 "x" || Ascii.eqb c1 "X")
      then rest else s
  | _ => s
  end.

(** [parseInt(s, 16)]: leading white space, a sign, an optional [0x]
    prefix, then the longest digit prefix; [NaN] when that is empty. *)
Definition parseInt16 (s : string) : number :=
  let inputString := trim_start s in
  let '(sign, body) :=
    match inputString with
    | String c rest =>
        if Ascii.eqb c "-" then (-1, rest)
        else if Ascii.eqb c "+" then (1, rest)
        else (1, inputString)
    | EmptyString => (1, inputString)
    end in
  match parse_digits (strip_0x body) 0 false with
  | Some mathInt => Int (sign * mathInt)
  | None => NaN
  end.

(** The errors the library throws, named as in the specification; [message]
    gives the text the source puts in the [Error]. *)
Inductive error : Type :=
| InvalidFormat (hex : string)
| EnvironmentError
| ContextError
| InvalidInputError
| ImageLoadError
| PixelAccessError (msg : string).

Definition message (e : error) : string :=
  match e with
  | InvalidFormat hex => "[hextract] Invalid hex color: " ++ hex
  | EnvironmentError =>
      "[hextract] computeAverageColor requires a browser environment with DOM access"
  | ContextError => "[hextract] Could not get 2d context"
  | InvalidInputError => "[hextract] Invalid image source type"
  | ImageLoadError => "[hextract] Failed to load image"
  | PixelAccessError msg => "[hextract] Failed to process image: " ++ msg
  end.

(** The exceptions of the platform, with their message. *)
Inductive DOMException : Type :=
| DOMError (name msg : string).

Definition dom_message (e : DOMException) : string :=
  match e with DOMError _ msg => msg end.

(** A computation returns or throws. *)
Inductive result (E A : Type) : Type :=
| Return (a : A)
| Throw (e : E).
Arguments Return {E A} a.
Arguments Throw {E A} e.

(** [hexToRgb] (lines 180-190). *)
Definition hexToRgb (hex : string) : result error (list number) :=
  match regex_exec hex with
  | Some [g1; g2; g3] =>
      Return [parseInt16 g1; parseInt16 g2; parseInt16 g3]
  | _ => Throw (InvalidFormat hex)
  end.

(** *** The pattern as the specification words it *)

(** [[0-9a-fA-F]]. *)
Definition spec_hex_digit (c : ascii) : bool :=
  in_range "0" "9" c || in_range "a" "f" c || in_range "A" "F" c.

(** The six characters after the optional leading [#]. *)
Definition strip_hash (s : string) : string :=
  match s with
  | String c rest => if Ascii.eqb c "#" then rest else s
  | EmptyString => s
  end.

(** The value of a string of hexadecimal digits read in base 16. *)
Definition spec_digit_value (c : ascii) : Z :=
  if in_range "0" "9" c then code c - code "0"
  else if in_range "a" "f" c then 10 + (code c - code "a")
  else 10 + (code c - code "A").

Fixpoint base16_from (acc : Z) (s : string) : Z :=
  match s with
  | EmptyString => acc
  | String c rest => base16_from (16 * acc + spec_digit_value c) rest
  end.

Definition base16 (s : string) : Z := base16_from 0 s.

Fixpoint string_forallb (f : ascii -> bool) (s : string) : bool :=
  match s with
  | EmptyString => true
  | String c rest => f c && string_forallb f rest
  end.

(** [s] matches exactly [[#]?[0-9a-fA-F]{6}]. *)
Definition matches_spec_pattern (s : string) : bool :=
  let body := strip_hash s in
  (String.length body =? 6)%nat && string_forallb spec_hex_digit body.

(** The three groups of a six-character body. *)
Definition groups_of (body : string) : list string :=
  [substring 0 2 body; substring 2 2 body; substring 4 2 body].

(** ASCII lower-casing of a string. *)
Definition to_lower (c : ascii) : ascii :=
  if in_range "A" "Z" c then char_of (code c + 32) else c.

Fixpoint lowercase (s : string) : string :=
  match s with
  | EmptyString => EmptyString
  | String c rest => String (to_lower c) (lowercase rest)
  end.

Example rgbToHexString_black : rgbToHexString (Int 0) (Int 0) (Int 0) = "#000000".
Proof. reflexivity. Qed.

Example rgbToHexString_white :
  rgbToHexString (Int 255) (Int 255) (Int 255) = "#ffffff".
Proof. reflexivity. Qed.

Example rgbToHexString_sample :
  rgbToHexString (Int 255) (Int 87) (Int 51) = "#ff5733".
Proof. reflexivity. Qed.

Example hexToRgb_sample :
  hexToRgb "#FF5733" = Return [Int 255; Int 87; Int 51].
Proof. reflexivity. Qed.

(** *** Channels *)

(** A channel as the documentation of [rgbToHexString] has it: an integer
    from 0 to 255. *)
Definition is_channel (c : number) : bool :=
  match c with
  | Int z => (0 <=? z) && (z <=? 255)
  | _ => false
  end.

(* ===================================================================== *)
(** ** The average-colour extractor *)
(* ===================================================================== *)

(** *** The objects of the platform *)

(** A [File]: a name and its bytes. *)
Record File : Type := { file_name : string; file_bytes : list byte }.

(** The fields of an [HTMLImageElement] that the operation touches. *)
Record HTMLImageElement : Type := {
  src : string;
  crossOrigin : option string;      (* [None] is [null] *)
  width : Z;
  height : Z }.

(** What [new Image()] creates. *)
Definition new_Image : HTMLImageElement :=
  {| src := ""; crossOrigin := None; width := 0; height := 0 |}.

(** Image elements are objects: they live in a store and are passed by
    reference. *)
Abbreviation loc := positive.
Abbreviation store := (gmap loc HTMLImageElement).

(** The argument of [computeAverageColor], by the run-time tests the source
    makes on it. *)
Inductive ImageSource : Type :=
| OfElement (l : loc)        (* imageSource instanceof HTMLImageElement *)
| OfString (url : string)    (* typeof imageSource === "string" *)
| OfFile (f : File)          (* imageSource instanceof File *)
| OfOther.                   (* anything else *)

(** One RGBA sample of a [Uint8ClampedArray]. *)
Record pixel : Type := { px_r : byte; px_g : byte; px_b : byte; px_a : byte }.

Definition u8 (b : byte) : Z := Z.of_N (Byte.to_N b).

(** An [ImageData]: its pixels in row-major order.  [data] is the flat
    [imageData.data], four entries per pixel, so that
    [data.length = 4 * width * height] as the platform guarantees. *)
Record ImageData : Type := { pixels : list pixel }.

Definition data (d : ImageData) : list Z :=
  flat_map (fun p => [u8 (px_r p); u8 (px_g p); u8 (px_b p); u8 (px_a p)])
           (pixels d).

(** [imageData.data[i]]. *)
Definition data_at (d : ImageData) (i : nat) : jsval :=
  match nth_error (data d) i with
  | Some v => Num (Int v)
  | None => Undefined
  end.

(** The calls the operation makes on the host, in order. *)
Inductive host_call : Type :=
| CreateCanvas                                  (* document.createElement("canvas") *)
| GetContext                                    (* canvas.getContext("2d") *)
| NewImage (l : loc)                            (* new Image() *)
| CreateObjectURL (f : File) (url : string)     (* URL.createObjectURL(f) *)
| DrawImage (img : loc)                         (* ctx.drawImage(img, 0, 0) *)
| GetImageData (w h : Z)                        (* ctx.getImageData(0, 0, w, h) *)
| RevokeObjectURL (url : string).               (* URL.revokeObjectURL(url) *)

(** The host: whether [window] and [document] exist, and how its primitives
    answer. *)
Record Host : Type := {
  has_window : bool;
  has_document : bool;
  context2d : bool;                    (* getContext("2d") is not null *)
  object_url : File -> string;         (* the URL createObjectURL mints *)
  draw_throws : option DOMException;   (* drawImage throws this *)
  image_data : Z -> Z -> result DOMException ImageData }.
                                       (* what getImageData(0,0,w,h) gives *)

(** How the decode of [img] ends: the [load] event, with the dimensions of
    the decoded image, or the [error] event. *)
Inductive signal : Type :=
| Load (w h : Z)
| Error.

(** What can be thrown. *)
Inductive exn : Type :=
| Err (e : error)            (* an [Error] the library throws *)
| Dom (e : DOMException).    (* an exception of the platform *)

(** The state of the returned promise. *)
Inductive settlement : Type :=
| Pending
| Resolved (value : string)
| Rejected (reason : exn).

(** The state an invocation works on: the image elements, the size of its
    canvas once created, its promise and the host calls made so far. *)
Record world : Type := {
  elements : store;
  canvas : option (Z * Z);
  promise : settlement;
  calls : list host_call }.

Definition initial (sigma : store) : world :=
  {| elements := sigma; canvas := None; promise := Pending; calls := [] |}.

(** *** Stateful computations that may throw *)

Definition M (A : Type) : Type := world -> result exn A * world.

Definition ret {A} (a : A) : M A := fun w => (Return a, w).

Definition bind {A B} (m : M A) (k : A -> M B) : M B :=
  fun w =>
    match m w with
    | (Return a, w') => k a w'
    | (Throw e, w') => (Throw e, w')
    end.

Definition throw {A} (e : exn) : M A := fun w => (Throw e, w).

(** [try { m } catch (error) { handler error }]. *)
Definition try_catch {A} (m : M A) (handler : exn -> M A) : M A :=
  fun w =>
    match m w with
    | (Return a, w') => (Return a, w')
    | (Throw e, w') => handler e w'
    end.

Declare Scope js_scope.
Delimit Scope js_scope with js.
Notation "x <- m ;; k" := (bind m (fun x => k))
  (at level 100, m at next level, right associativity) : js_scope.
Notation "m ;; k" := (bind m (fun _ => k))
  (at level 100, right associativity) : js_scope.

Definition call (c : host_call) : M unit :=
  fun w => (Return tt,
            {| elements := elements w; canvas := canvas w;
               promise := promise w; calls := calls w ++ [c] |}).

(** The element a reference denotes (a blank one for a dangling
    reference, which JavaScript does not have). *)
Definition deref (l : loc) : M HTMLImageElement :=
  fun w => (Return (default new_Image (elements w !! l)), w).

Definition update (l : loc) (f : HTMLImageElement -> HTMLImageElement) : M unit :=
  fun w => (Return tt,
            {| elements := <[l := f (default new_Image (elements w !! l))]> (elements w);
               canvas := canvas w; promise := promise w; calls := calls w |}).

Definition set_src (s : string) (e : HTMLImageElement) : HTMLImageElement :=
  {| src := s; crossOrigin := crossOrigin e; width := width e; height := height e |}.

Definition set_crossOrigin (c : option string) (e : HTMLImageElement)
  : HTMLImageElement :=
  {| src := src e; crossOrigin := c; width := width e; height := height e |}.

Definition set_size (w h : Z) (e : HTMLImageElement) : HTMLImageElement :=
  {| src := src e; crossOrigin := crossOrigin e; width := w; height := h |}.

(** [new Image()]: a fresh object. *)
Definition alloc_Image : M loc :=
  fun w =>
    let l := fresh (dom (elements w)) in
    (Return l,
     {| elements := <[l := new_Image]> (elements w); canvas := canvas w;
        promise := promise w; calls := calls w ++ [NewImage l] |}).

(** [document.createElement("canvas")]: 300 by 150 until resized. *)
Definition create_canvas : M unit :=
  fun w => (Return tt,
            {| elements := elements w; canvas := Some (300, 150);
               promise := promise w; calls := calls w ++ [CreateCanvas] |}).

Definition set_canvas_size (cw ch : Z) : M unit :=
  fun w => (Return tt,
            {| elements := elements w; canvas := Some (cw, ch);
               promise := promise w; calls := calls w |}).

Definition canvas_size : M (Z * Z) :=
  fun w => (Return (default (0, 0) (canvas w)), w).

(** [resolve] and [reject] settle a pending promise and do nothing to a
    settled one. *)
Definition settle (s : settlement) : M unit :=
  fun w => (Return tt,
            {| elements := elements w; canvas := canvas w;
               promise := match promise w with Pending => s | p => p end;
               calls := calls w |}).

Definition resolve (value : string) : M unit := settle (Resolved value).
Definition reject (reason : exn) : M unit := settle (Rejected reason).

(** Lift an answer of the host into the computation. *)
Definition host_result {A} (r : result DOMException A) : M A :=
  match r with
  | Return a => ret a
  | Throw e => throw (Dom e)
  end.

(** *** [computeAverageColor] (index.ts, lines 76-162) *)

Local Open Scope js_scope.

(** The loop of lines 129-133, from index [i] with the sums so far.  Each
    iteration advances [i] by four, so [fuel] iterations suffice when
    [fuel] is the length of the buffer. *)
Fixpoint sum_loop (fuel : nat) (d : ImageData) (i : nat) (r g b : number)
  : number * number * number :=
  match fuel with
  | O => (r, g, b)
  | S fuel' =>
      if (i <? List.length (data d))%nat then
        sum_loop fuel' d (i + 4)
          (js_add r (ToNumber (data_at d i)))
          (js_add g (ToNumber (data_at d (i + 1))))
          (js_add b (ToNumber (data_at d (i + 2))))
      else (r, g, b)
  end.

(** Lines 123-140: from the pixel buffer to the hex colour. *)
Definition average_hex (imageData : ImageData) : string :=
  let count := Int (Z.of_nat (List.length (data imageData)) / 4) in
  let '(r, g, b) :=
    sum_loop (List.length (data imageData)) imageData 0 (Int 0) (Int 0) (Int 0) in
  let r := Math_floor_div r count in
  let g := Math_floor_div g count in
  let b := Math_floor_div b count in
  rgbToHex r g b.

(** Lines 79-106: up to the creation of the promise.  Returns the fresh
    image whose handlers the promise installs. *)
Definition setup (host : Host) (imageSource : ImageSource) : M loc :=
  if negb (has_window host) || negb (has_document host) then
    throw (Err EnvironmentError)
  else
    create_canvas ;;
    call GetContext ;;
    if negb (context2d host) then throw (Err ContextError)
    else
      img <- alloc_Image ;;
      match imageSource with
      | OfElement l =>
          e <- deref l ;;
          update img (set_src (src e)) ;;
          e <- deref l ;;
          update img (set_crossOrigin (crossOrigin e))
      | OfString url =>
          update img (set_src url) ;;
          update img (set_crossOrigin (Some "anonymous"))
      | OfFile f =>
          call (CreateObjectURL f (object_url host f)) ;;
          update img (set_src (object_url host f))
      | OfOther => throw (Err InvalidInputError)
      end ;;
      ret img.

(** Lines 110-146: the body of the [try] block of [img.onload]. *)
Definition onload_body (host : Host) (imageSource : ImageSource) (img : loc)
  : M unit :=
  e <- deref img ;;
  set_canvas_size (width e) (height e) ;;
  call (DrawImage img) ;;
  match draw_throws host with
  | Some ex => throw (Dom ex)
  | None => ret tt
  end ;;
  size <- canvas_size ;;
  call (GetImageData (fst size) (snd size)) ;;
  imageData <- host_result (image_data host (fst size) (snd size)) ;;
  resolve (average_hex imageData) ;;
  match imageSource with
  | OfFile _ =>
      e <- deref img ;;
      call (RevokeObjectURL (src e))
  | _ => ret tt
  end.

(** The message of whatever was caught. *)
Definition exn_message (e : exn) : string :=
  match e with
  | Err e => message e
  | Dom e => dom_message e
  end.

(** [img.onload] (lines 109-156). *)
Definition onload (host : Host) (imageSource : ImageSource) (img : loc) : M unit :=
  try_catch (onload_body host imageSource img)
            (fun ex => reject (Err (PixelAccessError (exn_message ex)))).

(** [img.onerror] (lines 158-160). *)
Definition onerror : M unit := reject (Err ImageLoadError).

(** The whole operation: the synchronous part, then the handler of the
    event with which the host ends the decode, if it ever does.  A throw in
    the synchronous part of an [async] function rejects its promise.  On
    [load] the host has filled in the dimensions of the image. *)
Definition computeAverageColor (host : Host) (imageSource : ImageSource)
    (sig : option signal) (sigma : store) : world :=
  match setup host imageSource (initial sigma) with
  | (Throw ex, w) => snd (reject ex w)
  | (Return img, w) =>
      match sig with
      | None => w
      | Some (Load iw ih) =>
          snd ((update img (set_size iw ih) ;; onload host imageSource img) w)
      | Some Error => snd (onerror w)
      end
  end.

Local Close Scope js_scope.

(** A host with [window], [document] and a 2d context, whose [drawImage]
    does not throw. *)
Definition browser (host : Host) : Prop :=
  has_window host = true /\ has_document host = true /\
  context2d host = true /\ draw_throws host = None.

(** The sum of a channel over the pixels. *)
Definition channel_sum (f : pixel -> byte) (ps : list pixel) : Z :=
  fold_right (fun p acc => u8 (f p) + acc) 0 ps.

(** How often an object URL is revoked in a sequence of calls. *)
Definition revocations (url : string) (cs : list host_call) : nat :=
  List.length (List.filter (fun c => match c with
                                | RevokeObjectURL u => String.eqb u url
                                | _ => false
                                end) cs).

(** The element the fresh image is once the source is resolved: the
    locator and the cross-origin policy it is given. *)
Definition decode_source (host : Host) (sigma : store) (imageSource : ImageSource)
  : HTMLImageElement :=
  match imageSource with
  | OfElement l =>
      let e := default new_Image (sigma !! l) in
      {| src := src e; crossOrigin := crossOrigin e; width := 0; height := 0 |}
  | OfString url =>
      {| src := url; crossOrigin := Some "anonymous"; width := 0; height := 0 |}
  | OfFile f =>
      {| src := object_url host f; crossOrigin := None; width := 0; height := 0 |}
  | OfOther => new_Image
  end.

(** The host calls of the synchronous part. *)
Definition setup_calls (host : Host) (img : loc) (imageSource : ImageSource)
  : list host_call :=
  ([CreateCanvas; GetContext; NewImage img] ++
   match imageSource with
   | OfFile f => [CreateObjectURL f (object_url host f)]
   | _ => []
   end)%list.

(** Pure black and pure white pixels, whatever their alpha. *)
Definition is_black (p : pixel) : bool :=
  (u8 (px_r p) =? 0) && (u8 (px_g p) =? 0) && (u8 (px_b p) =? 0).

Definition is_white (p : pixel) : bool :=
  (u8 (px_r p) =? 255) && (u8 (px_g p) =? 255) && (u8 (px_b p) =? 255).

Definition count_pixels (f : pixel -> bool) (ps : list pixel) : nat :=
  List.length (List.filter f ps).

(** A pixel of a solid colour [(r, g, b)]. *)
Definition has_colour (r g b : byte) (p : pixel) : Prop :=
  px_r p = r /\ px_g p = g /\ px_b p = b.

(** A host for examples: a browser whose read-back is [d]. *)
Definition example_host (d : result DOMException ImageData) : Host :=
  {| has_window := true; has_document := true; context2d := true;
     object_url := fun f => String.append "blob:" (file_name f);
     draw_throws := None;
     image_data := fun _ _ => d |}.

Definition example_file : File :=
  {| file_name := "photo.png"; file_bytes := [x89; x50; x4e; x47]%byte |}.

Definition example_element : HTMLImageElement :=
  {| src := "cat.png"; crossOrigin := None; width := 640; height := 480 |}.

Definition opaque_pixel (r g b : byte) : pixel :=
  {| px_r := r; px_g := g; px_b := b; px_a := "255"%byte |}.

(** *** Notions for the properties of the operation *)

(** Two samples of the same colour: they differ in alpha at most. *)
Definition same_rgb (p q : pixel) : Prop :=
  px_r p = px_r q /\ px_g p = px_g q /\ px_b p = px_b q.

(** The calls that concern object URLs. *)
Definition is_object_url_call (c : host_call) : bool :=
  match c with
  | CreateObjectURL _ _ | RevokeObjectURL _ => true
  | _ => false
  end.

Definition is_create_call (c : host_call) : bool :=
  match c with CreateObjectURL _ _ => true | _ => false end.

(** The calls that draw on the canvas or read it back. *)
Definition is_canvas_call (c : host_call) : bool :=
  match c with DrawImage _ | GetImageData _ _ => true | _ => false end.

Definition is_file (imageSource : ImageSource) : bool :=
  match imageSource with OfFile _ => true | _ => false end.

(** A host for examples whose canvas has no 2d context. *)
Definition example_host_no_context : Host :=
  {| has_window := true; has_document := true; context2d := false;
     object_url := fun f => String.append "blob:" (file_name f);
     draw_throws := None;
     image_data := fun _ _ => Return {| pixels := [] |} |}.

(** A host for examples whose [drawImage] throws. *)
Definition example_host_draw_throws (ex : DOMException) : Host :=
  {| has_window := true; has_document := true; context2d := true;
     object_url := fun f => String.append "blob:" (file_name f);
     draw_throws := Some ex;
     image_data := fun _ _ => Return {| pixels := [] |} |}.

(** *** The read-back of the platform *)

(** The read-back of the HTML Standard: [getImageData(0, 0, sw, sh)] throws
    (an [IndexSizeError]) when [sw] or [sh] is zero, and the [ImageData] it
    returns otherwise has [|sw| * |sh|] pixels. *)
Definition standard_read_back (host : Host) : Prop :=
  forall (sw sh : Z) (d : ImageData),
    image_data host sw sh = Return d ->
    sw <> 0 /\ sh <> 0
    /\ Z.of_nat (List.length (pixels d)) = Z.abs sw * Z.abs sh.

Definition IndexSizeError : DOMException :=
  DOMError "IndexSizeError" "The source width is 0.".

(** A host for examples with that read-back: a browser on whose canvas
    every image reads back as pixels of the one colour [p]. *)
Definition standard_host (p : pixel) : Host :=
  {| has_window := true; has_document := true; context2d := true;
     object_url := fun f => String.append "blob:" (file_name f);
     draw_throws := None;
     image_data := fun sw sh =>
       if (sw =? 0) || (sh =? 0) then Throw IndexSizeError
       else Return {| pixels := repeat p (Z.to_nat (Z.abs sw * Z.abs sh)) |} |}.

(* ===================================================================== *)
(** ** The contrast calculator (index.ts, lines 1-41) *)
(* ===================================================================== *)

(** The numbers here are binary64 floats and every operation rounds as
    IEEE 754 says; the decimal literals of the source are read as the
    nearest float, as JavaScript reads them. *)

Set Warnings "-inexact-float".

Definition RED : float := 0.2126.
Definition GREEN : float := 0.7152.
Definition BLUE : float := 0.0722.
Definition GAMMA : float := 2.4.

Definition is_pos_zero (x : float) : bool :=
  match classify x with PZero => true | _ => false end.

Definition is_neg_zero (x : float) : bool :=
  match classify x with NZero => true | _ => false end.

(** One step of the loop of [Math.max]: [+0] is larger than [-0]. *)
Definition max_step (highest value : float) : float :=
  if is_pos_zero value && is_neg_zero highest then 0%float
  else if (highest <? value)%float then value else highest.

(** [Math.max(x, y)]: [NaN] if an argument is, else the loop from
    [-Infinity]. *)
Definition Math_max (x y : float) : float :=
  if is_nan x || is_nan y then nan
  else max_step (max_step neg_infinity x) y.

(** One step of the loop of [Math.min]: [-0] is smaller than [+0]. *)
Definition min_step (lowest value : float) : float :=
  if is_neg_zero value && is_pos_zero lowest then (-0)%float
  else if (value <? lowest)%float then value else lowest.

(** [Math.min(x, y)]. *)
Definition Math_min (x y : float) : float :=
  if is_nan x || is_nan y then nan
  else min_step (min_step infinity x) y.

Section Contrast.
(** [Math.pow], which ECMAScript leaves implementation-approximated. *)
Variable Math_pow : float -> float -> float.

(** The callback of [map] in [luminance] (lines 7-10). *)
Definition linearize (v : float) : float :=
  let v := (v / 255)%float in
  if (v <=? 0.03928)%float then (v / 12.92)%float
  else Math_pow ((v + 0.055) / 1.055)%float GAMMA.

(** [luminance] (lines 6-12). *)
Definition luminance (r g b : float) : float :=
  let a := map linearize [r; g; b] in
  (nth 0 a nan * RED + nth 1 a nan * GREEN + nth 2 a nan * BLUE)%float.

(** [contrast] (lines 35-41); an index out of range reads [undefined],
    which the arithmetic of [luminance] turns into [NaN]. *)
Definition contrast (rgb1 rgb2 : list float) : float :=
  let lum1 := luminance (nth 0 rgb1 nan) (nth 1 rgb1 nan) (nth 2 rgb1 nan) in
  let lum2 := luminance (nth 0 rgb2 nan) (nth 1 rgb2 nan) (nth 2 rgb2 nan) in
  let brightest := Math_max lum1 lum2 in
  let darkest := Math_min lum1 lum2 in
  ((brightest + 0.05) / (darkest + 0.05))%float.
End Contrast.

(** *** Colours of the data model *)

(** The float whose value is the integer [z], for [0 <= z < 2^53]. *)
Definition Z2F (z : Z) : float := of_uint63 (Uint63.of_Z z).

(** A colour: three integer channels. *)
Definition rgb (r g b : Z) : list float := [Z2F r; Z2F g; Z2F b].

Definition channel_range (v : Z) : Prop := 0 <= v <= 255.

(** What is asked of the host's [Math.pow]: a number of the unit interval
    raised to the power 2.4 is a number of the unit interval.  Every
    implementation that returns one of the two floats around the exact
    power has this property, since 0 and 1 are floats. *)
Definition pow_unit_interval (pow : float -> float -> float) : Prop :=
  forall x, (0 <=? x)%float = true -> (x <=? 1)%float = true ->
            (0 <=? pow x GAMMA)%float = true /\ (pow x GAMMA <=? 1)%float = true.

(** A stand-in for [Math.pow] of which this holds: it returns its base. *)
Definition pow_first (x y : float) : float := x.

(** The value [linearize] returns for a channel without calling [Math.pow],
    or else the argument it passes to it, is within the unit interval. *)
Definition channel_ok (v : Z) : bool :=
  let u := (Z2F v / 255)%float in
  if (u <=? 0.03928)%float
  then (0 <=? u / 12.92)%float && (u / 12.92 <=? 1)%float
  else (0 <=? (u + 0.055) / 1.055)%float && ((u + 0.055) / 1.055 <=? 1)%float.

(** *** Non-negative floats by their integer value *)

(** Number of binary digits. *)
Definition digits (n : Z) : Z := Zdigits2 n.

(** Round [N] to a multiple of [2^k], ties to even. *)
Definition rne (N k : Z) : Z :=
  let q := N / 2 ^ k in
  let rem := N mod 2 ^ k in
  if 2 * rem <? 2 ^ k then q * 2 ^ k
  else if 2 ^ k <? 2 * rem then (q + 1) * 2 ^ k
  else if Z.even q then q * 2 ^ k else (q + 1) * 2 ^ k.

(** Round [N], counted in units of [2^(emin - j)], to 53 significant bits
    and to no less than [2^emin]. *)
Definition rnd (j N : Z) : Z := rne N (Z.max (digits N - 53) j).

(** Zeros and positive finite numbers. *)
Definition okf (x : spec_float) : Prop :=
  match x with
  | S754_zero _ => True
  | S754_finite false _ e => -1074 <= e
  | _ => False
  end.

(** The value of such a number in units of [2^(-1074 - j)]. *)
Definition sval (j : Z) (x : spec_float) : Z :=
  match x with
  | S754_finite _ m e => Zpos m * 2 ^ (e + 1074 + j)
  | _ => 0
  end.

Definition okv (x : spec_float) : Prop := valid_binary x = true /\ okf x.

Definition fok (x : float) : Prop := okf (Prim2SF x).
Definition fval (x : float) : Z := sval 0 (Prim2SF x).

(** *** The branches of [luminance] *)

(** Whether the callback of [luminance] takes its linear branch for the
    channel value [v]. *)
Definition linear_branch (v : Z) : bool := (Z2F v / 255 <=? 0.03928)%float.


(* ===================================================================== *)
(** * Properties of the codec *)
(* ===================================================================== *)

(** Linear arithmetic with division and remainder by constants. *)
Ltac divlia := Z.div_mod_to_equations; lia.

(** Case analysis on a character: its eight bits. *)
Ltac each_char c := destruct c as [[] [] [] [] [] [] [] []].

(** A property of the integers below a bound, checked value by value. *)
Lemma forallb_below (f : Z -> bool) (n : nat) :
  forallb f (map Z.of_nat (seq 0 n)) = true ->
  forall c, 0 <= c < Z.of_nat n -> f c = true.
Proof.
  intros H c Hc.
  rewrite forallb_forall in H. apply H.
  apply in_map_iff. exists (Z.to_nat c). split; [lia|].
  apply in_seq. lia.
Qed.

(** The class [[a-f\d]] under the [i] flag is the class [[0-9a-fA-F]]. *)
Lemma class_matches_spec (ch : ascii) :
  class_matches class_a_f_d ch = spec_hex_digit ch.
Proof. each_char ch; vm_compute; reflexivity. Qed.

Lemma hash_not_hex : spec_hex_digit "#" = false.
Proof. reflexivity. Qed.

Lemma Canonicalize_hash (ch : ascii) :
  Ascii.eqb (Canonicalize "#") (Canonicalize ch) = Ascii.eqb ch "#".
Proof. each_char ch; vm_compute; reflexivity. Qed.

Lemma digit_value_spec (c : ascii) :
  spec_hex_digit c = true -> digit_value c = Some (spec_digit_value c).
Proof. each_char c; vm_compute; intros H; solve [reflexivity | discriminate H]. Qed.

Lemma spec_digit_value_range (c : ascii) :
  spec_hex_digit c = true -> 0 <= spec_digit_value c <= 15.
Proof.
  each_char c; vm_compute; intros H;
    solve [discriminate H | split; intros K; discriminate K].
Qed.

(** A hexadecimal digit is no white space, sign or [x]. *)
Lemma hex_digit_plain (c : ascii) :
  spec_hex_digit c = true ->
  is_whitespace c = false /\ Ascii.eqb c "-" = false /\
  Ascii.eqb c "+" = false /\ Ascii.eqb c "x" = false /\
  Ascii.eqb c "X" = false /\ Ascii.eqb c "#" = false.
Proof. each_char c; vm_compute; intros H; solve [discriminate H | repeat split]. Qed.

Lemma captures_spec (s : string) :
  match_nodes [Capture class_a_f_d 2; Capture class_a_f_d 2;
               Capture class_a_f_d 2] s =
  if (String.length s =? 6)%nat && string_forallb spec_hex_digit s
  then Some (groups_of s) else None.
Proof.
  destruct s as [|c1 [|c2 [|c3 [|c4 [|c5 [|c6 [|c7 r]]]]]]];
    cbn [match_nodes take_class String.length Nat.eqb andb string_forallb];
    repeat match goal with
      | |- context [class_matches class_a_f_d ?c] =>
          rewrite (class_matches_spec c); destruct (spec_hex_digit c)
      end;
    reflexivity.
Qed.

Lemma match_nodes_optional (c : ascii) (p : list node) (ch : ascii) (rest : string) :
  match_nodes (Optional c :: p) (String ch rest) =
  if Ascii.eqb (Canonicalize c) (Canonicalize ch) then
    match match_nodes p rest with
    | Some caps => Some caps
    | None => match_nodes p (String ch rest)
    end
  else match_nodes p (String ch rest).
Proof. reflexivity. Qed.

(** The regular expression of the source accepts exactly the strings of the
    pattern [[#]?[0-9a-fA-F]{6}], and captures the three pairs of digits. *)
Lemma regex_exec_spec (hex : string) :
  regex_exec hex =
  if matches_spec_pattern hex then Some (groups_of (strip_hash hex)) else None.
Proof.
  unfold regex_exec, hex_color_regex, matches_spec_pattern.
  destruct hex as [|ch rest].
  - reflexivity.
  - rewrite match_nodes_optional. cbn [strip_hash].
    rewrite Canonicalize_hash.
    destruct (Ascii.eqb ch "#") eqn:E.
    + apply Ascii.eqb_eq in E. subst ch.
      rewrite !captures_spec.
      destruct ((String.length rest =? 6)%nat
                && string_forallb spec_hex_digit rest); [reflexivity|].
      cbn [string_forallb]. rewrite hash_not_hex.
      rewrite andb_false_l, andb_false_r. reflexivity.
    + apply captures_spec.
Qed.

Lemma parseInt16_two_digits (h l : ascii) :
  spec_hex_digit h = true -> spec_hex_digit l = true ->
  parseInt16 (String h (String l "")) = Int (base16 (String h (String l ""))).
Proof.
  intros Hh Hl.
  destruct (hex_digit_plain h Hh) as (W & M & P & _).
  destruct (hex_digit_plain l Hl) as (_ & _ & _ & X & X' & _).
  unfold parseInt16. cbn [trim_start]. rewrite W, M, P.
  cbn [strip_0x]. rewrite X, X', andb_false_r.
  cbn [parse_digits].
  rewrite (digit_value_spec h Hh). cbn [parse_digits].
  rewrite (digit_value_spec l Hl).
  unfold base16. cbn [base16_from]. f_equal. lia.
Qed.

Lemma base16_two_digits_range (h l : ascii) :
  spec_hex_digit h = true -> spec_hex_digit l = true ->
  0 <= base16 (String h (String l "")) <= 255.
Proof.
  intros Hh Hl.
  pose proof (spec_digit_value_range h Hh).
  pose proof (spec_digit_value_range l Hl).
  unfold base16. cbn [base16_from]. lia.
Qed.

(** A string accepted by the pattern: its body is six hexadecimal digits. *)
Lemma matches_spec_pattern_body (hex : string) :
  matches_spec_pattern hex = true ->
  exists c1 c2 c3 c4 c5 c6,
    strip_hash hex =
      String c1 (String c2 (String c3 (String c4 (String c5 (String c6 "")))))
    /\ spec_hex_digit c1 = true /\ spec_hex_digit c2 = true
    /\ spec_hex_digit c3 = true /\ spec_hex_digit c4 = true
    /\ spec_hex_digit c5 = true /\ spec_hex_digit c6 = true.
Proof.
  unfold matches_spec_pattern.
  destruct (strip_hash hex) as [|c1 [|c2 [|c3 [|c4 [|c5 [|c6 [|c7 r]]]]]]];
    cbn [String.length Nat.eqb andb string_forallb]; try discriminate.
  intros H. exists c1, c2, c3, c4, c5, c6.
  repeat (apply andb_prop in H; destruct H as [? H]).
  repeat split; assumption.
Qed.

(** What [hexToRgb] does, in terms of the pattern of the specification. *)
Lemma hexToRgb_spec (hex : string) :
  hexToRgb hex =
  if matches_spec_pattern hex
  then Return (map (fun g => Int (base16 g)) (groups_of (strip_hash hex)))
  else Throw (InvalidFormat hex).
Proof.
  unfold hexToRgb. rewrite regex_exec_spec.
  destruct (matches_spec_pattern hex) eqn:M; [|reflexivity].
  destruct (matches_spec_pattern_body hex M)
    as (c1 & c2 & c3 & c4 & c5 & c6 & -> & H1 & H2 & H3 & H4 & H5 & H6).
  cbn [groups_of substring map].
  rewrite !parseInt16_two_digits by assumption. reflexivity.
Qed.

(** A channel value prints as exactly two digits: [toString(16)] gives one
    digit below 16, which [componentToHex] pads, and two from 16 to 255. *)
Lemma componentToHex_two_digits (c : Z) :
  0 <= c <= 255 ->
  componentToHex (Int c) =
  String (digit_char (c / 16)) (String (digit_char (c mod 16)) "").
Proof.
  intros Hc.
  apply String.eqb_eq.
  apply (forallb_below
           (fun c => String.eqb (componentToHex (Int c))
              (String (digit_char (c / 16)) (String (digit_char (c mod 16)) "")))
           256); [vm_compute; reflexivity | lia].
Qed.

Lemma digit_char_hex (d : Z) :
  0 <= d <= 15 ->
  spec_hex_digit (digit_char d) = true /\ spec_digit_value (digit_char d) = d.
Proof.
  intros Hd.
  assert (H : (spec_hex_digit (digit_char d)
               && (spec_digit_value (digit_char d) =? d)) = true).
  { apply (forallb_below
             (fun d => spec_hex_digit (digit_char d)
                       && (spec_digit_value (digit_char d) =? d)) 16);
      [vm_compute; reflexivity | lia]. }
  apply andb_prop in H. destruct H as [H1 H2].
  split; [assumption | apply Z.eqb_eq; assumption].
Qed.

Lemma digit_char_lower (c : ascii) :
  spec_hex_digit c = true -> digit_char (spec_digit_value c) = to_lower c.
Proof. each_char c; vm_compute; intros H; solve [reflexivity | discriminate H]. Qed.

Lemma base16_componentToHex (c : Z) :
  0 <= c <= 255 -> base16 (componentToHex (Int c)) = c.
Proof.
  intros Hc. rewrite componentToHex_two_digits by assumption.
  assert (H1 : 0 <= c / 16 <= 15) by divlia.
  assert (H2 : 0 <= c mod 16 <= 15) by divlia.
  unfold base16. cbn [base16_from].
  rewrite (proj2 (digit_char_hex _ H1)), (proj2 (digit_char_hex _ H2)).
  pose proof (Z.div_mod c 16). lia.
Qed.

Lemma componentToHex_base16 (h l : ascii) :
  spec_hex_digit h = true -> spec_hex_digit l = true ->
  componentToHex (Int (base16 (String h (String l "")))) =
  String (to_lower h) (String (to_lower l) "").
Proof.
  intros Hh Hl.
  pose proof (spec_digit_value_range h Hh) as Rh.
  pose proof (spec_digit_value_range l Hl) as Rl.
  rewrite componentToHex_two_digits by (apply base16_two_digits_range; assumption).
  unfold base16. cbn [base16_from].
  replace ((16 * (16 * 0 + spec_digit_value h) + spec_digit_value l) / 16)
    with (spec_digit_value h)
    by divlia.
  replace ((16 * (16 * 0 + spec_digit_value h) + spec_digit_value l) mod 16)
    with (spec_digit_value l)
    by divlia.
  rewrite !digit_char_lower by assumption. reflexivity.
Qed.

(** C1.  For all integers r, g, b in [0,255],
    [hexToRgb (rgbToHexString r g b)] returns, without error, exactly the
    triple [[r, g, b]]. *)
Theorem hexToRgb_rgbToHexString_roundtrip (r g b : Z) :
  0 <= r <= 255 -> 0 <= g <= 255 -> 0 <= b <= 255 ->
  hexToRgb (rgbToHexString (Int r) (Int g) (Int b))
  = Return [Int r; Int g; Int b].
Proof.
  intros Hr Hg Hb.
  pose proof (base16_componentToHex r Hr) as Br.
  pose proof (base16_componentToHex g Hg) as Bg.
  pose proof (base16_componentToHex b Hb) as Bb.
  unfold rgbToHexString, rgbToHex.
  rewrite componentToHex_two_digits in Br, Bg, Bb by assumption.
  rewrite !componentToHex_two_digits by assumption.
  assert (D : forall c, 0 <= c <= 255 ->
            spec_hex_digit (digit_char (c / 16)) = true /\
            spec_hex_digit (digit_char (c mod 16)) = true).
  { intros c Hc. split; apply digit_char_hex; divlia. }
  destruct (D r Hr) as [R1 R2], (D g Hg) as [G1 G2], (D b Hb) as [B1 B2].
  rewrite hexToRgb_spec.
  unfold matches_spec_pattern.
  cbv [String.append strip_hash Ascii.eqb Bool.eqb String.length Nat.eqb
       string_forallb groups_of substring map].
  rewrite R1, R2, G1, G2, B1, B2. cbn [andb].
  rewrite Br, Bg, Bb. reflexivity.
Qed.

Lemma hexToRgb_rgbToHexString_roundtrip_witness :
  hexToRgb (rgbToHexString (Int 255) (Int 87) (Int 51))
  = Return [Int 255; Int 87; Int 51].
Proof. apply hexToRgb_rgbToHexString_roundtrip; lia. Defined.

(** C5.  [hexToRgb hex] throws, and then an [InvalidFormat] error, if and
    only if [hex] does not match [[#]?[0-9a-fA-F]{6}]; when it succeeds it
    returns the three two-digit groups read in base 16, each in [0,255].  It
    fails on ["xyz123"], ["#fff"] and [""], and reads both ["ff5733"] and
    ["#FF5733"] as [[255, 87, 51]]. *)
Theorem hexToRgb_InvalidFormat_iff :
  (forall hex,
      (exists e, hexToRgb hex = Throw e) <-> matches_spec_pattern hex = false)
  /\ (forall hex e, hexToRgb hex = Throw e -> e = InvalidFormat hex)
  /\ (forall hex, matches_spec_pattern hex = true ->
        exists r g b,
          hexToRgb hex = Return [Int r; Int g; Int b]
          /\ [r; g; b] = map base16 (groups_of (strip_hash hex))
          /\ 0 <= r <= 255 /\ 0 <= g <= 255 /\ 0 <= b <= 255)
  /\ hexToRgb "xyz123" = Throw (InvalidFormat "xyz123")
  /\ hexToRgb "#fff" = Throw (InvalidFormat "#fff")
  /\ hexToRgb "" = Throw (InvalidFormat "")
  /\ hexToRgb "ff5733" = Return [Int 255; Int 87; Int 51]
  /\ hexToRgb "#FF5733" = Return [Int 255; Int 87; Int 51].
Proof.
  split; [|split; [|split]].
  - intros hex. rewrite hexToRgb_spec.
    destruct (matches_spec_pattern hex); split.
    + intros [e H]; discriminate H.
    + discriminate.
    + reflexivity.
    + intros _. eexists. reflexivity.
  - intros hex e. rewrite hexToRgb_spec.
    destruct (matches_spec_pattern hex); [discriminate|].
    intros H; injection H as <-. reflexivity.
  - intros hex M. rewrite hexToRgb_spec, M.
    destruct (matches_spec_pattern_body hex M)
      as (c1 & c2 & c3 & c4 & c5 & c6 & -> & H1 & H2 & H3 & H4 & H5 & H6).
    cbn [groups_of substring map].
    do 3 eexists. split; [reflexivity|]. split; [reflexivity|].
    repeat split; apply base16_two_digits_range; assumption.
  - repeat split; reflexivity.
Qed.

(** C9.  For every string [h] matching [[#]?[0-9a-fA-F]{6}],
    [rgbToHexString] applied to the triple [hexToRgb h] returns ["#"]
    followed by the six hexadecimal digits of [h] in lower case. *)
Theorem rgbToHexString_hexToRgb_normalizes (h : string) :
  matches_spec_pattern h = true ->
  exists r g b,
    hexToRgb h = Return [r; g; b]
    /\ rgbToHexString r g b = String "#" (lowercase (strip_hash h)).
Proof.
  intros M. rewrite hexToRgb_spec, M.
  destruct (matches_spec_pattern_body h M)
    as (c1 & c2 & c3 & c4 & c5 & c6 & -> & H1 & H2 & H3 & H4 & H5 & H6).
  cbn [groups_of substring map].
  do 3 eexists. split; [reflexivity|].
  unfold rgbToHexString, rgbToHex.
  rewrite !componentToHex_base16 by assumption.
  reflexivity.
Qed.

Lemma rgbToHexString_hexToRgb_normalizes_witness :
  exists r g b,
    hexToRgb "#FF5733" = Return [r; g; b]
    /\ rgbToHexString r g b = "#ff5733".
Proof. apply (rgbToHexString_hexToRgb_normalizes "#FF5733"). reflexivity. Defined.

(** ** What the codec does with other inputs *)

Lemma append_cons (c : ascii) (s t : string) : String c s ++ t = String c (s ++ t).
Proof. reflexivity. Qed.

Lemma append_length (s t : string) :
  String.length (s ++ t) = (String.length s + String.length t)%nat.
Proof.
  induction s as [|c s IH]; [reflexivity|].
  rewrite append_cons. cbn [String.length]. rewrite IH. reflexivity.
Qed.

Lemma string_forallb_app (f : ascii -> bool) (s t : string) :
  string_forallb f (s ++ t) = string_forallb f s && string_forallb f t.
Proof.
  induction s as [|c s IH]; [reflexivity|].
  rewrite append_cons. cbn [string_forallb]. rewrite IH, andb_assoc. reflexivity.
Qed.

Lemma digit_char_to_lower (d : Z) : 0 <= d <= 15 -> to_lower (digit_char d) = digit_char d.
Proof.
  intros Hd. apply Ascii.eqb_eq.
  apply (forallb_below (fun d => Ascii.eqb (to_lower (digit_char d)) (digit_char d)) 16);
    [vm_compute; reflexivity | lia].
Qed.

(** The text produced for channels within range. *)
Lemma rgbToHex_in_range (r g b : Z) :
  0 <= r <= 255 -> 0 <= g <= 255 -> 0 <= b <= 255 ->
  rgbToHex (Int r) (Int g) (Int b) =
  String "#" (String (digit_char (r / 16)) (String (digit_char (r mod 16))
             (String (digit_char (g / 16)) (String (digit_char (g mod 16))
             (String (digit_char (b / 16)) (String (digit_char (b mod 16)) "")))))).
Proof.
  intros Hr Hg Hb. unfold rgbToHex.
  rewrite !componentToHex_two_digits by assumption. reflexivity.
Qed.

Lemma digit_char_is_hex (d : Z) : 0 <= d <= 15 -> spec_hex_digit (digit_char d) = true.
Proof. intros Hd. apply (digit_char_hex d Hd). Qed.

Lemma nibbles (c : Z) : 0 <= c <= 255 -> 0 <= c / 16 <= 15 /\ 0 <= c mod 16 <= 15.
Proof. intros Hc. divlia. Qed.

(** X1.  For channels that are integers in [0,255], [rgbToHexString] returns
    seven characters: [#] followed by six hexadecimal digits, none of them
    an upper-case letter (lower-casing the text changes nothing). *)
Theorem rgbToHexString_canonical (r g b : Z) :
  0 <= r <= 255 -> 0 <= g <= 255 -> 0 <= b <= 255 ->
  let s := rgbToHexString (Int r) (Int g) (Int b) in
  String.length s = 7%nat
  /\ (exists body, s = String "#" body /\ string_forallb spec_hex_digit body = true)
  /\ lowercase s = s.
Proof.
  intros Hr Hg Hb s. subst s. unfold rgbToHexString.
  rewrite rgbToHex_in_range by assumption.
  destruct (nibbles r Hr) as [R1 R2], (nibbles g Hg) as [G1 G2], (nibbles b Hb) as [B1 B2].
  split; [reflexivity|]. split.
  - eexists. split; [reflexivity|]. cbn [string_forallb].
    rewrite !digit_char_is_hex by assumption. reflexivity.
  - cbn [lowercase]. rewrite !digit_char_to_lower by assumption. reflexivity.
Qed.

Lemma rgbToHexString_canonical_witness :
  String.length (rgbToHexString (Int 255) (Int 87) (Int 51)) = 7%nat
  /\ (exists body, rgbToHexString (Int 255) (Int 87) (Int 51) = String "#" body
                   /\ string_forallb spec_hex_digit body = true)
  /\ lowercase (rgbToHexString (Int 255) (Int 87) (Int 51))
     = rgbToHexString (Int 255) (Int 87) (Int 51).
Proof. apply (rgbToHexString_canonical 255 87 51); lia. Defined.

(** *** Channels out of range *)

Lemma digits16_length_le (fuel : nat) :
  forall n acc, (String.length acc <= String.length (digits16 fuel n acc))%nat.
Proof.
  induction fuel as [|fuel IH]; intros n acc; cbn [digits16]; [lia|].
  destruct (n <? 16); [cbn [String.length]; lia|].
  specialize (IH (n / 16) (String (digit_char (n mod 16)) acc)).
  cbn [String.length] in IH. lia.
Qed.

Lemma digits16_length_lt (fuel : nat) (n : Z) (acc : string) :
  (String.length acc < String.length (digits16 (S fuel) n acc))%nat.
Proof.
  cbn [digits16]. destruct (n <? 16); [cbn [String.length]; lia|].
  pose proof (digits16_length_le fuel (n / 16) (String (digit_char (n mod 16)) acc)) as H.
  cbn [String.length] in H. lia.
Qed.

(** From 256 on [toString(16)] has three digits or more. *)
Lemma Number_toString16_long (c : Z) :
  256 <= c -> (3 <= String.length (Number_toString16 (Int c)))%nat.
Proof.
  intros Hc. unfold Number_toString16, digits16_fuel.
  replace (c <? 0) with false by (symmetry; apply Z.ltb_ge; lia).
  assert (L : 8 <= Z.log2 c) by (apply Z.log2_le_pow2; lia).
  destruct (Z.to_nat (Z.log2 c)) as [|[|f]] eqn:E; try lia.
  cbn [digits16].
  replace (c <? 16) with false by (symmetry; apply Z.ltb_ge; lia).
  replace (c / 16 <? 16) with false by (symmetry; apply Z.ltb_ge; divlia).
  destruct (c / 16 / 16 <? 16); [cbn [String.length]; lia|].
  match goal with |- (_ <= String.length (digits16 f ?n ?acc))%nat =>
    pose proof (digits16_length_le f n acc) as H end.
  cbn [String.length] in H. lia.
Qed.

(** Every component is at least two characters long. *)
Lemma componentToHex_length (c : number) : (2 <= String.length (componentToHex c))%nat.
Proof.
  unfold componentToHex.
  destruct c as [z| | |]; [|vm_compute; lia..].
  cbv zeta.
  destruct (String.length (Number_toString16 (Int z)) =? 1)%nat eqn:E.
  - apply Nat.eqb_eq in E. rewrite append_length, E. cbn. lia.
  - apply Nat.eqb_neq in E.
    assert (1 <= String.length (Number_toString16 (Int z)))%nat; [|lia].
    unfold Number_toString16, digits16_fuel.
    destruct (z <? 0).
    + cbn [String.length]. lia.
    + match goal with |- (_ <= String.length (digits16 (S ?f) ?n ?acc))%nat =>
        pose proof (digits16_length_lt f n acc) as H end.
      cbn [String.length] in H. lia.
Qed.

(** What is not a channel prints as more than two characters, or with a
    character that is no hexadecimal digit. *)
Lemma componentToHex_not_channel (c : number) :
  is_channel c = false ->
  (3 <= String.length (componentToHex c))%nat
  \/ string_forallb spec_hex_digit (componentToHex c) = false.
Proof.
  intros H. destruct c as [z| | |]; [|left; vm_compute; lia..].
  cbn [is_channel] in H.
  destruct (Z.ltb_spec z 0) as [Hneg|Hpos].
  - right. unfold componentToHex, Number_toString16.
    replace (z <? 0) with true by (symmetry; apply Z.ltb_lt; lia).
    cbv zeta.
    match goal with |- context [digits16 (digits16_fuel ?n) ?n ?acc] =>
      pose proof (digits16_length_lt (Z.to_nat (Z.log2 n)) n acc) as L;
      fold (digits16_fuel n) in L; set (ds := digits16 (digits16_fuel n) n acc) in * end.
    cbn [String.length] in *.
    destruct (String.length ds) as [|k] eqn:E; [lia|].
    cbn [Nat.eqb]. reflexivity.
  - left.
    assert (256 <= z).
    { apply andb_false_iff in H. destruct H as [H|H].
      - apply Z.leb_gt in H. lia.
      - apply Z.leb_gt in H. lia. }
    unfold componentToHex. cbv zeta.
    pose proof (Number_toString16_long z H0) as L.
    destruct (String.length (Number_toString16 (Int z)) =? 1)%nat eqn:E.
    + apply Nat.eqb_eq in E. lia.
    + exact L.
Qed.

Lemma is_channel_spec (c : number) :
  is_channel c = true -> exists z, c = Int z /\ 0 <= z <= 255.
Proof.
  destruct c as [z| | |]; cbn [is_channel]; try discriminate.
  intros H. apply andb_prop in H. destruct H as [H1 H2].
  apply Z.leb_le in H1. apply Z.leb_le in H2. exists z. split; [reflexivity | lia].
Qed.

(** The round trip, for channels within range. *)
Lemma hexToRgb_rgbToHex_in_range (r g b : Z) :
  0 <= r <= 255 -> 0 <= g <= 255 -> 0 <= b <= 255 ->
  hexToRgb (rgbToHex (Int r) (Int g) (Int b)) = Return [Int r; Int g; Int b].
Proof.
  intros Hr Hg Hb.
  pose proof (base16_componentToHex r Hr) as Br.
  pose proof (base16_componentToHex g Hg) as Bg.
  pose proof (base16_componentToHex b Hb) as Bb.
  rewrite componentToHex_two_digits in Br, Bg, Bb by assumption.
  rewrite rgbToHex_in_range by assumption.
  destruct (nibbles r Hr) as [R1 R2], (nibbles g Hg) as [G1 G2], (nibbles b Hb) as [B1 B2].
  rewrite hexToRgb_spec. unfold matches_spec_pattern.
  cbv [strip_hash Ascii.eqb Bool.eqb String.length Nat.eqb
       string_forallb groups_of substring map].
  rewrite !digit_char_is_hex by assumption. cbn [andb].
  rewrite Br, Bg, Bb. reflexivity.
Qed.

(** The pattern rejects the text of a triple with a component that is no
    channel. *)
Lemma rgbToHex_not_channel (r g b : number) :
  is_channel r && is_channel g && is_channel b = false ->
  matches_spec_pattern (rgbToHex r g b) = false.
Proof.
  intros H. unfold rgbToHex, matches_spec_pattern.
  change ("#" ++ componentToHex r ++ componentToHex g ++ componentToHex b)
    with (String "#" (componentToHex r ++ componentToHex g ++ componentToHex b)).
  cbn [strip_hash]. change (Ascii.eqb "#" "#") with true. cbv iota.
  rewrite !append_length, !string_forallb_app.
  pose proof (componentToHex_length r) as Lr.
  pose proof (componentToHex_length g) as Lg.
  pose proof (componentToHex_length b) as Lb.
  apply andb_false_iff.
  assert (Hlong : forall n : nat, (7 <= n)%nat -> (n =? 6)%nat = false)
    by (intros n Hn; apply Nat.eqb_neq; lia).
  apply andb_false_iff in H. destruct H as [H|H];
    [apply andb_false_iff in H; destruct H as [H|H]|];
    destruct (componentToHex_not_channel _ H) as [L|F];
    try (left; apply Hlong; lia);
    right; rewrite F; rewrite ?andb_false_r; reflexivity.
Qed.

(** X2.  [rgbToHexString] neither validates nor clamps, and [hexToRgb]
    accepts its text exactly when every component is an integer in
    [0,255]: then it returns the components, and otherwise (a negative or
    larger integer, [NaN], an infinity) it throws the format error. *)
Theorem hexToRgb_rgbToHexString_channels (r g b : number) :
  hexToRgb (rgbToHexString r g b) =
  if is_channel r && is_channel g && is_channel b
  then Return [r; g; b]
  else Throw (InvalidFormat (rgbToHexString r g b)).
Proof.
  unfold rgbToHexString.
  destruct (is_channel r && is_channel g && is_channel b) eqn:E.
  - apply andb_prop in E. destruct E as [E Eb]. apply andb_prop in E.
    destruct E as [Er Eg].
    destruct (is_channel_spec r Er) as (zr & -> & Hr).
    destruct (is_channel_spec g Eg) as (zg & -> & Hg).
    destruct (is_channel_spec b Eb) as (zb & -> & Hb).
    apply hexToRgb_rgbToHex_in_range; assumption.
  - rewrite hexToRgb_spec, (rgbToHex_not_channel r g b E). reflexivity.
Qed.

(** *** Distinct colours have distinct texts *)

Lemma digit_char_inj (d e : Z) :
  0 <= d <= 15 -> 0 <= e <= 15 -> digit_char d = digit_char e -> d = e.
Proof.
  intros Hd He H.
  rewrite <- (proj2 (digit_char_hex d Hd)), <- (proj2 (digit_char_hex e He)), H.
  reflexivity.
Qed.

Lemma nibbles_inj (c c' : Z) :
  0 <= c <= 255 -> 0 <= c' <= 255 ->
  digit_char (c / 16) = digit_char (c' / 16) ->
  digit_char (c mod 16) = digit_char (c' mod 16) -> c = c'.
Proof.
  intros Hc Hc' H1 H2.
  destruct (nibbles c Hc) as [A1 A2], (nibbles c' Hc') as [B1 B2].
  apply digit_char_inj in H1; [|assumption..].
  apply digit_char_inj in H2; [|assumption..].
  rewrite (Z.div_mod c 16), (Z.div_mod c' 16) by lia. rewrite H1, H2. reflexivity.
Qed.

(** X3.  On channels that are integers in [0,255], [rgbToHexString] is
    injective: two colours with the same text are the same colour. *)
Theorem rgbToHexString_injective (r g b r' g' b' : Z) :
  0 <= r <= 255 -> 0 <= g <= 255 -> 0 <= b <= 255 ->
  0 <= r' <= 255 -> 0 <= g' <= 255 -> 0 <= b' <= 255 ->
  rgbToHexString (Int r) (Int g) (Int b) = rgbToHexString (Int r') (Int g') (Int b') ->
  r = r' /\ g = g' /\ b = b'.
Proof.
  intros Hr Hg Hb Hr' Hg' Hb' H. unfold rgbToHexString in H.
  rewrite !rgbToHex_in_range in H by assumption.
  injection H as H1 H2 H3 H4 H5 H6.
  repeat split; apply nibbles_inj; assumption.
Qed.

Lemma rgbToHexString_injective_witness :
  255 = 255 /\ 87 = 87 /\ 51 = 51.
Proof.
  apply (rgbToHexString_injective 255 87 51 255 87 51); try lia. reflexivity.
Defined.

(** *** Letter case and the leading [#] *)

Lemma to_lower_hex (c : ascii) : spec_hex_digit (to_lower c) = spec_hex_digit c.
Proof. each_char c; vm_compute; reflexivity. Qed.

Lemma to_lower_hash (c : ascii) : Ascii.eqb (to_lower c) "#" = Ascii.eqb c "#".
Proof. each_char c; vm_compute; reflexivity. Qed.

Lemma to_lower_value (c : ascii) :
  spec_hex_digit c = true -> spec_digit_value (to_lower c) = spec_digit_value c.
Proof. each_char c; vm_compute; intros H; first [reflexivity | discriminate H]. Qed.

Lemma lowercase_length (s : string) : String.length (lowercase s) = String.length s.
Proof. induction s as [|c s IH]; cbn [lowercase String.length]; congruence. Qed.

Lemma lowercase_hex (s : string) :
  string_forallb spec_hex_digit (lowercase s) = string_forallb spec_hex_digit s.
Proof.
  induction s as [|c s IH]; cbn [lowercase string_forallb]; [reflexivity|].
  rewrite to_lower_hex, IH. reflexivity.
Qed.

Lemma strip_hash_lowercase (s : string) : strip_hash (lowercase s) = lowercase (strip_hash s).
Proof.
  destruct s as [|c s]; [reflexivity|].
  cbn [lowercase strip_hash]. rewrite to_lower_hash.
  destruct (Ascii.eqb c "#"); reflexivity.
Qed.

Lemma matches_spec_pattern_lowercase (s : string) :
  matches_spec_pattern (lowercase s) = matches_spec_pattern s.
Proof.
  unfold matches_spec_pattern.
  rewrite strip_hash_lowercase, lowercase_length, lowercase_hex. reflexivity.
Qed.

(** Lower-casing the input changes nothing but the text of the error. *)
Lemma hexToRgb_lowercase (h : string) :
  hexToRgb (lowercase h) =
  match hexToRgb h with
  | Return v => Return v
  | Throw _ => Throw (InvalidFormat (lowercase h))
  end.
Proof.
  rewrite !hexToRgb_spec, matches_spec_pattern_lowercase.
  destruct (matches_spec_pattern h) eqn:M; [|reflexivity].
  rewrite strip_hash_lowercase.
  destruct (matches_spec_pattern_body h M)
    as (c1 & c2 & c3 & c4 & c5 & c6 & -> & H1 & H2 & H3 & H4 & H5 & H6).
  cbn [lowercase groups_of substring map]. unfold base16. cbn [base16_from].
  rewrite !to_lower_value by assumption. reflexivity.
Qed.

(** X4.  [hexToRgb] ignores letter case: if it accepts a string, it accepts
    every string that differs from it in the case of letters only, and
    returns the same triple. *)
Theorem hexToRgb_ignores_case (h1 h2 : string) (v : list number) :
  lowercase h1 = lowercase h2 ->
  hexToRgb h1 = Return v -> hexToRgb h2 = Return v.
Proof.
  intros Hcase H1.
  pose proof (hexToRgb_lowercase h1) as L1. rewrite H1 in L1.
  pose proof (hexToRgb_lowercase h2) as L2. rewrite <- Hcase, L1 in L2.
  destruct (hexToRgb h2) as [v2|e]; [congruence | discriminate L2].
Qed.

Lemma hexToRgb_ignores_case_witness :
  hexToRgb "#fF5733" = Return [Int 255; Int 87; Int 51].
Proof.
  apply (hexToRgb_ignores_case "#Ff5733" "#fF5733"); reflexivity.
Defined.

(** X5.  Whatever [hexToRgb] accepts is six characters, alone or after
    exactly one [#] (so its length is 6 or 7, and nothing is trimmed), and
    the form with the [#] and the form without it read as the same triple. *)
Theorem hexToRgb_hash_optional (h : string) (v : list number) :
  hexToRgb h = Return v ->
  exists body,
    String.length body = 6%nat
    /\ (h = body \/ h = String "#" body)
    /\ hexToRgb body = Return v
    /\ hexToRgb (String "#" body) = Return v.
Proof.
  intros H. rewrite hexToRgb_spec in H.
  destruct (matches_spec_pattern h) eqn:M; [|discriminate H].
  exists (strip_hash h).
  pose proof M as M'. unfold matches_spec_pattern in M'.
  apply andb_prop in M'. destruct M' as [Hlen Hhex].
  apply Nat.eqb_eq in Hlen.
  assert (Hs : strip_hash (strip_hash h) = strip_hash h).
  { destruct (strip_hash h) as [|c rest] eqn:E; [reflexivity|].
    cbn [strip_hash]. cbn [string_forallb] in Hhex.
    apply andb_prop in Hhex. destruct Hhex as [Hc _].
    destruct (hex_digit_plain c Hc) as (_ & _ & _ & _ & _ & Hh).
    rewrite Hh. reflexivity. }
  split; [exact Hlen|]. split.
  { destruct h as [|c rest]; [left; reflexivity|].
    cbn [strip_hash]. destruct (Ascii.eqb_spec c "#") as [->|]; [right|left]; reflexivity. }
  split.
  - rewrite hexToRgb_spec. unfold matches_spec_pattern.
    rewrite Hs, Hlen, Hhex. exact H.
  - rewrite hexToRgb_spec. unfold matches_spec_pattern.
    cbn [strip_hash]. change (Ascii.eqb "#" "#") with true. cbv iota.
    rewrite Hlen, Hhex. exact H.
Qed.

Lemma hexToRgb_hash_optional_witness :
  exists body,
    String.length body = 6%nat
    /\ ("#FF5733" = body \/ "#FF5733" = String "#" body)
    /\ hexToRgb body = Return [Int 255; Int 87; Int 51]
    /\ hexToRgb (String "#" body) = Return [Int 255; Int 87; Int 51].
Proof. apply (hexToRgb_hash_optional "#FF5733"). reflexivity. Defined.

(* ===================================================================== *)
(** * Properties of the extractor *)
(* ===================================================================== *)

Local Open Scope list_scope.

Lemma data_app (ps qs : list pixel) :
  data {| pixels := ps ++ qs |} = data {| pixels := ps |} ++ data {| pixels := qs |}.
Proof. unfold data. cbn [pixels]. apply flat_map_app. Qed.

Lemma data_length (ps : list pixel) :
  List.length (data {| pixels := ps |}) = (4 * List.length ps)%nat.
Proof.
  unfold data. cbn [pixels].
  induction ps as [|p ps IH]; [reflexivity|].
  cbn [flat_map List.length app]. rewrite IH. lia.
Qed.

(** The entries of the pixel that follows [done] in the buffer. *)
Lemma data_at_pixel (done : list pixel) (p : pixel) (rest : list pixel) :
  let d := {| pixels := done ++ p :: rest |} in
  data_at d (4 * List.length done) = Num (Int (u8 (px_r p)))
  /\ data_at d (4 * List.length done + 1) = Num (Int (u8 (px_g p)))
  /\ data_at d (4 * List.length done + 2) = Num (Int (u8 (px_b p))).
Proof.
  cbv zeta. unfold data_at. rewrite data_app.
  rewrite !nth_error_app2 by (rewrite data_length; lia).
  rewrite data_length.
  replace (4 * List.length done - 4 * List.length done)%nat with 0%nat by lia.
  replace (4 * List.length done + 1 - 4 * List.length done)%nat with 1%nat by lia.
  replace (4 * List.length done + 2 - 4 * List.length done)%nat with 2%nat by lia.
  repeat split; reflexivity.
Qed.

(** The loop adds up each channel of the pixels not yet visited. *)
Lemma sum_loop_spec (rest : list pixel) :
  forall (done : list pixel) (fuel : nat) (r g b : Z),
    (List.length rest <= fuel)%nat ->
    sum_loop fuel {| pixels := done ++ rest |} (4 * List.length done)
             (Int r) (Int g) (Int b)
    = (Int (r + channel_sum px_r rest), Int (g + channel_sum px_g rest),
       Int (b + channel_sum px_b rest)).
Proof.
  induction rest as [|p rest IH]; intros done fuel r g b Hfuel.
  - cbn [channel_sum fold_right]. rewrite !Z.add_0_r.
    destruct fuel as [|fuel]; [reflexivity|].
    cbn [sum_loop]. rewrite data_length, app_nil_r.
    replace (4 * List.length done <? 4 * List.length done)%nat with false
      by (symmetry; apply Nat.ltb_ge; lia).
    reflexivity.
  - destruct fuel as [|fuel]; [cbn [List.length] in Hfuel; lia|].
    cbn [sum_loop]. rewrite data_length.
    replace (4 * List.length done <? 4 * List.length (done ++ p :: rest))%nat
      with true
      by (symmetry; apply Nat.ltb_lt; rewrite length_app; cbn [List.length]; lia).
    destruct (data_at_pixel done p rest) as (-> & -> & ->).
    cbn [ToNumber js_add].
    replace (done ++ p :: rest) with ((done ++ [p]) ++ rest)
      by (rewrite <- app_assoc; reflexivity).
    replace (4 * List.length done + 4)%nat with (4 * List.length (done ++ [p]))%nat
      by (rewrite length_app; cbn [List.length]; lia).
    rewrite IH by (cbn [List.length] in Hfuel; lia).
    cbn [channel_sum fold_right]. rewrite !Z.add_assoc. reflexivity.
Qed.

(** The colour computed from a buffer with at least one pixel: each
    channel is the floor of the mean. *)
Lemma average_hex_spec (ps : list pixel) :
  ps <> [] ->
  let n := Z.of_nat (List.length ps) in
  average_hex {| pixels := ps |} =
  rgbToHexString (Int (channel_sum px_r ps / n)) (Int (channel_sum px_g ps / n))
                 (Int (channel_sum px_b ps / n)).
Proof.
  intros Hne n. unfold average_hex.
  rewrite (sum_loop_spec ps [] _ 0 0 0) by (rewrite data_length; cbn [app]; lia).
  rewrite data_length.
  replace (Z.of_nat (4 * List.length ps) / 4) with n by (subst n; divlia).
  assert (Hn : (n =? 0) = false).
  { apply Z.eqb_neq. subst n. destruct ps; [congruence | cbn [List.length]; lia]. }
  cbn [Math_floor_div]. rewrite Hn. reflexivity.
Qed.

(** Without a pixel every sum is [0] and so is the count. *)
Lemma average_hex_empty : average_hex {| pixels := [] |} = "#NaNNaNNaN".
Proof. reflexivity. Qed.

Arguments average_hex : simpl never.

(** Unfold the monadic operations and project the resulting worlds. *)
Ltac run :=
  unfold setup, onload, onload_body, onerror, try_catch, bind, ret, throw, call,
    deref, update, alloc_Image, create_canvas, set_canvas_size, canvas_size,
    resolve, reject, settle, host_result, initial;
  cbn [elements canvas promise calls fst snd negb orb].

Lemma fresh_lookup (sigma : store) : sigma !! fresh (dom sigma) = None.
Proof. apply not_elem_of_dom. apply is_fresh. Qed.

(** The synchronous part on a host with [window], [document] and a 2d
    context: one fresh image, carrying the locator of the source. *)
Lemma setup_browser host imageSource sigma :
  has_window host = true -> has_document host = true -> context2d host = true ->
  imageSource <> OfOther ->
  setup host imageSource (initial sigma) =
  (Return (fresh (dom sigma)),
   {| elements := <[fresh (dom sigma) := decode_source host sigma imageSource]> sigma;
      canvas := Some (300, 150);
      promise := Pending;
      calls := setup_calls host (fresh (dom sigma)) imageSource |}).
Proof.
  intros Hw Hd Hc Hsrc.
  unfold setup. rewrite Hw, Hd, Hc. cbn [negb orb].
  destruct imageSource as [l|url|f|]; [| | |congruence]; run;
    cbn [decode_source setup_calls app].
  - destruct (decide (l = fresh (dom sigma))) as [->|Hne].
    + rewrite !lookup_insert_eq, fresh_lookup. cbn [default].
      rewrite !insert_insert_eq. reflexivity.
    + rewrite !lookup_insert_eq.
      rewrite !(lookup_insert_ne _ (fresh (dom sigma)) l) by congruence.
      cbn [default]. rewrite !insert_insert_eq. reflexivity.
  - rewrite !lookup_insert_eq. cbn [default]. rewrite !insert_insert_eq. reflexivity.
  - rewrite !lookup_insert_eq. cbn [default]. rewrite !insert_insert_eq. reflexivity.
Qed.

(** [img.onload] when drawing and reading back succeed. *)
Lemma onload_spec host imageSource img w e d :
  draw_throws host = None ->
  elements w !! img = Some e ->
  image_data host (width e) (height e) = Return d ->
  promise w = Pending ->
  onload host imageSource img w =
  (Return tt,
   {| elements := elements w;
      canvas := Some (width e, height e);
      promise := Resolved (average_hex d);
      calls := calls w ++ [DrawImage img; GetImageData (width e) (height e)] ++
               match imageSource with
               | OfFile _ => [RevokeObjectURL (src e)]
               | _ => []
               end |}).
Proof.
  intros Hdraw He Hdata Hp. run.
  rewrite He, Hdraw. simpl. rewrite Hdata. run. simpl.
  rewrite Hp.
  destruct imageSource; run; rewrite ?He; simpl; rewrite <- ?app_assoc; reflexivity.
Qed.

(** [img.onload] writes to no image element. *)
Lemma onload_elements host imageSource img w :
  elements (snd (onload host imageSource img w)) = elements w.
Proof.
  run.
  destruct (draw_throws host); simpl; [reflexivity|].
  destruct (image_data host _ _); simpl; [|reflexivity].
  destruct imageSource; reflexivity.
Qed.

(** The world in which the handlers run, on a host that gets as far as
    creating the promise. *)
Lemma computeAverageColor_browser host imageSource sig sigma :
  has_window host = true -> has_document host = true -> context2d host = true ->
  imageSource <> OfOther ->
  let img := fresh (dom sigma) in
  let w0 := {| elements := <[img := decode_source host sigma imageSource]> sigma;
               canvas := Some (300, 150);
               promise := Pending;
               calls := setup_calls host img imageSource |} in
  computeAverageColor host imageSource sig sigma =
  match sig with
  | None => w0
  | Some (Load iw ih) =>
      snd (onload host imageSource img
             {| elements :=
                  <[img := set_size iw ih (decode_source host sigma imageSource)]> sigma;
                canvas := Some (300, 150);
                promise := Pending;
                calls := setup_calls host img imageSource |})
  | Some Error =>
      {| elements := elements w0; canvas := canvas w0;
         promise := Rejected (Err ImageLoadError); calls := calls w0 |}
  end.
Proof.
  intros Hw Hd Hc Hsrc img w0.
  unfold computeAverageColor. rewrite setup_browser by assumption.
  destruct sig as [[iw ih|]|]; [|reflexivity|reflexivity].
  unfold bind, update. simpl.
  rewrite lookup_insert_eq, insert_insert_eq. reflexivity.
Qed.

(** A successful decode: the promise resolves with the colour of the
    read-back buffer. *)
Lemma computeAverageColor_load host imageSource sigma iw ih d :
  browser host -> imageSource <> OfOther ->
  image_data host iw ih = Return d ->
  computeAverageColor host imageSource (Some (Load iw ih)) sigma =
  {| elements :=
       <[fresh (dom sigma) := set_size iw ih (decode_source host sigma imageSource)]> sigma;
     canvas := Some (iw, ih);
     promise := Resolved (average_hex d);
     calls := setup_calls host (fresh (dom sigma)) imageSource ++
              [DrawImage (fresh (dom sigma)); GetImageData iw ih] ++
              match imageSource with
              | OfFile f => [RevokeObjectURL (object_url host f)]
              | _ => []
              end |}.
Proof.
  intros (Hw & Hd & Hc & Hdraw) Hsrc Hdata.
  rewrite computeAverageColor_browser by assumption. cbv zeta.
  erewrite onload_spec;
    [| assumption | cbn [elements]; apply lookup_insert_eq
     | cbn [set_size width height]; eassumption | reflexivity ].
  cbn [snd elements calls set_size width height src].
  destruct imageSource; reflexivity.
Qed.

Lemma channel_sum_solid (f : pixel -> byte) (v : byte) (ps : list pixel) :
  Forall (fun p => f p = v) ps ->
  channel_sum f ps = u8 v * Z.of_nat (List.length ps).
Proof.
  induction 1 as [|p ps Hp _ IH]; [cbn; lia|].
  cbn [channel_sum fold_right List.length]. fold (channel_sum f ps).
  rewrite IH, Hp. lia.
Qed.

Lemma black_white_disjoint (p : pixel) : is_black p && is_white p = false.
Proof.
  unfold is_black, is_white.
  destruct (Z.eqb_spec (u8 (px_r p)) 0) as [->|]; [|reflexivity].
  cbn [Z.eqb andb]. apply andb_false_r.
Qed.

Lemma count_pixels_le (ps : list pixel) :
  (count_pixels is_black ps + count_pixels is_white ps <= List.length ps)%nat.
Proof.
  unfold count_pixels.
  induction ps as [|p ps IH]; [cbn; lia|].
  cbn [List.filter List.length].
  pose proof (black_white_disjoint p).
  destruct (is_black p), (is_white p); cbn [List.length]; try discriminate; lia.
Qed.

(** In an image of black and white pixels only, each channel sums to 255
    times the number of white pixels. *)
Lemma channel_sum_black_white (ps : list pixel) :
  (count_pixels is_black ps + count_pixels is_white ps = List.length ps)%nat ->
  channel_sum px_r ps = 255 * Z.of_nat (count_pixels is_white ps)
  /\ channel_sum px_g ps = 255 * Z.of_nat (count_pixels is_white ps)
  /\ channel_sum px_b ps = 255 * Z.of_nat (count_pixels is_white ps).
Proof.
  induction ps as [|p ps IH]; [cbn; lia|].
  pose proof (count_pixels_le ps) as Hle.
  pose proof (black_white_disjoint p) as Hd.
  unfold count_pixels in *.
  cbn [List.filter List.length channel_sum fold_right].
  fold (channel_sum px_r ps) (channel_sum px_g ps) (channel_sum px_b ps).
  destruct (is_black p) eqn:Eb, (is_white p) eqn:Ew;
    cbn [List.length]; try discriminate; intros H; try lia.
  - destruct IH as (-> & -> & ->); [lia|].
    unfold is_black in Eb.
    apply andb_prop in Eb. destruct Eb as [Eb E3].
    apply andb_prop in Eb. destruct Eb as [E1 E2].
    apply Z.eqb_eq in E1, E2, E3. lia.
  - destruct IH as (-> & -> & ->); [lia|].
    unfold is_white in Ew.
    apply andb_prop in Ew. destruct Ew as [Ew E3].
    apply andb_prop in Ew. destruct Ew as [E1 E2].
    apply Z.eqb_eq in E1, E2, E3. lia.
Qed.

(** C3.  On a successful decode of an image with at least one pixel the
    operation resolves with [rgbToHexString] of the per-channel means, each
    the channel sum divided by the pixel count and floored.  Hence an image
    of one solid colour [(r, g, b)] resolves to [rgbToHexString r g b], and
    an image half pure black, half pure white resolves with every channel
    equal to 127. *)
Theorem computeAverageColor_floor_mean
    (host : Host) (imageSource : ImageSource) (sigma : store)
    (iw ih : Z) (ps : list pixel) :
  browser host -> imageSource <> OfOther ->
  image_data host iw ih = Return {| pixels := ps |} ->
  ps <> [] ->
  let n := Z.of_nat (List.length ps) in
  let settled := promise (computeAverageColor host imageSource (Some (Load iw ih)) sigma) in
  settled = Resolved (rgbToHexString (Int (channel_sum px_r ps / n))
                                     (Int (channel_sum px_g ps / n))
                                     (Int (channel_sum px_b ps / n)))
  /\ (forall r g b, Forall (has_colour r g b) ps ->
        settled = Resolved (rgbToHexString (Int (u8 r)) (Int (u8 g)) (Int (u8 b))))
  /\ (count_pixels is_black ps = count_pixels is_white ps ->
      (count_pixels is_black ps + count_pixels is_white ps = List.length ps)%nat ->
        settled = Resolved (rgbToHexString (Int 127) (Int 127) (Int 127))).
Proof.
  intros Hb Hsrc Hdata Hne n settled.
  assert (Hs : settled = Resolved (rgbToHexString (Int (channel_sum px_r ps / n))
                                     (Int (channel_sum px_g ps / n))
                                     (Int (channel_sum px_b ps / n)))).
  { subst settled. rewrite (computeAverageColor_load _ _ _ _ _ _ Hb Hsrc Hdata).
    cbn [promise]. rewrite average_hex_spec by assumption. reflexivity. }
  assert (Hn : 0 < n) by (subst n; destruct ps; [congruence | cbn [List.length]; lia]).
  split; [exact Hs|]. split.
  - intros r g b Hall. rewrite Hs.
    rewrite (channel_sum_solid px_r r), (channel_sum_solid px_g g),
      (channel_sum_solid px_b b);
      try (revert Hall; apply List.Forall_impl; intros p (? & ? & ?); assumption).
    fold n. rewrite !Z.div_mul by lia. reflexivity.
  - intros Heq Hall. rewrite Hs.
    destruct (channel_sum_black_white ps Hall) as (-> & -> & ->).
    assert (Hk : 255 * Z.of_nat (count_pixels is_white ps) / n = 127).
    { symmetry.
      apply (Z.div_unique _ _ _ (Z.of_nat (count_pixels is_white ps))); lia. }
    rewrite Hk. reflexivity.
Qed.

Lemma computeAverageColor_floor_mean_witness :
  promise (computeAverageColor
             (example_host
                (Return {| pixels := [opaque_pixel x00 x00 x00;
                                      opaque_pixel xff xff xff] |}))
             (OfString "a.png") (Some (Load 2 1)) ∅)
  = Resolved "#7f7f7f".
Proof.
  refine (proj2 (proj2 (computeAverageColor_floor_mean
            (example_host
               (Return {| pixels := [opaque_pixel x00 x00 x00;
                                     opaque_pixel xff xff xff] |}))
            (OfString "a.png") ∅ 2 1 _ _ _ _ _)) _ _).
  - repeat split; reflexivity.
  - discriminate.
  - reflexivity.
  - discriminate.
  - reflexivity.
  - reflexivity.
Defined.

(** Without [window] or [document] nothing is done. *)
Lemma computeAverageColor_without_dom host imageSource sig sigma :
  has_window host = false \/ has_document host = false ->
  computeAverageColor host imageSource sig sigma =
  {| elements := sigma; canvas := None;
     promise := Rejected (Err EnvironmentError); calls := [] |}.
Proof.
  intros H. unfold computeAverageColor, setup.
  destruct H as [-> | ->]; [reflexivity|].
  rewrite orb_true_r. reflexivity.
Qed.

(** C6.  On a host without [window] or without [document] the operation
    fails at once with an [EnvironmentError], for every input: no canvas
    is created, no host primitive is called, no image element is created
    or written, and no decode event is waited for. *)
Theorem computeAverageColor_requires_dom
    (host : Host) (imageSource : ImageSource) (sig : option signal) (sigma : store) :
  has_window host = false \/ has_document host = false ->
  computeAverageColor host imageSource sig sigma =
  {| elements := sigma; canvas := None;
     promise := Rejected (Err EnvironmentError); calls := [] |}.
Proof.
  intros H. unfold computeAverageColor, setup.
  replace (negb (has_window host) || negb (has_document host)) with true.
  - reflexivity.
  - destruct H as [-> | ->]; [reflexivity | symmetry; apply orb_true_r].
Qed.

Lemma computeAverageColor_requires_dom_witness :
  computeAverageColor
    {| has_window := false; has_document := false; context2d := false;
       object_url := fun _ => ""%string; draw_throws := None;
       image_data := fun _ _ => Return {| pixels := [] |} |}
    (OfString "a.png") (Some (Load 1 1)) ∅ =
  {| elements := ∅; canvas := None;
     promise := Rejected (Err EnvironmentError); calls := [] |}.
Proof. apply computeAverageColor_requires_dom. left. reflexivity. Defined.

(** The operation creates at most one image element, the fresh one, and
    writes to no other. *)
Lemma computeAverageColor_elements host imageSource sig sigma :
  elements (computeAverageColor host imageSource sig sigma) = sigma
  \/ exists x,
      elements (computeAverageColor host imageSource sig sigma)
      = <[fresh (dom sigma) := x]> sigma.
Proof.
  destruct (has_window host) eqn:Hw; [destruct (has_document host) eqn:Hd|];
    [destruct (context2d host) eqn:Hc| |].
  - assert (Hcase : imageSource = OfOther \/ imageSource <> OfOther)
      by (destruct imageSource; (left; reflexivity) || (right; discriminate)).
    destruct Hcase as [->|Hsrc].
    + right. exists new_Image.
      unfold computeAverageColor, setup. rewrite Hw, Hd, Hc. reflexivity.
    + right. rewrite computeAverageColor_browser by assumption. cbv zeta.
      destruct sig as [[iw ih|]|].
      * rewrite onload_elements. cbn [elements]. eexists; reflexivity.
      * cbn [elements]. eexists; reflexivity.
      * eexists; reflexivity.
  - left. unfold computeAverageColor, setup. rewrite Hw, Hd, Hc. reflexivity.
  - left. rewrite computeAverageColor_without_dom by (right; assumption). reflexivity.
  - left. rewrite computeAverageColor_without_dom by (left; assumption). reflexivity.
Qed.

Lemma onload_draws host imageSource img w x :
  In (DrawImage x) (calls (snd (onload host imageSource img w))) ->
  In (DrawImage x) (calls w) \/ x = img.
Proof.
  run.
  destruct (draw_throws host); simpl.
  - rewrite in_app_iff. cbn [In]. intros [H|[H|[]]]; [left; exact H|].
    injection H as <-. right; reflexivity.
  - destruct (image_data host _ _); simpl.
    + destruct imageSource; simpl; rewrite !in_app_iff; cbn [In];
        intuition (try discriminate);
        match goal with H : DrawImage _ = DrawImage _ |- _ =>
          injection H as <-; right; reflexivity end.
    + rewrite !in_app_iff; cbn [In];
        intuition (try discriminate);
        match goal with H : DrawImage _ = DrawImage _ |- _ =>
          injection H as <-; right; reflexivity end.
Qed.

Lemma onload_calls_incl host imageSource img w c :
  In c (calls w) -> In c (calls (snd (onload host imageSource img w))).
Proof.
  intros H. run.
  destruct (draw_throws host); simpl; [apply in_or_app; left; exact H|].
  destruct (image_data host _ _); simpl.
  - destruct imageSource; simpl;
      repeat (apply in_or_app; left); exact H.
  - repeat (apply in_or_app; left); exact H.
Qed.

(** The handler looks at the store only through the image it decodes. *)
Lemma onload_frame host imageSource img w1 w2 :
  elements w1 !! img = elements w2 !! img ->
  promise w1 = promise w2 -> calls w1 = calls w2 ->
  promise (snd (onload host imageSource img w1))
  = promise (snd (onload host imageSource img w2))
  /\ calls (snd (onload host imageSource img w1))
     = calls (snd (onload host imageSource img w2)).
Proof.
  intros He Hp Hc. run. rewrite He, Hp, Hc.
  destruct (draw_throws host); simpl; [split; reflexivity|].
  destruct (image_data host _ _); simpl; [|split; reflexivity].
  destruct imageSource; simpl; rewrite ?He; split; reflexivity.
Qed.

(** C10.  For an image-element argument the operation never writes to the
    element passed: every field of it, and indeed of every element that
    existed, is unchanged whatever the host does.  It reads the [src] and
    [crossOrigin] fields only, and copies them onto a freshly created image,
    which is the one it decodes and draws. *)
Theorem computeAverageColor_element_unchanged
    (host : Host) (l : loc) (e : HTMLImageElement) (sig : option signal)
    (sigma : store) :
  sigma !! l = Some e ->
  let w := computeAverageColor host (OfElement l) sig sigma in
  elements w !! l = Some e
  /\ (forall l', is_Some (sigma !! l') -> elements w !! l' = sigma !! l')
  /\ (forall e2, src e2 = src e -> crossOrigin e2 = crossOrigin e ->
        let w2 := computeAverageColor host (OfElement l) sig (<[l := e2]> sigma) in
        promise w2 = promise w /\ calls w2 = calls w)
  /\ (has_window host = true -> has_document host = true ->
      context2d host = true ->
      exists img e',
        sigma !! img = None /\ In (NewImage img) (calls w)
        /\ elements w !! img = Some e'
        /\ src e' = src e /\ crossOrigin e' = crossOrigin e
        /\ (forall x, In (DrawImage x) (calls w) -> x = img)).
Proof.
  intros Hl w.
  assert (Hframe : forall l', is_Some (sigma !! l') -> elements w !! l' = sigma !! l').
  { intros l' [e' He'].
    destruct (computeAverageColor_elements host (OfElement l) sig sigma)
      as [H | [x H]]; subst w; rewrite H; [reflexivity|].
    apply lookup_insert_ne. intros <-. rewrite fresh_lookup in He'. discriminate. }
  split; [rewrite Hframe by (exists e; exact Hl); exact Hl|].
  split; [exact Hframe|]. split.
  - intros e2 Hsrc Hco w2. subst w w2.
    destruct (has_window host) eqn:Hw;
      [|rewrite !computeAverageColor_without_dom by (left; assumption);
        split; reflexivity].
    destruct (has_document host) eqn:Hd;
      [|rewrite !computeAverageColor_without_dom by (right; assumption);
        split; reflexivity].
    destruct (context2d host) eqn:Hc;
      [|unfold computeAverageColor, setup; rewrite Hw, Hd, Hc; split; reflexivity].
    rewrite !computeAverageColor_browser by (assumption || discriminate).
    cbv zeta.
    replace (dom (<[l:=e2]> sigma)) with (dom sigma)
      by (symmetry; apply dom_insert_lookup_L; exists e; exact Hl).
    replace (decode_source host (<[l:=e2]> sigma) (OfElement l))
      with (decode_source host sigma (OfElement l))
      by (cbn [decode_source]; rewrite lookup_insert_eq, Hl; simpl;
          rewrite Hsrc, Hco; reflexivity).
    destruct sig as [[iw ih|]|]; [|split; reflexivity|split; reflexivity].
    apply onload_frame; [|reflexivity|reflexivity].
    cbn [elements]. rewrite !lookup_insert_eq. reflexivity.
  - intros Hw Hd Hc.
    exists (fresh (dom sigma)).
    assert (Hdraw : forall x, In (DrawImage x) (calls w) -> x = fresh (dom sigma)).
    { subst w. rewrite computeAverageColor_browser by (assumption || discriminate).
      cbv zeta. intros x.
      destruct sig as [[iw ih|]|];
        [intros H; apply onload_draws in H; destruct H as [H|H]; [|exact H];
         revert H | |];
        cbn [calls setup_calls app In]; intuition discriminate. }
    subst w. rewrite computeAverageColor_browser in * by (assumption || discriminate).
    cbv zeta in *.
    destruct sig as [[iw ih|]|].
    + eexists. split; [apply fresh_lookup|]. split.
      { apply onload_calls_incl. cbn; tauto. }
      split; [rewrite onload_elements; cbn [elements]; apply lookup_insert_eq|].
      split; [|split; [|exact Hdraw]];
        cbn [decode_source set_size src crossOrigin]; rewrite Hl; reflexivity.
    + eexists. split; [apply fresh_lookup|].
      split; [cbn; tauto|].
      split; [cbn [elements]; apply lookup_insert_eq|].
      split; [|split; [|exact Hdraw]];
        cbn [decode_source src crossOrigin]; rewrite Hl; reflexivity.
    + eexists. split; [apply fresh_lookup|].
      split; [cbn; tauto|].
      split; [cbn [elements]; apply lookup_insert_eq|].
      split; [|split; [|exact Hdraw]];
        cbn [decode_source src crossOrigin]; rewrite Hl; reflexivity.
Qed.

Lemma computeAverageColor_element_unchanged_witness :
  elements (computeAverageColor
              (example_host (Return {| pixels := [opaque_pixel x10 x20 x30] |}))
              (OfElement 1%positive) (Some (Load 640 480))
              {[1%positive := example_element]}) !! 1%positive
  = Some example_element.
Proof.
  refine (proj1 (computeAverageColor_element_unchanged
            (example_host (Return {| pixels := [opaque_pixel x10 x20 x30] |}))
            1%positive example_element (Some (Load 640 480))
            {[1%positive := example_element]} _)).
  reflexivity.
Defined.

(** The object URL of a blob is revoked once when the colour is produced,
    and never when the decode fails or the read-back throws. *)
Lemma object_url_revocations host f sigma :
  browser host ->
  let url := object_url host f in
  (forall iw ih d, image_data host iw ih = Return d ->
     revocations url (calls (computeAverageColor host (OfFile f) (Some (Load iw ih)) sigma))
     = 1%nat)
  /\ (forall iw ih ex, image_data host iw ih = Throw ex ->
        revocations url (calls (computeAverageColor host (OfFile f) (Some (Load iw ih)) sigma))
        = 0%nat)
  /\ revocations url (calls (computeAverageColor host (OfFile f) (Some Error) sigma))
     = 0%nat.
Proof.
  intros Hb url. split; [|split].
  - intros iw ih d Hdata.
    assert (Hsrc : OfFile f <> OfOther) by discriminate.
    rewrite (computeAverageColor_load _ _ _ _ _ _ Hb Hsrc Hdata).
    cbn [calls setup_calls app]. unfold revocations. cbn [List.filter].
    subst url. rewrite String.eqb_refl. reflexivity.
  - intros iw ih ex Hdata. destruct Hb as (Hw & Hd & Hc & Hdraw).
    rewrite computeAverageColor_browser by (assumption || discriminate).
    cbv zeta. run. rewrite lookup_insert_eq, Hdraw. simpl. rewrite Hdata.
    reflexivity.
  - destruct Hb as (Hw & Hd & Hc & Hdraw).
    rewrite computeAverageColor_browser by (assumption || discriminate).
    reflexivity.
Qed.

(** C4, at a blob whose decode fails.  The object URL is created, the
    promise is rejected with the load error, and the URL is never revoked:
    [img.onerror] does not release it. *)
Theorem object_url_leaks_on_decode_failure :
  let host := example_host (Return {| pixels := [opaque_pixel x10 x20 x30] |}) in
  let w := computeAverageColor host (OfFile example_file) (Some Error) ∅ in
  promise w = Rejected (Err ImageLoadError)
  /\ In (CreateObjectURL example_file "blob:photo.png") (calls w)
  /\ revocations "blob:photo.png" (calls w) = 0%nat
  /\ revocations "blob:photo.png"
       (calls (computeAverageColor host (OfFile example_file) (Some (Load 1 1)) ∅))
     = 1%nat.
Proof.
  cbv zeta.
  rewrite (computeAverageColor_load _ _ _ 1 1 {| pixels := [opaque_pixel x10 x20 x30] |});
    [|repeat split; reflexivity | discriminate | reflexivity].
  rewrite computeAverageColor_browser by (reflexivity || discriminate).
  cbv zeta. cbn [promise calls setup_calls app].
  split; [reflexivity|]. split; [cbn; tauto|]. split; reflexivity.
Qed.

(** ** The other paths of the operation *)

(** X6.  On a host with [window] and [document] whose canvas gives no 2d
    context, the operation rejects with the context error whatever the
    input is (the input is not looked at), after creating the canvas and
    asking for the context and before any image is created. *)
Theorem computeAverageColor_no_context
    (host : Host) (imageSource : ImageSource) (sig : option signal) (sigma : store) :
  has_window host = true -> has_document host = true -> context2d host = false ->
  computeAverageColor host imageSource sig sigma =
  {| elements := sigma; canvas := Some (300, 150);
     promise := Rejected (Err ContextError);
     calls := [CreateCanvas; GetContext] |}.
Proof.
  intros Hw Hd Hc. unfold computeAverageColor, setup.
  rewrite Hw, Hd, Hc. reflexivity.
Qed.

Lemma computeAverageColor_no_context_witness :
  computeAverageColor example_host_no_context OfOther (Some (Load 4 4)) ∅ =
  {| elements := ∅; canvas := Some (300, 150);
     promise := Rejected (Err ContextError);
     calls := [CreateCanvas; GetContext] |}.
Proof. apply computeAverageColor_no_context; reflexivity. Defined.

(** X7.  An input that is neither an image element, a string nor a [File]
    is rejected with the input error, after the canvas, the context and a
    new image were created; the image gets no locator, no object URL is
    created and nothing is drawn. *)
Theorem computeAverageColor_invalid_input
    (host : Host) (sig : option signal) (sigma : store) :
  has_window host = true -> has_document host = true -> context2d host = true ->
  computeAverageColor host OfOther sig sigma =
  {| elements := <[fresh (dom sigma) := new_Image]> sigma;
     canvas := Some (300, 150);
     promise := Rejected (Err InvalidInputError);
     calls := [CreateCanvas; GetContext; NewImage (fresh (dom sigma))] |}.
Proof.
  intros Hw Hd Hc. unfold computeAverageColor, setup.
  rewrite Hw, Hd, Hc. reflexivity.
Qed.

Lemma computeAverageColor_invalid_input_witness :
  promise (computeAverageColor (example_host (Return {| pixels := [] |}))
             OfOther (Some (Load 1 1)) ∅)
  = Rejected (Err InvalidInputError).
Proof.
  exact (f_equal promise
           (computeAverageColor_invalid_input
              (example_host (Return {| pixels := [] |})) (Some (Load 1 1)) ∅
              eq_refl eq_refl eq_refl)).
Defined.

(** The image that is decoded, whatever the decode does: what the
    synchronous part made of the source. *)
Lemma computeAverageColor_decoded host imageSource sig sigma :
  has_window host = true -> has_document host = true -> context2d host = true ->
  imageSource <> OfOther ->
  exists e,
    elements (computeAverageColor host imageSource sig sigma) !! fresh (dom sigma) = Some e
    /\ src e = src (decode_source host sigma imageSource)
    /\ crossOrigin e = crossOrigin (decode_source host sigma imageSource).
Proof.
  intros Hw Hd Hc Hsrc.
  rewrite computeAverageColor_browser by assumption. cbv zeta.
  destruct sig as [[iw ih|]|].
  - rewrite onload_elements. cbn [elements]. rewrite lookup_insert_eq.
    eexists. split; [reflexivity|]. split; reflexivity.
  - cbn [elements]. rewrite lookup_insert_eq.
    eexists. split; [reflexivity|]. split; reflexivity.
  - cbn [elements]. rewrite lookup_insert_eq.
    eexists. split; [reflexivity|]. split; reflexivity.
Qed.

(** X8.  For a URL string the image that is decoded is a new one, with the
    string as its [src] and [crossOrigin] set to ["anonymous"]; it is the
    only image ever drawn. *)
Theorem computeAverageColor_url_anonymous
    (host : Host) (url : string) (sig : option signal) (sigma : store) :
  has_window host = true -> has_document host = true -> context2d host = true ->
  let w := computeAverageColor host (OfString url) sig sigma in
  exists e,
    elements w !! fresh (dom sigma) = Some e
    /\ src e = url /\ crossOrigin e = Some "anonymous"%string
    /\ In (NewImage (fresh (dom sigma))) (calls w)
    /\ (forall x, In (DrawImage x) (calls w) -> x = fresh (dom sigma)).
Proof.
  intros Hw Hd Hc w.
  assert (Hsrc : OfString url <> OfOther) by discriminate.
  destruct (computeAverageColor_decoded host (OfString url) sig sigma Hw Hd Hc Hsrc)
    as (e & He & Hs & Hx).
  exists e. split; [exact He|]. split; [exact Hs|]. split; [exact Hx|].
  subst w. rewrite computeAverageColor_browser by assumption. cbv zeta.
  destruct sig as [[iw ih|]|].
  - split.
    + apply onload_calls_incl. cbn. tauto.
    + intros x Hin. apply onload_draws in Hin. destruct Hin as [Hin|Hin]; [|exact Hin].
      cbn in Hin. intuition discriminate.
  - split; [cbn; tauto|]. intros x Hin. cbn in Hin. intuition discriminate.
  - split; [cbn; tauto|]. intros x Hin. cbn in Hin. intuition discriminate.
Qed.

Lemma computeAverageColor_url_anonymous_witness :
  exists e,
    elements (computeAverageColor (example_host (Return {| pixels := [] |}))
                (OfString "a.png") (Some Error) ∅) !! fresh (dom (∅ : store)) = Some e
    /\ src e = "a.png"%string /\ crossOrigin e = Some "anonymous"%string
    /\ In (NewImage (fresh (dom (∅ : store))))
          (calls (computeAverageColor (example_host (Return {| pixels := [] |}))
                    (OfString "a.png") (Some Error) ∅))
    /\ (forall x,
          In (DrawImage x)
             (calls (computeAverageColor (example_host (Return {| pixels := [] |}))
                       (OfString "a.png") (Some Error) ∅)) ->
          x = fresh (dom (∅ : store))).
Proof.
  exact (computeAverageColor_url_anonymous
           (example_host (Return {| pixels := [] |})) "a.png" (Some Error) ∅
           eq_refl eq_refl eq_refl).
Defined.

(** X9.  For a [File] the image that is decoded has the object URL of the
    file as its [src] and its [crossOrigin] left [null]; exactly one object
    URL is created, for that file, and no other URL is ever revoked. *)
Theorem computeAverageColor_file_object_url
    (host : Host) (f : File) (sig : option signal) (sigma : store) :
  has_window host = true -> has_document host = true -> context2d host = true ->
  let w := computeAverageColor host (OfFile f) sig sigma in
  (exists e,
      elements w !! fresh (dom sigma) = Some e
      /\ src e = object_url host f /\ crossOrigin e = None)
  /\ List.filter is_create_call (calls w) = [CreateObjectURL f (object_url host f)]
  /\ (forall u, In (RevokeObjectURL u) (calls w) -> u = object_url host f).
Proof.
  intros Hw Hd Hc w.
  assert (Hsrc : OfFile f <> OfOther) by discriminate.
  split.
  { destruct (computeAverageColor_decoded host (OfFile f) sig sigma Hw Hd Hc Hsrc)
      as (e & He & Hs & Hx).
    exists e. split; [exact He|]. split; [exact Hs | exact Hx]. }
  subst w. rewrite computeAverageColor_browser by assumption. cbv zeta.
  destruct sig as [[iw ih|]|];
    [|split; [reflexivity | intros u Hin; cbn in Hin; intuition discriminate]..].
  run. rewrite lookup_insert_eq. cbn [default set_size width height src].
  destruct (draw_throws host) as [ex|]; simpl.
  { split; [reflexivity|]. intros u Hin. intuition discriminate. }
  destruct (image_data host iw ih) as [d|ex]; simpl.
  - rewrite lookup_insert_eq. simpl.
    split; [reflexivity|]. intros u Hin. intuition (try discriminate). congruence.
  - split; [reflexivity|]. intros u Hin. intuition discriminate.
Qed.

Lemma computeAverageColor_file_object_url_witness :
  List.filter is_create_call
    (calls (computeAverageColor (example_host (Return {| pixels := [] |}))
              (OfFile example_file) (Some (Load 0 0)) ∅))
  = [CreateObjectURL example_file "blob:photo.png"].
Proof.
  exact (proj1 (proj2 (computeAverageColor_file_object_url
                         (example_host (Return {| pixels := [] |})) example_file
                         (Some (Load 0 0)) ∅ eq_refl eq_refl eq_refl))).
Defined.

(** The handler of [load] makes no call about object URLs unless the
    input is a [File]. *)
Lemma onload_no_object_url host imageSource img w :
  is_file imageSource = false ->
  List.filter is_object_url_call (calls (snd (onload host imageSource img w)))
  = List.filter is_object_url_call (calls w).
Proof.
  intros Hf. run.
  destruct (draw_throws host) as [ex|]; simpl.
  { rewrite List.filter_app. simpl. apply app_nil_r. }
  destruct (image_data host _ _) as [d|ex]; simpl.
  - destruct imageSource; try discriminate Hf; simpl;
      rewrite !List.filter_app; simpl; rewrite !app_nil_r; reflexivity.
  - rewrite !List.filter_app. simpl. rewrite !app_nil_r. reflexivity.
Qed.

(** X10.  For an input that is not a [File] the operation neither creates
    nor revokes an object URL, on any host and however the decode ends. *)
Theorem computeAverageColor_no_object_url
    (host : Host) (imageSource : ImageSource) (sig : option signal) (sigma : store) :
  is_file imageSource = false ->
  List.filter is_object_url_call (calls (computeAverageColor host imageSource sig sigma))
  = [].
Proof.
  intros Hf.
  destruct (has_window host) eqn:Hw;
    [|unfold computeAverageColor, setup; rewrite Hw; reflexivity].
  destruct (has_document host) eqn:Hd;
    [|unfold computeAverageColor, setup; rewrite Hw, Hd; reflexivity].
  destruct (context2d host) eqn:Hc;
    [|unfold computeAverageColor, setup; rewrite Hw, Hd, Hc; reflexivity].
  assert (Hsrc : imageSource = OfOther \/ imageSource <> OfOther)
    by (destruct imageSource; [right; discriminate.. | left; reflexivity]).
  destruct Hsrc as [->|Hsrc].
  { unfold computeAverageColor, setup. rewrite Hw, Hd, Hc. reflexivity. }
  rewrite computeAverageColor_browser by assumption. cbv zeta.
  assert (H0 : List.filter is_object_url_call
                 (setup_calls host (fresh (dom sigma)) imageSource) = [])
    by (destruct imageSource; try discriminate Hf; reflexivity).
  destruct sig as [[iw ih|]|]; cbn [calls]; [|exact H0..].
  rewrite onload_no_object_url by assumption. exact H0.
Qed.

Lemma computeAverageColor_no_object_url_witness :
  List.filter is_object_url_call
    (calls (computeAverageColor (example_host (Return {| pixels := [] |}))
              (OfString "a.png") (Some (Load 1 1)) ∅))
  = [].
Proof.
  exact (computeAverageColor_no_object_url
           (example_host (Return {| pixels := [] |})) (OfString "a.png")
           (Some (Load 1 1)) ∅ eq_refl).
Defined.

(** *** When the handlers fail *)

(** X11.  If [drawImage] throws, the promise is rejected with the
    processing error carrying the message of the exception; the canvas has
    been resized to the image, [getImageData] is not called, and the object
    URL of a [File] is not revoked. *)
Theorem computeAverageColor_draw_throws
    (host : Host) (imageSource : ImageSource) (sigma : store) (iw ih : Z)
    (ex : DOMException) :
  has_window host = true -> has_document host = true -> context2d host = true ->
  imageSource <> OfOther ->
  draw_throws host = Some ex ->
  computeAverageColor host imageSource (Some (Load iw ih)) sigma =
  {| elements :=
       <[fresh (dom sigma) := set_size iw ih (decode_source host sigma imageSource)]> sigma;
     canvas := Some (iw, ih);
     promise := Rejected (Err (PixelAccessError (dom_message ex)));
     calls := setup_calls host (fresh (dom sigma)) imageSource
              ++ [DrawImage (fresh (dom sigma))] |}.
Proof.
  intros Hw Hd Hc Hsrc Hdraw.
  rewrite computeAverageColor_browser by assumption. cbv zeta.
  run. rewrite lookup_insert_eq, Hdraw. reflexivity.
Qed.

Lemma computeAverageColor_draw_throws_witness :
  promise (computeAverageColor
             (example_host_draw_throws (DOMError "InvalidStateError" "broken image"))
             (OfString "a.png") (Some (Load 2 2)) ∅)
  = Rejected (Err (PixelAccessError "broken image")).
Proof.
  assert (Hsrc : OfString "a.png" <> OfOther) by discriminate.
  exact (f_equal promise
           (computeAverageColor_draw_throws
              (example_host_draw_throws (DOMError "InvalidStateError" "broken image"))
              (OfString "a.png") ∅ 2 2 _ eq_refl eq_refl eq_refl Hsrc eq_refl)).
Defined.

(** X12.  If [getImageData] throws (as it does on a tainted canvas), the
    promise is rejected with the processing error carrying the message of
    the exception, after one draw and one read; the object URL of a [File]
    is not revoked. *)
Theorem computeAverageColor_read_throws
    (host : Host) (imageSource : ImageSource) (sigma : store) (iw ih : Z)
    (ex : DOMException) :
  browser host -> imageSource <> OfOther ->
  image_data host iw ih = Throw ex ->
  computeAverageColor host imageSource (Some (Load iw ih)) sigma =
  {| elements :=
       <[fresh (dom sigma) := set_size iw ih (decode_source host sigma imageSource)]> sigma;
     canvas := Some (iw, ih);
     promise := Rejected (Err (PixelAccessError (dom_message ex)));
     calls := setup_calls host (fresh (dom sigma)) imageSource
              ++ [DrawImage (fresh (dom sigma)); GetImageData iw ih] |}.
Proof.
  intros (Hw & Hd & Hc & Hdraw) Hsrc Hdata.
  rewrite computeAverageColor_browser by assumption. cbv zeta.
  run. rewrite lookup_insert_eq, Hdraw. simpl. rewrite Hdata. simpl.
  rewrite <- app_assoc. reflexivity.
Qed.

Lemma computeAverageColor_read_throws_witness :
  promise (computeAverageColor
             (example_host (Throw (DOMError "SecurityError" "The canvas has been tainted")))
             (OfString "http://other.example/a.png") (Some (Load 2 2)) ∅)
  = Rejected (Err (PixelAccessError "The canvas has been tainted")).
Proof.
  assert (Hsrc : OfString "http://other.example/a.png" <> OfOther) by discriminate.
  assert (Hb : browser (example_host
                          (Throw (DOMError "SecurityError" "The canvas has been tainted"))))
    by (repeat split).
  exact (f_equal promise
           (computeAverageColor_read_throws _ _ ∅ 2 2 _ Hb Hsrc eq_refl)).
Defined.

(** X13.  If the decode fails, for every accepted input the promise is
    rejected with the load error; the canvas keeps its default size and
    nothing is drawn, read back or revoked. *)
Theorem computeAverageColor_decode_error
    (host : Host) (imageSource : ImageSource) (sigma : store) :
  has_window host = true -> has_document host = true -> context2d host = true ->
  imageSource <> OfOther ->
  computeAverageColor host imageSource (Some Error) sigma =
  {| elements := <[fresh (dom sigma) := decode_source host sigma imageSource]> sigma;
     canvas := Some (300, 150);
     promise := Rejected (Err ImageLoadError);
     calls := setup_calls host (fresh (dom sigma)) imageSource |}.
Proof.
  intros Hw Hd Hc Hsrc.
  rewrite computeAverageColor_browser by assumption. reflexivity.
Qed.

Lemma computeAverageColor_decode_error_witness :
  promise (computeAverageColor (example_host (Return {| pixels := [] |}))
             (OfString "missing.png") (Some Error) ∅)
  = Rejected (Err ImageLoadError).
Proof.
  assert (Hsrc : OfString "missing.png" <> OfOther) by discriminate.
  exact (f_equal promise
           (computeAverageColor_decode_error
              (example_host (Return {| pixels := [] |})) (OfString "missing.png") ∅
              eq_refl eq_refl eq_refl Hsrc)).
Defined.

(** *** The colour of a buffer *)

Lemma u8_range (b : byte) : 0 <= u8 b <= 255.
Proof. unfold u8. pose proof (Byte.to_N_bounded b). lia. Qed.

Lemma channel_sum_cons (f : pixel -> byte) (p : pixel) (ps : list pixel) :
  channel_sum f (p :: ps) = u8 (f p) + channel_sum f ps.
Proof. reflexivity. Qed.

Lemma channel_sum_range (f : pixel -> byte) (ps : list pixel) :
  0 <= channel_sum f ps <= 255 * Z.of_nat (List.length ps).
Proof.
  induction ps as [|p ps IH]; [cbn; lia|].
  rewrite channel_sum_cons. cbn [List.length].
  pose proof (u8_range (f p)). lia.
Qed.

Lemma mean_range (f : pixel -> byte) (ps : list pixel) :
  ps <> [] -> 0 <= channel_sum f ps / Z.of_nat (List.length ps) <= 255.
Proof.
  intros Hne. pose proof (channel_sum_range f ps) as H.
  assert (0 < Z.of_nat (List.length ps)) by (destruct ps; [congruence | cbn; lia]).
  split; [apply Z.div_pos; lia|].
  apply Z.div_le_upper_bound; lia.
Qed.

Lemma channel_sum_same (f : pixel -> byte) (ps qs : list pixel) :
  Forall2 (fun p q => f p = f q) ps qs -> channel_sum f ps = channel_sum f qs.
Proof.
  induction 1 as [|p q ps qs Hpq _ IH]; [reflexivity|].
  rewrite !channel_sum_cons, Hpq, IH. reflexivity.
Qed.

Lemma channel_sum_perm (f : pixel -> byte) (ps qs : list pixel) :
  Permutation ps qs -> channel_sum f ps = channel_sum f qs.
Proof.
  induction 1 as [|p ps qs _ IH|p q ps|ps qs rs _ IH1 _ IH2];
    rewrite ?channel_sum_cons; lia.
Qed.

(** The colour of a buffer is a function of its channel sums and length. *)
Lemma average_hex_sums (ps qs : list pixel) :
  List.length ps = List.length qs ->
  channel_sum px_r ps = channel_sum px_r qs ->
  channel_sum px_g ps = channel_sum px_g qs ->
  channel_sum px_b ps = channel_sum px_b qs ->
  average_hex {| pixels := ps |} = average_hex {| pixels := qs |}.
Proof.
  intros Hl Hr Hg Hb.
  destruct ps as [|p ps], qs as [|q qs]; try discriminate Hl; [reflexivity|].
  rewrite !average_hex_spec by discriminate. cbv zeta.
  rewrite Hl, Hr, Hg, Hb. reflexivity.
Qed.

(** X14.  The colour computed from a buffer ignores alpha: two buffers
    whose pixels have the same red, green and blue samples give the same
    text. *)
Theorem average_hex_ignores_alpha (ps qs : list pixel) :
  Forall2 same_rgb ps qs ->
  average_hex {| pixels := ps |} = average_hex {| pixels := qs |}.
Proof.
  intros H. apply average_hex_sums.
  - eapply Forall2_length; eassumption.
  - apply channel_sum_same. eapply Forall2_impl; [eassumption|].
    intros p q (Hr & _ & _). exact Hr.
  - apply channel_sum_same. eapply Forall2_impl; [eassumption|].
    intros p q (_ & Hg & _). exact Hg.
  - apply channel_sum_same. eapply Forall2_impl; [eassumption|].
    intros p q (_ & _ & Hb). exact Hb.
Qed.

(** X15.  The colour computed from a buffer does not depend on the order of
    its pixels. *)
Theorem average_hex_order (ps qs : list pixel) :
  Permutation ps qs ->
  average_hex {| pixels := ps |} = average_hex {| pixels := qs |}.
Proof.
  intros H. apply average_hex_sums.
  - apply Permutation_length. exact H.
  - apply channel_sum_perm. exact H.
  - apply channel_sum_perm. exact H.
  - apply channel_sum_perm. exact H.
Qed.

Lemma average_hex_ignores_alpha_witness :
  average_hex {| pixels := [ {| px_r := x10; px_g := x20; px_b := x30; px_a := x00 |} ] |}
  = average_hex {| pixels := [ opaque_pixel x10 x20 x30 ] |}.
Proof.
  apply average_hex_ignores_alpha.
  constructor; [repeat split | constructor].
Defined.

Lemma average_hex_order_witness :
  average_hex {| pixels := [opaque_pixel x10 x20 x30; opaque_pixel xff x00 x80] |}
  = average_hex {| pixels := [opaque_pixel xff x00 x80; opaque_pixel x10 x20 x30] |}.
Proof. apply average_hex_order. apply perm_swap. Defined.

(** X16.  When the decode succeeds and the buffer read back has a pixel,
    the promise resolves with a text of seven characters that [hexToRgb]
    accepts, reading it as three integers in [0,255]. *)
Theorem computeAverageColor_resolves_colour
    (host : Host) (imageSource : ImageSource) (sigma : store)
    (iw ih : Z) (ps : list pixel) :
  browser host -> imageSource <> OfOther ->
  image_data host iw ih = Return {| pixels := ps |} ->
  ps <> [] ->
  exists (s : string) (r g b : Z),
    promise (computeAverageColor host imageSource (Some (Load iw ih)) sigma) = Resolved s
    /\ String.length s = 7%nat
    /\ hexToRgb s = Return [Int r; Int g; Int b]
    /\ 0 <= r <= 255 /\ 0 <= g <= 255 /\ 0 <= b <= 255.
Proof.
  intros Hb Hsrc Hdata Hne.
  rewrite (computeAverageColor_load host imageSource sigma iw ih _ Hb Hsrc Hdata).
  cbn [promise]. rewrite average_hex_spec by assumption. cbv zeta.
  pose proof (mean_range px_r ps Hne) as Hr.
  pose proof (mean_range px_g ps Hne) as Hg.
  pose proof (mean_range px_b ps Hne) as Hbl.
  eexists. exists (channel_sum px_r ps / Z.of_nat (List.length ps)),
    (channel_sum px_g ps / Z.of_nat (List.length ps)),
    (channel_sum px_b ps / Z.of_nat (List.length ps)).
  split; [reflexivity|]. unfold rgbToHexString.
  split; [rewrite rgbToHex_in_range by assumption; reflexivity|].
  split; [apply hexToRgb_rgbToHex_in_range; assumption|].
  repeat split; lia.
Qed.

Lemma computeAverageColor_resolves_colour_witness :
  exists (s : string) (r g b : Z),
    promise (computeAverageColor
               (example_host (Return {| pixels := [opaque_pixel x10 x20 x30;
                                                   opaque_pixel xff x00 x80] |}))
               (OfString "a.png") (Some (Load 2 1)) ∅) = Resolved s
    /\ String.length s = 7%nat
    /\ hexToRgb s = Return [Int r; Int g; Int b]
    /\ 0 <= r <= 255 /\ 0 <= g <= 255 /\ 0 <= b <= 255.
Proof.
  apply (computeAverageColor_resolves_colour _ _ ∅ 2 1
           [opaque_pixel x10 x20 x30; opaque_pixel xff x00 x80]);
    [repeat split | discriminate | reflexivity | discriminate].
Defined.

(** X17.  On [load] the canvas is resized from its default 300 by 150 to
    the dimensions of the image, the new image is drawn once, and then the
    rectangle of exactly those dimensions is read back once, whether the
    read succeeds or throws. *)
Theorem computeAverageColor_canvas_fits_image
    (host : Host) (imageSource : ImageSource) (sigma : store) (iw ih : Z) :
  browser host -> imageSource <> OfOther ->
  let w := computeAverageColor host imageSource (Some (Load iw ih)) sigma in
  canvas w = Some (iw, ih)
  /\ List.filter is_canvas_call (calls w)
     = [DrawImage (fresh (dom sigma)); GetImageData iw ih].
Proof.
  intros (Hw & Hd & Hc & Hdraw) Hsrc w. subst w.
  rewrite computeAverageColor_browser by assumption. cbv zeta.
  run. rewrite lookup_insert_eq, Hdraw. simpl.
  destruct (image_data host iw ih) as [d|ex]; simpl.
  - rewrite ?lookup_insert_eq. destruct imageSource; try congruence; simpl;
      rewrite ?lookup_insert_eq; simpl; split; reflexivity.
  - destruct imageSource; try congruence; simpl; split; reflexivity.
Qed.

Lemma computeAverageColor_canvas_fits_image_witness :
  canvas (computeAverageColor (example_host (Return {| pixels := [] |}))
            (OfString "a.png") (Some (Load 640 480)) ∅) = Some (640, 480)
  /\ List.filter is_canvas_call
       (calls (computeAverageColor (example_host (Return {| pixels := [] |}))
                 (OfString "a.png") (Some (Load 640 480)) ∅))
     = [DrawImage (fresh (dom (∅ : store))); GetImageData 640 480].
Proof.
  apply computeAverageColor_canvas_fits_image; [repeat split | discriminate].
Defined.

(** X21.  For a [File] whose decode and read-back succeed the host calls
    are, in this order: the canvas, its context, the new image, the object
    URL of the file, one draw, one read of the image rectangle, and last the
    revocation of that URL, once. *)
Theorem computeAverageColor_file_success
    (host : Host) (f : File) (sigma : store) (iw ih : Z) (d : ImageData) :
  browser host ->
  image_data host iw ih = Return d ->
  let w := computeAverageColor host (OfFile f) (Some (Load iw ih)) sigma in
  promise w = Resolved (average_hex d)
  /\ calls w = [CreateCanvas; GetContext; NewImage (fresh (dom sigma));
                CreateObjectURL f (object_url host f);
                DrawImage (fresh (dom sigma)); GetImageData iw ih;
                RevokeObjectURL (object_url host f)].
Proof.
  intros Hb Hdata w. subst w.
  assert (Hsrc : OfFile f <> OfOther) by discriminate.
  rewrite (computeAverageColor_load host (OfFile f) sigma iw ih d Hb Hsrc Hdata).
  split; reflexivity.
Qed.

Lemma computeAverageColor_file_success_witness :
  calls (computeAverageColor
           (example_host (Return {| pixels := [opaque_pixel x10 x20 x30] |}))
           (OfFile example_file) (Some (Load 1 1)) ∅)
  = [CreateCanvas; GetContext; NewImage (fresh (dom (∅ : store)));
     CreateObjectURL example_file "blob:photo.png";
     DrawImage (fresh (dom (∅ : store))); GetImageData 1 1;
     RevokeObjectURL "blob:photo.png"].
Proof.
  assert (Hb : browser (example_host
                          (Return {| pixels := [opaque_pixel x10 x20 x30] |})))
    by (repeat split).
  exact (proj2 (computeAverageColor_file_success _ example_file ∅ 1 1 _ Hb eq_refl)).
Defined.

(** ** Images without pixels *)

Lemma standard_host_read_back (p : pixel) : standard_read_back (standard_host p).
Proof.
  intros sw sh d. cbn [image_data standard_host].
  destruct (Z.eqb_spec sw 0) as [|Hw]; [discriminate|].
  destruct (Z.eqb_spec sh 0) as [|Hh]; [discriminate|].
  cbn [orb]. intros [= <-]. cbn [pixels].
  rewrite repeat_length, Z2Nat.id by lia. repeat split; assumption.
Qed.

(** A load whose read-back throws: the promise is rejected with the
    message of the exception. *)
Lemma computeAverageColor_load_throws host imageSource sigma iw ih ex :
  browser host -> imageSource <> OfOther ->
  image_data host iw ih = Throw ex ->
  promise (computeAverageColor host imageSource (Some (Load iw ih)) sigma)
  = Rejected (Err (PixelAccessError (dom_message ex))).
Proof.
  intros (Hw & Hd & Hc & Hdraw) Hsrc Hdata.
  rewrite computeAverageColor_browser by assumption. cbv zeta.
  run. rewrite lookup_insert_eq, Hdraw. simpl. rewrite Hdata. reflexivity.
Qed.

(** A load whose read-back has a pixel: the promise resolves with a colour. *)
Lemma computeAverageColor_load_colour host imageSource sigma iw ih ps :
  browser host -> imageSource <> OfOther ->
  image_data host iw ih = Return {| pixels := ps |} ->
  ps <> [] ->
  exists r g b,
    0 <= r <= 255 /\ 0 <= g <= 255 /\ 0 <= b <= 255
    /\ promise (computeAverageColor host imageSource (Some (Load iw ih)) sigma)
       = Resolved (rgbToHex (Int r) (Int g) (Int b)).
Proof.
  intros Hb Hsrc Hdata Hne.
  rewrite (computeAverageColor_load host imageSource sigma iw ih _ Hb Hsrc Hdata).
  cbn [promise]. rewrite average_hex_spec by assumption. cbv zeta.
  do 3 eexists. split; [apply (mean_range px_r ps Hne)|].
  split; [apply (mean_range px_g ps Hne)|].
  split; [apply (mean_range px_b ps Hne)|]. reflexivity.
Qed.

(** C8, as amended.  The division by the pixel count is unguarded: on a
    buffer without a pixel the count is [0], each average is [0 / 0], that
    is [NaN], and lines 123-141 yield ["#NaNNaNNaN"].  But an image without
    pixels does not get there: on a host whose [getImageData] is that of the
    HTML Standard, the read-back of an image of width or height zero throws,
    and the operation rejects with the processing error; and whenever it
    resolves, it resolves with seven characters that [hexToRgb] reads as
    three integers in [0,255], never with ["#NaNNaNNaN"]. *)
Theorem computeAverageColor_zero_sized_image
    (host : Host) (imageSource : ImageSource) (sigma : store) (iw ih : Z) :
  browser host -> standard_read_back host -> imageSource <> OfOther ->
  let settled :=
    promise (computeAverageColor host imageSource (Some (Load iw ih)) sigma) in
  (Math_floor_div (Int 0) (Int (Z.of_nat (List.length (data {| pixels := [] |})) / 4))
   = NaN
   /\ average_hex {| pixels := [] |} = "#NaNNaNNaN"%string)
  /\ (iw = 0 \/ ih = 0 ->
      exists ex,
        image_data host iw ih = Throw ex
        /\ settled = Rejected (Err (PixelAccessError (dom_message ex))))
  /\ settled <> Resolved "#NaNNaNNaN"%string
  /\ (forall s, settled = Resolved s ->
        String.length s = 7%nat
        /\ exists r g b,
            hexToRgb s = Return [Int r; Int g; Int b]
            /\ 0 <= r <= 255 /\ 0 <= g <= 255 /\ 0 <= b <= 255).
Proof.
  intros Hb Hstd Hsrc settled.
  assert (Hcases :
            (exists ex, image_data host iw ih = Throw ex
                        /\ settled = Rejected (Err (PixelAccessError (dom_message ex))))
            \/ (iw <> 0 /\ ih <> 0
                /\ exists r g b,
                    0 <= r <= 255 /\ 0 <= g <= 255 /\ 0 <= b <= 255
                    /\ settled = Resolved (rgbToHex (Int r) (Int g) (Int b)))).
  { destruct (image_data host iw ih) as [[ps]|ex] eqn:Hdata.
    - right. destruct (Hstd iw ih _ Hdata) as (Hw & Hh & Hlen). cbn [pixels] in Hlen.
      split; [exact Hw|]. split; [exact Hh|].
      apply (computeAverageColor_load_colour host imageSource sigma iw ih ps);
        try assumption.
      intros ->. cbn [List.length] in Hlen. lia.
    - left. exists ex. split; [reflexivity|].
      apply computeAverageColor_load_throws; assumption. }
  split; [split; [reflexivity | exact average_hex_empty]|].
  split.
  { intros Hzero. destruct Hcases as [Hthrow|(Hw & Hh & _)]; [exact Hthrow | lia]. }
  split.
  - destruct Hcases as [(ex & _ & ->)|(_ & _ & r & g & b & Hr & Hg & Hb' & ->)];
      [discriminate|].
    rewrite rgbToHex_in_range by assumption. discriminate.
  - intros s Hs.
    destruct Hcases as [(ex & _ & Hrej)|(_ & _ & r & g & b & Hr & Hg & Hb' & Hres)].
    + rewrite Hrej in Hs. discriminate Hs.
    + rewrite Hres in Hs. injection Hs as <-.
      split; [rewrite rgbToHex_in_range by assumption; reflexivity|].
      exists r, g, b. split; [apply hexToRgb_rgbToHex_in_range; assumption|].
      repeat split; lia.
Qed.

Lemma computeAverageColor_zero_sized_image_witness :
  exists ex,
    image_data (standard_host (opaque_pixel x10 x20 x30)) 0 0 = Throw ex
    /\ promise (computeAverageColor (standard_host (opaque_pixel x10 x20 x30))
                  (OfFile example_file) (Some (Load 0 0)) ∅)
       = Rejected (Err (PixelAccessError (dom_message ex))).
Proof.
  assert (Hb : browser (standard_host (opaque_pixel x10 x20 x30))) by (repeat split).
  assert (Hsrc : OfFile example_file <> OfOther) by discriminate.
  refine (proj1 (proj2 (computeAverageColor_zero_sized_image
                          (standard_host (opaque_pixel x10 x20 x30))
                          (OfFile example_file) ∅ 0 0 Hb
                          (standard_host_read_back _) Hsrc)) _).
  left. reflexivity.
Defined.

(** C8 as worded fails at an image of zero width and height: the
    operation does not resolve with ["#NaNNaNNaN"], it rejects. *)
Lemma computeAverageColor_zero_pixels_counterexample :
  let host := standard_host (opaque_pixel x10 x20 x30) in
  let settled :=
    promise (computeAverageColor host (OfString "empty.svg") (Some (Load 0 0)) ∅) in
  browser host
  /\ standard_read_back host
  /\ settled
     = Rejected (Err (PixelAccessError "The source width is 0."%string))
  /\ settled <> Resolved "#NaNNaNNaN"%string.
Proof.
  split; [repeat split|]. split; [apply standard_host_read_back|].
  split; [reflexivity | discriminate].
Qed.

(* ===================================================================== *)
(** * Properties of the contrast calculator *)
(* ===================================================================== *)

(** ** Rounding, on integers *)

Lemma digits_pos_spec (p : positive) :
  2 ^ (Zpos (digits2_pos p) - 1) <= Zpos p < 2 ^ Zpos (digits2_pos p).
Proof.
  induction p as [p IH|p IH|]; cbn [digits2_pos].
  - rewrite Pos2Z.inj_succ.
    replace (Z.succ (Zpos (digits2_pos p)) - 1) with (Z.succ (Zpos (digits2_pos p) - 1)) by lia.
    rewrite !Z.pow_succ_r by lia. lia.
  - rewrite Pos2Z.inj_succ.
    replace (Z.succ (Zpos (digits2_pos p)) - 1) with (Z.succ (Zpos (digits2_pos p) - 1)) by lia.
    rewrite !Z.pow_succ_r by lia. lia.
  - cbn. lia.
Qed.

Lemma digits_spec (n : Z) : 0 < n -> 2 ^ (digits n - 1) <= n < 2 ^ digits n.
Proof. destruct n; try lia. intros _. apply digits_pos_spec. Qed.

Lemma digits_nonneg (n : Z) : 0 <= digits n.
Proof. destruct n; cbn; lia. Qed.

Lemma digits_pos (n : Z) : 0 < n -> 0 < digits n.
Proof. destruct n; cbn; lia. Qed.

Lemma digits_unique (n d : Z) : 2 ^ (d - 1) <= n < 2 ^ d -> 0 < d -> digits n = d.
Proof.
  intros [H1 H2] Hd.
  assert (Hn : 0 < n) by (pose proof (Z.pow_pos_nonneg 2 (d - 1)); lia).
  destruct (digits_spec n Hn) as [H3 H4]. pose proof (digits_pos n Hn).
  destruct (Z.lt_trichotomy (digits n) d) as [L|[L|L]]; [|exact L|].
  - assert (2 ^ digits n <= 2 ^ (d - 1)) by (apply Z.pow_le_mono_r; lia). lia.
  - assert (2 ^ d <= 2 ^ (digits n - 1)) by (apply Z.pow_le_mono_r; lia). lia.
Qed.

Lemma digits_mono (a b : Z) : 0 <= a <= b -> digits a <= digits b.
Proof.
  intros [Ha Hab].
  destruct (Z.eq_dec a 0) as [->|Hne]; [apply digits_nonneg|].
  destruct (digits_spec a ltac:(lia)) as [H1 _].
  destruct (digits_spec b ltac:(lia)) as [_ H2].
  destruct (Z_lt_le_dec (digits b) (digits a)) as [L|L]; [|exact L].
  assert (2 ^ digits b <= 2 ^ (digits a - 1)) by (apply Z.pow_le_mono_r; lia). lia.
Qed.

Lemma digits_shift (m s : Z) : 0 < m -> 0 <= s -> digits (m * 2 ^ s) = digits m + s.
Proof.
  intros Hm Hs. destruct (digits_spec m Hm) as [H1 H2]. pose proof (digits_pos m Hm).
  apply digits_unique; [|lia].
  replace (digits m + s - 1) with ((digits m - 1) + s) by lia.
  rewrite !Z.pow_add_r by lia.
  pose proof (Z.pow_pos_nonneg 2 s). nia.
Qed.

(** *** Rounding to a multiple of a power of two *)

Section Rne.
Variable k : Z.
Hypothesis Hk : 0 <= k.

Lemma pow2_pos : 0 < 2 ^ k.
Proof. apply Z.pow_pos_nonneg; lia. Qed.

Lemma rne_cases (N : Z) :
  rne N k = (N / 2 ^ k) * 2 ^ k \/ rne N k = (N / 2 ^ k + 1) * 2 ^ k.
Proof.
  unfold rne. cbv zeta.
  destruct (2 * (N mod 2 ^ k) <? 2 ^ k); [left; reflexivity|].
  destruct (2 ^ k <? 2 * (N mod 2 ^ k)); [right; reflexivity|].
  destruct (Z.even (N / 2 ^ k)); [left|right]; reflexivity.
Qed.

Lemma rne_exact (M : Z) : rne (M * 2 ^ k) k = M * 2 ^ k.
Proof.
  pose proof pow2_pos.
  unfold rne. cbv zeta. rewrite Z.mod_mul, Z.div_mul by lia.
  replace (2 * 0 <? 2 ^ k) with true by (symmetry; apply Z.ltb_lt; lia).
  reflexivity.
Qed.

Lemma rne_lower (N M : Z) : M * 2 ^ k <= N -> M * 2 ^ k <= rne N k.
Proof.
  pose proof pow2_pos. intros H1.
  assert (M <= N / 2 ^ k) by (apply Z.div_le_lower_bound; lia).
  destruct (rne_cases N) as [-> | ->]; nia.
Qed.

Lemma rne_upper (N M : Z) : N <= M * 2 ^ k -> rne N k <= M * 2 ^ k.
Proof.
  pose proof pow2_pos as HP. intros H1.
  pose proof (Z.div_mod N (2 ^ k) ltac:(lia)) as Hdm.
  pose proof (Z.mod_pos_bound N (2 ^ k) HP) as Hb.
  destruct (Z.eq_dec (N mod 2 ^ k) 0) as [E|E].
  - unfold rne. cbv zeta. rewrite E.
    replace (2 * 0 <? 2 ^ k) with true by (symmetry; apply Z.ltb_lt; lia).
    nia.
  - assert (N / 2 ^ k < M) by nia.
    destruct (rne_cases N) as [-> | ->]; nia.
Qed.

Lemma rne_mono (N1 N2 : Z) : N1 <= N2 -> rne N1 k <= rne N2 k.
Proof.
  pose proof pow2_pos as HP. intros H.
  pose proof (Z.div_mod N1 (2 ^ k) ltac:(lia)) as Hdm1.
  pose proof (Z.mod_pos_bound N1 (2 ^ k) HP) as Hb1.
  pose proof (Z.div_mod N2 (2 ^ k) ltac:(lia)) as Hdm2.
  pose proof (Z.mod_pos_bound N2 (2 ^ k) HP) as Hb2.
  assert (Hq : N1 / 2 ^ k <= N2 / 2 ^ k) by (apply Z.div_le_mono; lia).
  destruct (Z.eq_dec (N1 / 2 ^ k) (N2 / 2 ^ k)) as [E|E].
  - assert (Hr : N1 mod 2 ^ k <= N2 mod 2 ^ k) by nia.
    unfold rne. cbv zeta. rewrite <- E.
    destruct (Z.ltb_spec (2 * (N1 mod 2 ^ k)) (2 ^ k));
      destruct (Z.ltb_spec (2 * (N2 mod 2 ^ k)) (2 ^ k));
      destruct (Z.ltb_spec (2 ^ k) (2 * (N1 mod 2 ^ k)));
      destruct (Z.ltb_spec (2 ^ k) (2 * (N2 mod 2 ^ k)));
      destruct (Z.even (N1 / 2 ^ k)); try lia; nia.
  - destruct (rne_cases N1) as [-> | ->], (rne_cases N2) as [-> | ->]; nia.
Qed.
End Rne.

Lemma rnd_mono (j N1 N2 : Z) : 0 <= j -> 0 <= N1 <= N2 -> rnd j N1 <= rnd j N2.
Proof.
  intros Hj [H0 H12]. unfold rnd.
  pose proof (digits_mono N1 N2 (conj H0 H12)) as Hd.
  set (k1 := Z.max (digits N1 - 53) j). set (k2 := Z.max (digits N2 - 53) j).
  assert (Hk1 : 0 <= k1) by lia. assert (Hk2 : 0 <= k2) by lia.
  destruct (Z.eq_dec k1 k2) as [E|E].
  - rewrite E. apply rne_mono; lia.
  - assert (Hlt : k1 < k2) by lia.
    assert (HN2 : 0 < N2).
    { destruct (Z.eq_dec N2 0) as [->|]; [|lia].
      assert (N1 = 0) by lia. subst. lia. }
    assert (Hd2 : k2 = digits N2 - 53) by lia.
    assert (HdN : digits N1 < digits N2) by lia.
    set (p := digits N2 - 1).
    destruct (digits_spec N2 HN2) as [HP2 _]. fold p in HP2.
    assert (HP1 : N1 <= 2 ^ p).
    { destruct (Z.eq_dec N1 0) as [->|];
        [pose proof (Z.pow_pos_nonneg 2 p); pose proof (digits_pos N2 HN2); lia|].
      destruct (digits_spec N1 ltac:(lia)) as [_ HH].
      assert (2 ^ digits N1 <= 2 ^ p) by (apply Z.pow_le_mono_r; lia). lia. }
    assert (E1 : 2 ^ p = 2 ^ (p - k1) * 2 ^ k1)
      by (rewrite <- Z.pow_add_r by lia; f_equal; lia).
    assert (E2 : 2 ^ p = 2 ^ (p - k2) * 2 ^ k2)
      by (rewrite <- Z.pow_add_r by lia; f_equal; lia).
    transitivity (2 ^ p).
    + rewrite E1. apply rne_upper; [lia|]. rewrite <- E1. exact HP1.
    + rewrite E2. apply rne_lower; [lia|]. rewrite <- E2. exact HP2.
Qed.

Lemma rnd_exact (j m s : Z) :
  0 <= j -> 0 <= m -> digits m <= 53 -> j <= s -> rnd j (m * 2 ^ s) = m * 2 ^ s.
Proof.
  intros Hj Hm Hd Hs. unfold rnd.
  destruct (Z.eq_dec m 0) as [->|Hne].
  - rewrite Z.mul_0_l. cbn [digits Zdigits2].
    replace 0 with (0 * 2 ^ Z.max (0 - 53) j) at 1 by lia.
    rewrite rne_exact by lia. lia.
  - rewrite digits_shift by lia.
    set (k := Z.max (digits m + s - 53) j).
    replace (m * 2 ^ s) with ((m * 2 ^ (s - k)) * 2 ^ k)
      by (rewrite <- Z.mul_assoc, <- Z.pow_add_r by lia; do 2 f_equal; lia).
    apply rne_exact. lia.
Qed.

Lemma rne_scale (m n s : Z) :
  0 <= n -> 0 <= s -> rne (m * 2 ^ s) (n + s) = rne m n * 2 ^ s.
Proof.
  intros Hn Hs.
  assert (Hpn : 0 < 2 ^ n) by (apply Z.pow_pos_nonneg; lia).
  assert (Hps : 0 < 2 ^ s) by (apply Z.pow_pos_nonneg; lia).
  assert (Hq : (m * 2 ^ s) / 2 ^ (n + s) = m / 2 ^ n).
  { rewrite Z.pow_add_r by lia. rewrite Z.div_mul_cancel_r by lia. reflexivity. }
  assert (Hr : (m * 2 ^ s) mod 2 ^ (n + s) = (m mod 2 ^ n) * 2 ^ s).
  { rewrite Z.pow_add_r by lia. rewrite Z.mul_mod_distr_r by lia. reflexivity. }
  unfold rne. cbv zeta. rewrite Hq, Hr.
  rewrite (Z.pow_add_r 2 n s) by lia.
  destruct (Z.ltb_spec (2 * (m mod 2 ^ n)) (2 ^ n));
    destruct (Z.ltb_spec (2 * (m mod 2 ^ n * 2 ^ s)) (2 ^ n * 2 ^ s)); try nia.
  destruct (Z.ltb_spec (2 ^ n) (2 * (m mod 2 ^ n)));
    destruct (Z.ltb_spec (2 ^ n * 2 ^ s) (2 * (m mod 2 ^ n * 2 ^ s))); try nia.
  destruct (Z.even (m / 2 ^ n)); nia.
Qed.

(** *** The shifts of [SpecFloat] *)

Lemma iter_pos_nat {A : Type} (f : A -> A) (p : positive) (x : A) :
  SpecFloat.iter_pos f p x = Nat.iter (Pos.to_nat p) f x.
Proof.
  revert x. induction p as [p IH|p IH|]; intros x; cbn [SpecFloat.iter_pos].
  - rewrite !IH, Pos2Nat.inj_xI.
    replace (S (2 * Pos.to_nat p)) with (Pos.to_nat p + S (Pos.to_nat p))%nat by lia.
    rewrite Nat.iter_add. f_equal.
    symmetry. apply Nat.iter_succ_r.
  - rewrite !IH, Pos2Nat.inj_xO.
    replace (2 * Pos.to_nat p)%nat with (Pos.to_nat p + Pos.to_nat p)%nat by lia.
    rewrite Nat.iter_add. reflexivity.
  - reflexivity.
Qed.

Lemma shr_1_nonneg (m : Z) (r s : bool) :
  0 <= m ->
  shr_1 (Build_shr_record m r s) = Build_shr_record (m / 2) (Z.odd m) (r || s).
Proof.
  intros Hm. destruct m as [|[p|p|]|p]; try lia; cbn [shr_1].
  - reflexivity.
  - f_equal. rewrite Pos2Z.inj_xI.
    apply (Z.div_unique _ _ _ 1); lia.
  - f_equal. rewrite Pos2Z.inj_xO.
    apply (Z.div_unique _ _ _ 0); lia.
  - reflexivity.
Qed.

Lemma shr_iter_m (n : nat) (mrs : shr_record) :
  0 <= shr_m mrs ->
  shr_m (Nat.iter n shr_1 mrs) = shr_m mrs / 2 ^ Z.of_nat n.
Proof.
  intros Hm. induction n as [|n IH].
  - cbn. rewrite Z.div_1_r. reflexivity.
  - cbn [Nat.iter nat_rect]. fold (Nat.iter n shr_1 mrs).
    destruct (Nat.iter n shr_1 mrs) as [m' r' s'] eqn:E. cbn [shr_m] in IH.
    assert (0 <= m') by (rewrite IH; apply Z.div_pos; [lia | apply Z.pow_pos_nonneg; lia]).
    rewrite shr_1_nonneg by assumption. cbn [shr_m].
    rewrite IH, Nat2Z.inj_succ, Z.pow_succ_r by lia.
    rewrite Z.div_div by (try apply Z.pow_pos_nonneg; lia).
    f_equal. lia.
Qed.

Lemma mod_pow2_succ (m k : Z) :
  0 <= k ->
  m mod 2 ^ (k + 1) = m mod 2 ^ k + 2 ^ k * (if Z.odd (m / 2 ^ k) then 1 else 0).
Proof.
  intros Hk. rewrite Z.pow_add_r, Z.pow_1_r by lia.
  rewrite Z.rem_mul_r by (try apply Z.pow_nonzero; lia).
  rewrite Zmod_odd. reflexivity.
Qed.

(** Shifting an exact record right by [n >= 1] bits: the quotient, the
    last bit shifted out and whether any bit below it was set. *)
Lemma shr_iter_exact (n : nat) (m : Z) :
  0 <= m ->
  Nat.iter (S n) shr_1 (Build_shr_record m false false) =
  Build_shr_record (m / 2 ^ Z.of_nat (S n)) (Z.odd (m / 2 ^ Z.of_nat n))
                   (negb (m mod 2 ^ Z.of_nat n =? 0)).
Proof.
  intros Hm. induction n as [|n IH].
  - cbn [Nat.iter nat_rect]. rewrite shr_1_nonneg by assumption.
    cbn [Z.of_nat Pos.of_succ_nat orb].
    rewrite Z.pow_0_r, Z.pow_1_r, Z.div_1_r, Z.mod_1_r. reflexivity.
  - change (Nat.iter (S (S n)) shr_1 (Build_shr_record m false false))
      with (shr_1 (Nat.iter (S n) shr_1 (Build_shr_record m false false))).
    rewrite IH.
    assert (Hp : forall k, 0 < 2 ^ Z.of_nat k) by (intros; apply Z.pow_pos_nonneg; lia).
    rewrite shr_1_nonneg by (apply Z.div_pos; [lia | apply Hp]).
    f_equal.
    + rewrite Z.div_div by (try apply Hp; lia).
      f_equal. rewrite (Nat2Z.inj_succ (S n)), Z.pow_succ_r by lia. lia.
    + rewrite (Nat2Z.inj_succ n). unfold Z.succ.
      rewrite (mod_pow2_succ m (Z.of_nat n)) by lia.
      pose proof (Z.mod_pos_bound m (2 ^ Z.of_nat n) (Hp n)).
      pose proof (Hp n).
      destruct (Z.odd (m / 2 ^ Z.of_nat n)); cbn [orb].
      * symmetry. apply negb_true_iff, Z.eqb_neq. lia.
      * rewrite Z.mul_0_r, Z.add_0_r. reflexivity.
Qed.

(** Rounding the shifted record to nearest even is [rne]. *)
Lemma shr_round (n : nat) (m : Z) :
  0 <= m ->
  let mrs := Nat.iter (S n) shr_1 (Build_shr_record m false false) in
  round_nearest_even (shr_m mrs) (loc_of_shr_record mrs) * 2 ^ Z.of_nat (S n)
  = rne m (Z.of_nat (S n)).
Proof.
  intros Hm. cbv zeta. rewrite shr_iter_exact by assumption.
  cbn [shr_m]. unfold rne. cbv zeta.
  rewrite (Nat2Z.inj_succ n). unfold Z.succ.
  rewrite (mod_pow2_succ m (Z.of_nat n)) by lia.
  assert (Hp : 0 < 2 ^ Z.of_nat n) by (apply Z.pow_pos_nonneg; lia).
  pose proof (Z.mod_pos_bound m (2 ^ Z.of_nat n) Hp) as Hb.
  rewrite (Z.pow_add_r 2 (Z.of_nat n) 1), Z.pow_1_r by lia.
  set (a := m mod 2 ^ Z.of_nat n) in *.
  set (q := m / (2 ^ Z.of_nat n * 2)).
  destruct (Z.odd (m / 2 ^ Z.of_nat n)); cbn [loc_of_shr_record].
  - destruct (Z.eqb_spec a 0) as [E|E]; cbn [negb loc_of_shr_record round_nearest_even].
    + replace (2 * (a + 2 ^ Z.of_nat n * 1) <? 2 ^ Z.of_nat n * 2) with false
        by (symmetry; apply Z.ltb_ge; lia).
      replace (2 ^ Z.of_nat n * 2 <? 2 * (a + 2 ^ Z.of_nat n * 1)) with false
        by (symmetry; apply Z.ltb_ge; lia).
      destruct (Z.even q); reflexivity.
    + replace (2 * (a + 2 ^ Z.of_nat n * 1) <? 2 ^ Z.of_nat n * 2) with false
        by (symmetry; apply Z.ltb_ge; lia).
      replace (2 ^ Z.of_nat n * 2 <? 2 * (a + 2 ^ Z.of_nat n * 1)) with true
        by (symmetry; apply Z.ltb_lt; lia).
      reflexivity.
  - replace (2 * (a + 2 ^ Z.of_nat n * 0) <? 2 ^ Z.of_nat n * 2) with true
      by (symmetry; apply Z.ltb_lt; lia).
    destruct (Z.eqb_spec a 0); reflexivity.
Qed.

(** *** Non-negative binary64 values *)

Lemma fexp_eq (c : Z) : fexp prec emax c = Z.max (c - 53) (-1074).
Proof. reflexivity. Qed.

Lemma loc_of_record_of_loc (m : Z) (l : location) :
  loc_of_shr_record (shr_record_of_loc m l) = l /\ shr_m (shr_record_of_loc m l) = m.
Proof. destruct l as [|[]]; split; reflexivity. Qed.

Lemma round_nearest_even_cases (m : Z) (l : location) :
  round_nearest_even m l = m \/ round_nearest_even m l = m + 1.
Proof.
  destruct l as [|[]]; cbn [round_nearest_even]; try (left; reflexivity);
    try (right; reflexivity).
  destruct (Z.even m); [left|right]; reflexivity.
Qed.

Lemma small_digits (q : Z) : 0 < q < 2 ^ 53 -> digits q <= 53.
Proof.
  intros [H0 H1]. destruct (digits_spec q H0) as [Hl _].
  destruct (Z_lt_le_dec 53 (digits q)) as [L|L]; [|exact L].
  assert (2 ^ 53 <= 2 ^ (digits q - 1)) by (apply Z.pow_le_mono_r; lia). lia.
Qed.

(** The second half of [binary_round_aux]: a rounded mantissa of at most 53
    bits, or [2^53], at an exponent in range, becomes a number of the same
    value. *)
Lemma BRA_finish (qh E j : Z) :
  0 <= qh <= 2 ^ 53 -> -1074 <= E <= 950 -> 0 <= j ->
  let '(mrs, e'') := shr_fexp prec emax qh E loc_Exact in
  let x := match shr_m mrs with
           | Z0 => S754_zero false
           | Zpos m => if e'' <=? emax - prec then S754_finite false m e''
                       else S754_infinity false
           | Zneg _ => S754_nan
           end in
  okf x /\ sval j x = qh * 2 ^ (E + 1074 + j).
Proof.
  intros Hq HE Hj. unfold shr_fexp. rewrite fexp_eq. cbn [shr_record_of_loc].
  destruct (Z.eq_dec qh (2 ^ 53)) as [Hmax|Hmax].
  - rewrite Hmax.
    replace (Z.max (Zdigits2 (2 ^ 53) + E - 53) (-1074) - E) with 1
      by (change (Zdigits2 (2 ^ 53)) with 54; lia).
    cbn [shr SpecFloat.iter_pos].
    rewrite shr_1_nonneg by lia. cbn [shr_m].
    change (2 ^ 53 / 2) with (Zpos (Z.to_pos (2 ^ 52))). cbv iota zeta.
    replace (E + 1 <=? emax - prec) with true
      by (symmetry; apply Z.leb_le; change (emax - prec) with 971; lia).
    split; [cbn [okf]; lia|]. cbn [sval].
    replace (E + 1 + 1074 + j) with (1 + (E + 1074 + j)) by lia.
    rewrite Z.pow_add_r by lia.
    change (Zpos (Z.to_pos (2 ^ 52))) with (2 ^ 52). change (2 ^ 53) with (2 ^ 52 * 2 ^ 1).
    ring.
  - assert (Hn2 : Z.max (Zdigits2 qh + E - 53) (-1074) - E <= 0).
    { destruct (Z.eq_dec qh 0) as [->|Hz]; [cbn [Zdigits2]; lia|].
      pose proof (small_digits qh ltac:(lia)). unfold digits in *. lia. }
    destruct (Z.max (Zdigits2 qh + E - 53) (-1074) - E) as [|p2|p2];
      [| lia |]; cbn [shr shr_m]; cbv zeta;
      (destruct qh as [|mq|mq]; [| |lia]);
      try (split; [exact I | cbn [sval]; lia]);
      (replace (E <=? emax - prec) with true
         by (symmetry; apply Z.leb_le; change (emax - prec) with 971; lia));
      (split; [cbn [okf]; lia | reflexivity]).
Qed.

(** [binary_round_aux] on a non-negative mantissa: the mantissa is shifted
    right to the exponent [E] of its magnitude, rounded up by at most one,
    and the result has that value. *)
Lemma BRA_general (m e j : Z) (l : location) :
  0 <= m -> 0 <= j -> 0 <= e + 1074 + j -> digits m + e <= 1000 -> e <= 900 ->
  let n := Z.max (fexp prec emax (digits m + e) - e) 0 in
  let mrs := fst (shr_fexp prec emax m e l) in
  let qh := round_nearest_even (shr_m mrs) (loc_of_shr_record mrs) in
  let x := binary_round_aux prec emax false m e l in
  okf x /\ sval j x = qh * 2 ^ (e + n + 1074 + j)
  /\ shr_m mrs = m / 2 ^ n /\ (qh = m / 2 ^ n \/ qh = m / 2 ^ n + 1).
Proof.
  intros Hm Hj Hs Hmag He. cbv zeta.
  set (d := digits m) in *.
  assert (Hd : 0 <= d) by apply digits_nonneg.
  assert (Hhi : m < 2 ^ d).
  { destruct (Z.eq_dec m 0) as [->|]; [apply Z.pow_pos_nonneg; lia|].
    apply digits_spec. lia. }
  rewrite fexp_eq.
  set (E := Z.max (d + e - 53) (-1074)).
  unfold binary_round_aux.
  assert (Hshr : exists mrs,
            shr_fexp prec emax m e l = (mrs, e + Z.max (E - e) 0)
            /\ shr_m mrs = m / 2 ^ Z.max (E - e) 0).
  { unfold shr_fexp. rewrite fexp_eq. change (Zdigits2 m) with d. fold E.
    destruct (E - e) as [|p|p] eqn:Hn; cbn [shr].
    - eexists. split; [rewrite Z.add_0_r; reflexivity|].
      rewrite (proj2 (loc_of_record_of_loc m l)). cbn. rewrite Z.div_1_r. reflexivity.
    - eexists. split; [reflexivity|].
      rewrite iter_pos_nat, shr_iter_m
        by (rewrite (proj2 (loc_of_record_of_loc m l)); exact Hm).
      rewrite (proj2 (loc_of_record_of_loc m l)), positive_nat_Z. reflexivity.
    - eexists. split; [rewrite Z.add_0_r; reflexivity|].
      rewrite (proj2 (loc_of_record_of_loc m l)). cbn. rewrite Z.div_1_r. reflexivity. }
  destruct Hshr as (mrs & Hshr & Hmrs). rewrite Hshr. cbn [fst].
  set (n := Z.max (E - e) 0) in *.
  set (qh := round_nearest_even (shr_m mrs) (loc_of_shr_record mrs)).
  assert (Hp2 : 0 < 2 ^ n) by (apply Z.pow_pos_nonneg; lia).
  assert (Hq : 0 <= m / 2 ^ n < 2 ^ 53).
  { split; [apply Z.div_pos; lia|].
    apply Z.div_lt_upper_bound; [lia|].
    rewrite <- Z.pow_add_r by lia.
    assert (2 ^ d <= 2 ^ (n + 53)) by (apply Z.pow_le_mono_r; unfold n, E; lia).
    lia. }
  assert (Hqh : qh = m / 2 ^ n \/ qh = m / 2 ^ n + 1).
  { unfold qh. rewrite <- Hmrs. apply round_nearest_even_cases. }
  pose proof (BRA_finish qh (e + n) j ltac:(lia) ltac:(unfold n, E; lia) Hj) as HF.
  destruct (shr_fexp prec emax qh (e + n) loc_Exact) as [mrs2 e2].
  cbv zeta in HF. destruct HF as [HF1 HF2].
  repeat split; assumption.
Qed.

Lemma BRA_exact (m : positive) (e j : Z) :
  0 <= j -> 0 <= e + 1074 + j -> digits (Zpos m) + e <= 1000 -> e <= 900 ->
  let x := binary_round_aux prec emax false (Zpos m) e loc_Exact in
  okf x /\ sval j x = rnd j (Zpos m * 2 ^ (e + 1074 + j)).
Proof.
  intros Hj Hs Hmag He. cbv zeta.
  destruct (BRA_general (Zpos m) e j loc_Exact ltac:(lia) Hj Hs Hmag He)
    as (Hok & Hval & Hm & _).
  split; [exact Hok|]. rewrite Hval. clear Hok Hval.
  set (d := digits (Zpos m)) in *.
  assert (Hd : 0 < d) by (apply digits_pos; lia).
  rewrite fexp_eq in *.
  set (E := Z.max (d + e - 53) (-1074)) in *.
  set (s := e + 1074 + j) in *.
  assert (Hk : Z.max (digits (Zpos m * 2 ^ s) - 53) j = E + 1074 + j).
  { rewrite digits_shift by lia. fold d. unfold E, s. lia. }
  unfold rnd. rewrite Hk.
  unfold shr_fexp. rewrite fexp_eq. change (Zdigits2 (Zpos m)) with d. fold E.
  cbn [shr_record_of_loc].
  destruct (E - e) as [|p|p] eqn:Hn; cbn [shr fst Z.max].
  - cbn [shr_m loc_of_shr_record round_nearest_even].
    replace (e + Z.max 0 0 + 1074 + j) with s by (unfold s; lia).
    replace (Zpos m * 2 ^ s) with ((Zpos m * 2 ^ (s - (E + 1074 + j))) * 2 ^ (E + 1074 + j)) at 2
      by (rewrite <- Z.mul_assoc, <- Z.pow_add_r by (unfold s; lia); do 2 f_equal; lia).
    rewrite rne_exact by lia.
    rewrite <- Z.mul_assoc, <- Z.pow_add_r by (unfold s; lia). do 2 f_equal. lia.
  - rewrite iter_pos_nat.
    destruct (Pos.to_nat p) as [|n'] eqn:Hp; [pose proof (Pos2Nat.is_pos p); lia|].
    assert (Hnp : Z.of_nat (S n') = Zpos p) by (rewrite <- Hp; apply positive_nat_Z).
    pose proof (shr_round n' (Zpos m) ltac:(lia)) as HR. cbv zeta in HR.
    rewrite Hnp in HR.
    replace (E + 1074 + j) with (Zpos p + s) by (unfold s; lia).
    rewrite rne_scale by lia. rewrite <- HR.
    replace (e + Z.max (Zpos p) 0 + 1074 + j) with (Zpos p + s) by (unfold s; lia).
    rewrite Z.pow_add_r by lia. ring.
  - cbn [shr_m loc_of_shr_record round_nearest_even].
    replace (e + Z.max (Zneg p) 0 + 1074 + j) with s by (unfold s; lia).
    replace (Zpos m * 2 ^ s) with ((Zpos m * 2 ^ (s - (E + 1074 + j))) * 2 ^ (E + 1074 + j)) at 2
      by (rewrite <- Z.mul_assoc, <- Z.pow_add_r by (unfold s, E in *; lia); do 2 f_equal; lia).
    rewrite rne_exact by (unfold E; lia).
    rewrite <- Z.mul_assoc, <- Z.pow_add_r by (unfold s, E in *; lia). do 2 f_equal. lia.
Qed.

(** *** Valid non-negative numbers and their order *)

Lemma valid_finite (s : bool) (m : positive) (e : Z) :
  valid_binary (S754_finite s m e) = true ->
  digits (Zpos m) <= 53 /\ -1074 <= e <= 971 /\ (e = -1074 \/ digits (Zpos m) = 53).
Proof.
  cbn [SpecFloat.valid_binary]. unfold bounded, canonical_mantissa.
  rewrite fexp_eq. intros H. apply andb_prop in H. destruct H as [H1 H2].
  apply Z.eqb_eq in H1. apply Z.leb_le in H2. change (emax - prec) with 971 in H2.
  change (digits (Zpos m)) with (Zpos (digits2_pos m)). lia.
Qed.

Lemma sval_nonneg (j : Z) (x : spec_float) : 0 <= sval j x.
Proof.
  destruct x; cbn [sval]; lia.
Qed.

Lemma sval_finite_pos (j : Z) (s : bool) (m : positive) (e : Z) :
  0 <= e + 1074 + j -> 0 < sval j (S754_finite s m e).
Proof.
  intros H. cbn [sval]. pose proof (Z.pow_pos_nonneg 2 (e + 1074 + j)). nia.
Qed.

Lemma sval_shift (j : Z) (x : spec_float) :
  0 <= j -> okf x -> sval j x = sval 0 x * 2 ^ j.
Proof.
  intros Hj Hx. destruct x as [| | |[] m e]; cbn [sval okf] in *; try lia.
  rewrite <- Z.mul_assoc, <- Z.pow_add_r by lia. do 2 f_equal. lia.
Qed.

(** On valid non-negative numbers the comparison of [SpecFloat] is the
    comparison of the values. *)
Lemma SFcompare_sval (x y : spec_float) :
  okv x -> okv y -> SFcompare x y = Some (sval 0 x ?= sval 0 y).
Proof.
  intros [Vx Ox] [Vy Oy].
  destruct x as [sx| | |[] mx ex], y as [sy| | |[] my ey]; cbn [okf] in *;
    try contradiction; cbn [SFcompare].
  - reflexivity.
  - f_equal. symmetry. apply Z.compare_lt_iff. apply sval_finite_pos. lia.
  - f_equal. symmetry. apply Z.compare_gt_iff. apply sval_finite_pos. lia.
  - f_equal. cbn [sval]. rewrite !Z.add_0_r.
    destruct (valid_finite _ _ _ Vx) as (Dx & Ex & Cx).
    destruct (valid_finite _ _ _ Vy) as (Dy & Ey & Cy).
    destruct (digits_spec (Zpos mx) ltac:(lia)) as [Lx Hx].
    destruct (digits_spec (Zpos my) ltac:(lia)) as [Ly Hy].
    assert (Hx53 : Zpos mx < 2 ^ 53).
    { assert (2 ^ digits (Zpos mx) <= 2 ^ 53) by (apply Z.pow_le_mono_r; lia). lia. }
    assert (Hy53 : Zpos my < 2 ^ 53).
    { assert (2 ^ digits (Zpos my) <= 2 ^ 53) by (apply Z.pow_le_mono_r; lia). lia. }
    destruct (Z.compare_spec ex ey) as [E|L|L].
    + subst ey. rewrite Pos.compare_cont_spec.
      rewrite <- (Zmult_compare_compat_r (Zpos mx) (Zpos my) (2 ^ (ex + 1074)))
        by (apply Z.lt_gt, Z.pow_pos_nonneg; lia).
      change (Zpos mx ?= Zpos my) with (Pos.compare mx my).
      destruct (Pos.compare mx my); reflexivity.
    + symmetry. apply Z.compare_lt_iff.
      assert (digits (Zpos my) = 53) by lia.
      assert (2 ^ 52 <= Zpos my) by (replace 52 with (digits (Zpos my) - 1) by lia; exact Ly).
      replace (ey + 1074) with ((ey - ex) + (ex + 1074)) by lia.
      rewrite (Z.pow_add_r 2 (ey - ex) (ex + 1074)) by lia.
      assert (HA : 2 <= 2 ^ (ey - ex))
        by (change 2 with (2 ^ 1) at 1; apply Z.pow_le_mono_r; lia).
      pose proof (Z.pow_pos_nonneg 2 (ex + 1074) ltac:(lia) ltac:(lia)) as HP.
      set (A := 2 ^ (ey - ex)) in *. set (P := 2 ^ (ex + 1074)) in *.
      assert (HB : Zpos mx < Zpos my * A).
      { apply Z.lt_le_trans with (2 ^ 52 * 2); [exact Hx53|].
        apply Z.mul_le_mono_nonneg; lia. }
      rewrite Z.mul_assoc. apply Z.mul_lt_mono_pos_r; assumption.
    + symmetry. apply Z.compare_gt_iff.
      assert (digits (Zpos mx) = 53) by lia.
      assert (2 ^ 52 <= Zpos mx) by (replace 52 with (digits (Zpos mx) - 1) by lia; exact Lx).
      replace (ex + 1074) with ((ex - ey) + (ey + 1074)) by lia.
      rewrite (Z.pow_add_r 2 (ex - ey) (ey + 1074)) by lia.
      assert (HA : 2 <= 2 ^ (ex - ey))
        by (change 2 with (2 ^ 1) at 1; apply Z.pow_le_mono_r; lia).
      pose proof (Z.pow_pos_nonneg 2 (ey + 1074) ltac:(lia) ltac:(lia)) as HP.
      set (A := 2 ^ (ex - ey)) in *. set (P := 2 ^ (ey + 1074)) in *.
      assert (HB : Zpos my < Zpos mx * A).
      { apply Z.lt_le_trans with (2 ^ 52 * 2); [exact Hy53|].
        apply Z.mul_le_mono_nonneg; lia. }
      rewrite Z.mul_assoc. apply Z.mul_lt_mono_pos_r; assumption.
Qed.

Lemma digits_le_of_lt (q t : Z) : 0 <= q < 2 ^ t -> 0 <= t -> digits q <= t.
Proof.
  intros [H0 H1] Ht.
  destruct (Z.eq_dec q 0) as [->|Hne]; [cbn; lia|].
  destruct (digits_spec q ltac:(lia)) as [Hl _].
  destruct (Z_lt_le_dec t (digits q)) as [L|L]; [|exact L].
  assert (2 ^ t <= 2 ^ (digits q - 1)) by (apply Z.pow_le_mono_r; lia). lia.
Qed.

Lemma digits_mul_le (a b : Z) : 0 < a -> 0 < b -> digits (a * b) <= digits a + digits b.
Proof.
  intros Ha Hb.
  destruct (digits_spec a Ha) as [_ H1]. destruct (digits_spec b Hb) as [_ H2].
  pose proof (digits_pos a Ha). pose proof (digits_pos b Hb).
  apply digits_le_of_lt; [|lia].
  rewrite Z.pow_add_r by lia. nia.
Qed.

(** The magnitude of a number whose value is at most [2^(B - 1074)]. *)
Lemma sval_bound_mag (m : positive) (e B : Z) :
  -1074 <= e -> Zpos m * 2 ^ (e + 1074) <= 2 ^ B -> 0 <= B ->
  digits (Zpos m) + e <= B - 1073 /\ e <= B - 1074.
Proof.
  intros He Hv HB.
  destruct (digits_spec (Zpos m) ltac:(lia)) as [Hl _].
  pose proof (digits_pos (Zpos m) ltac:(lia)) as Hd.
  assert (Hp : 0 < 2 ^ (e + 1074)) by (apply Z.pow_pos_nonneg; lia).
  assert (H1 : 2 ^ (digits (Zpos m) - 1 + (e + 1074)) <= 2 ^ B).
  { rewrite Z.pow_add_r by lia. nia. }
  apply Z.pow_le_mono_r_iff in H1; lia.
Qed.

Lemma rnd_0 (j : Z) : 0 <= j -> rnd j 0 = 0.
Proof.
  intros Hj. unfold rnd. cbn [digits Zdigits2].
  replace 0 with (0 * 2 ^ Z.max (0 - 53) j) at 1 by lia.
  rewrite rne_exact by lia. lia.
Qed.

(** A valid number is its own rounding. *)
Lemma rnd_sval (j : Z) (x : spec_float) :
  0 <= j -> okv x -> rnd j (sval j x) = sval j x.
Proof.
  intros Hj [Vx Ox].
  destruct x as [| | |[] m e]; cbn [okf sval] in *; try contradiction;
    try (apply rnd_0; exact Hj).
  destruct (valid_finite _ _ _ Vx) as (D & E & _).
  apply rnd_exact; lia.
Qed.

(** Multiplication rounds the exact product. *)
Lemma SFmul_val (x y : spec_float) :
  okv x -> okv y -> sval 0 x <= 2 ^ 1084 -> sval 0 y <= 2 ^ 1084 ->
  okf (SF64mul x y)
  /\ sval 1074 (SF64mul x y) = rnd 1074 (sval 0 x * sval 0 y).
Proof.
  intros [Vx Ox] [Vy Oy] Bx By.
  destruct x as [sx| | |[] mx ex], y as [sy| | |[] my ey]; cbn [okf] in *;
    try contradiction; unfold SF64mul; cbn [SFmul sval xorb];
    rewrite ?Z.mul_0_l, ?Z.mul_0_r, ?rnd_0 by lia; try (split; [exact I|reflexivity]).
  cbn [sval] in Bx, By. rewrite Z.add_0_r in Bx, By.
  destruct (sval_bound_mag mx ex 1084 Ox Bx ltac:(lia)) as [Mx Ex].
  destruct (sval_bound_mag my ey 1084 Oy By ltac:(lia)) as [My Ey].
  pose proof (digits_mul_le (Zpos mx) (Zpos my) ltac:(lia) ltac:(lia)) as Hd.
  destruct (BRA_exact (mx * my) (ex + ey) 1074 ltac:(lia) ltac:(lia)
              ltac:(rewrite Pos2Z.inj_mul; lia) ltac:(lia)) as [H1 H2].
  split; [exact H1|]. rewrite H2. f_equal.
  rewrite Pos2Z.inj_mul, !Z.add_0_r.
  replace (ex + ey + 1074 + 1074) with ((ex + 1074) + (ey + 1074)) by lia.
  rewrite Z.pow_add_r by lia. ring.
Qed.

Lemma pos_iter_xO (m d : positive) : Zpos (Pos.iter xO m d) = Zpos m * 2 ^ Zpos d.
Proof.
  induction d as [|d IH] using Pos.peano_ind.
  - cbn [Pos.iter]. rewrite Pos2Z.inj_xO. change (2 ^ 1) with 2. ring.
  - rewrite Pos.iter_succ, Pos2Z.inj_xO, IH, Pos2Z.inj_succ, Z.pow_succ_r by lia. ring.
Qed.

(** Aligning a mantissa to a smaller exponent keeps the value. *)
Lemma shl_align_val (m : positive) (e e' : Z) :
  snd (shl_align m e e') = Z.min e e'
  /\ Zpos (fst (shl_align m e e')) = Zpos m * 2 ^ (e - Z.min e e').
Proof.
  unfold shl_align. destruct (e' - e) as [|p|p] eqn:H; cbn [fst snd].
  - replace (Z.min e e') with e by lia. rewrite Z.sub_diag. split; [reflexivity|]. cbn. lia.
  - replace (Z.min e e') with e by lia. rewrite Z.sub_diag. split; [reflexivity|]. cbn. lia.
  - replace (Z.min e e') with e' by lia. split; [reflexivity|].
    rewrite pos_iter_xO. do 2 f_equal. lia.
Qed.

(** Addition rounds the exact sum. *)
Lemma SFadd_val (x y : spec_float) :
  okv x -> okv y -> sval 0 x <= 2 ^ 1084 -> sval 0 y <= 2 ^ 1084 ->
  okf (SF64add x y)
  /\ sval 0 (SF64add x y) = rnd 0 (sval 0 x + sval 0 y).
Proof.
  intros [Vx Ox] [Vy Oy] Bx By.
  destruct x as [sx| | |[] mx ex], y as [sy| | |[] my ey]; cbn [okf] in *;
    try contradiction; unfold SF64add; cbn [SFadd].
  - split; [destruct sx, sy; exact I|].
    replace (sval 0 (S754_zero sx) + sval 0 (S754_zero sy)) with 0 by reflexivity.
    rewrite rnd_0 by lia. destruct sx, sy; reflexivity.
  - split; [exact Oy|].
    change (sval 0 (S754_zero sx)) with 0. rewrite Z.add_0_l.
    symmetry. apply rnd_sval; [lia | split; assumption].
  - split; [exact Ox|].
    change (sval 0 (S754_zero sy)) with 0. rewrite Z.add_0_r.
    symmetry. apply rnd_sval; [lia | split; assumption].
  - cbn [cond_Zopp].
    set (ez := Z.min ex ey).
    destruct (shl_align_val mx ex ez) as [_ Hx].
    destruct (shl_align_val my ey ez) as [_ Hy].
    replace (Z.min ex ez) with ez in Hx by lia.
    replace (Z.min ey ez) with ez in Hy by lia.
    set (a := fst (shl_align mx ex ez)) in *. set (b := fst (shl_align my ey ez)) in *.
    change (Zpos a + Zpos b) with (Zpos (a + b)). cbn [binary_normalize].
    unfold binary_round.
    set (E0 := fexp prec emax (Zpos (digits2_pos (a + b)) + ez)).
    destruct (shl_align_val (a + b) ez E0) as [Hs Hm].
    destruct (shl_align (a + b) ez E0) as [mz ez']. cbn [fst snd] in Hs, Hm.
    assert (HE0 : -1074 <= E0) by (unfold E0; rewrite fexp_eq; lia).
    assert (Hsum : Zpos (a + b) * 2 ^ (ez + 1074) = sval 0 (S754_finite false mx ex)
                                                   + sval 0 (S754_finite false my ey)).
    { cbn [sval]. rewrite Pos2Z.inj_add, Hx, Hy, !Z.add_0_r.
      rewrite Z.mul_add_distr_r, <- !Z.mul_assoc, <- !Z.pow_add_r by lia.
      do 2 f_equal; f_equal; lia. }
    assert (Hb : Zpos (a + b) * 2 ^ (ez + 1074) <= 2 ^ 1085).
    { rewrite Hsum. change (2 ^ 1085) with (2 ^ 1084 + 2 ^ 1084). lia. }
    destruct (sval_bound_mag (a + b) ez 1085 ltac:(lia) Hb ltac:(lia)) as [Mz Ez].
    assert (Hval : Zpos mz * 2 ^ (ez' + 1074 + 0) = Zpos (a + b) * 2 ^ (ez + 1074)).
    { rewrite Hm, Z.add_0_r, <- Z.mul_assoc, <- Z.pow_add_r by lia.
      do 2 f_equal. lia. }
    assert (Hdz : digits (Zpos mz) + ez' = digits (Zpos (a + b)) + ez).
    { rewrite Hm, digits_shift by lia. lia. }
    destruct (BRA_exact mz ez' 0 ltac:(lia) ltac:(lia) ltac:(lia) ltac:(lia)) as [H1 H2].
    split; [exact H1|]. rewrite H2, Hval, Hsum. reflexivity.
Qed.

(** Division rounds the exact quotient to a neighbour: it stays on the
    same side of every integer [K] that the quotient is on. *)
Lemma SFdiv_bracket (x y : spec_float) (K : Z) :
  okv x -> okv y -> sval 0 x <= 2 ^ 1084 -> 2 ^ 1064 <= sval 0 y -> 1 <= K ->
  okf (SF64div x y)
  /\ (K * sval 0 y <= sval 0 x -> K * 2 ^ 1074 <= sval 0 (SF64div x y))
  /\ (sval 0 x < K * sval 0 y -> sval 0 (SF64div x y) <= K * 2 ^ 1074).
Proof.
  intros [Vx Ox] [Vy Oy] Bx By HK.
  destruct y as [sy| | |[] my ey]; cbn [okf] in Oy; try contradiction;
    try (cbn [sval] in By; lia).
  destruct x as [sx| | |[] mx ex]; cbn [okf] in Ox; try contradiction.
  { unfold SF64div. cbn [SFdiv xorb sval] in *.
    split; [exact I|]. split; lia. }
  cbn [sval] in Bx, By |- *. rewrite !Z.add_0_r in *.
  destruct (valid_finite _ _ _ Vx) as (Dx & Ex & _).
  destruct (valid_finite _ _ _ Vy) as (Dy & Ey & _).
  destruct (sval_bound_mag mx ex 1084 Ox Bx ltac:(lia)) as [Mx Ex'].
  set (d1 := digits (Zpos mx)) in *. set (d2 := digits (Zpos my)) in *.
  destruct (digits_spec (Zpos mx) ltac:(lia)) as [L1 H1]. fold d1 in L1, H1.
  destruct (digits_spec (Zpos my) ltac:(lia)) as [L2 H2]. fold d2 in L2, H2.
  assert (Hd1 : 0 < d1) by (apply digits_pos; lia).
  assert (Hd2 : 0 < d2) by (apply digits_pos; lia).
  assert (My : -9 <= d2 + ey).
  { assert (Hp : 0 < 2 ^ (ey + 1074)) by (apply Z.pow_pos_nonneg; lia).
    assert (2 ^ 1064 < 2 ^ (d2 + (ey + 1074))) by (rewrite Z.pow_add_r by lia; nia).
    apply Z.pow_lt_mono_r_iff in H; lia. }
  unfold SF64div. cbn [SFdiv xorb]. unfold SFdiv_core_binary.
  change (Zdigits2 (Zpos mx)) with d1. change (Zdigits2 (Zpos my)) with d2.
  rewrite fexp_eq.
  set (e' := Z.min (Z.max (d1 + ex - (d2 + ey) - 53) (-1074)) (ex - ey)).
  set (s := ex - ey - e').
  assert (Hs : 0 <= s) by (unfold s, e'; lia).
  set (m' := match s with Zpos _ => Z.shiftl (Zpos mx) s | Z0 => Zpos mx | Zneg _ => 0 end).
  assert (Hm' : m' = Zpos mx * 2 ^ s).
  { unfold m'. destruct s as [|p|p] eqn:Es; [cbn; lia| |lia].
    apply Z.shiftl_mul_pow2. lia. }
  pose proof (Z.pow_pos_nonneg 2 s ltac:(lia) Hs) as Hps.
  assert (Hq : fst (Z.div_eucl m' (Zpos my)) = m' / Zpos my) by reflexivity.
  destruct (Z.div_eucl m' (Zpos my)) as [q r]. cbn [fst] in Hq.
  assert (Hq0 : 0 <= q) by (subst q; apply Z.div_pos; lia).
  assert (Hqm : q * Zpos my <= m') by (subst q; rewrite Z.mul_comm; apply Z.mul_div_le; lia).
  assert (Hqd : digits q <= Z.max (d1 + s - d2 + 1) 0).
  { assert (Hm'lt : m' < 2 ^ (d1 + s)) by (rewrite Hm', Z.pow_add_r by lia; nia).
    pose proof (Z.pow_pos_nonneg 2 (d2 - 1) ltac:(lia) ltac:(lia)) as Hpd.
    destruct (Z_lt_le_dec (d1 + s - d2 + 1) 0) as [Hneg|Hpos].
    - assert (2 ^ (d1 + s) <= 2 ^ (d2 - 1)) by (apply Z.pow_le_mono_r; lia).
      assert (q = 0) by nia. subst q. rewrite H0. cbn. lia.
    - apply digits_le_of_lt; [|lia]. split; [exact Hq0|].
      replace (Z.max (d1 + s - d2 + 1) 0) with (d1 + s - d2 + 1) by lia.
      assert (Hpp : 2 ^ (d1 + s) = 2 ^ (d1 + s - d2 + 1) * 2 ^ (d2 - 1))
        by (rewrite <- Z.pow_add_r by lia; f_equal; lia).
      nia. }
  destruct (BRA_general q e' 1074 (new_location (Zpos my) r) Hq0 ltac:(lia)
              ltac:(unfold e'; lia) ltac:(unfold s, e' in *; lia)
              ltac:(unfold e'; lia)) as (Hok & Hval & _ & Hqh).
  rewrite fexp_eq in Hval, Hqh.
  set (n := Z.max (Z.max (digits q + e' - 53) (-1074) - e') 0) in *.
  set (qh := round_nearest_even _ _) in *.
  set (res := binary_round_aux prec emax false q e' (new_location (Zpos my) r)) in *.
  split; [exact Hok|].
  rewrite (sval_shift 1074 res ltac:(lia) Hok) in Hval.
  assert (HEe : e' + n <= 0) by (unfold n, e', s in *; lia).
  assert (Hn : 0 <= n) by (unfold n; lia).
  assert (He'0 : e' <= 0) by lia.
  pose proof (Z.pow_pos_nonneg 2 n ltac:(lia) Hn) as Hpn.
  pose proof (Z.pow_pos_nonneg 2 (- (e' + n)) ltac:(lia) ltac:(lia)) as HpE.
  pose proof (Z.pow_pos_nonneg 2 (- e') ltac:(lia) ltac:(lia)) as Hpe.
  pose proof (Z.pow_pos_nonneg 2 (ey + 1074) ltac:(lia) ltac:(lia)) as Hpy.
  assert (Hsplit : 2 ^ (- e') = 2 ^ (- (e' + n)) * 2 ^ n)
    by (rewrite <- Z.pow_add_r by lia; f_equal; lia).
  assert (H2148 : 2 ^ 1074 * 2 ^ 1074 = 2 ^ (- (e' + n)) * 2 ^ (e' + n + 1074 + 1074))
    by (rewrite <- !Z.pow_add_r by lia; f_equal; lia).
  assert (Hxs' : Zpos mx * 2 ^ (ex + 1074) * 2 ^ (- e') = m' * 2 ^ (ey + 1074)).
  { rewrite Hm', <- !Z.mul_assoc, <- !Z.pow_add_r by lia. do 2 f_equal. unfold s. lia. }
  set (P := 2 ^ (e' + n + 1074 + 1074)) in *.
  assert (HP : 0 < P) by (apply Z.pow_pos_nonneg; lia).
  split.
  - intros Hle.
    assert (Hkq : K * 2 ^ (- e') <= q).
    { subst q. apply Z.div_le_lower_bound; [lia|].
      apply Z.mul_le_mono_pos_r with (p := 2 ^ (ey + 1074)); [lia|].
      rewrite <- Hxs'.
      replace (Zpos my * (K * 2 ^ (- e')) * 2 ^ (ey + 1074))
        with (K * (Zpos my * 2 ^ (ey + 1074)) * 2 ^ (- e')) by ring.
      apply Z.mul_le_mono_nonneg_r; [apply Z.lt_le_incl; exact Hpe | exact Hle]. }
    assert (Hkq' : K * 2 ^ (- (e' + n)) <= q / 2 ^ n).
    { apply Z.div_le_lower_bound; [lia|]. rewrite Hsplit in Hkq. lia. }
    assert (Hkh : K * 2 ^ (- (e' + n)) <= qh) by lia.
    apply Z.mul_le_mono_pos_r with (p := 2 ^ 1074); [lia|].
    rewrite Hval, <- Z.mul_assoc, H2148, Z.mul_assoc.
    apply Z.mul_le_mono_nonneg_r; [apply Z.lt_le_incl; exact HP | exact Hkh].
  - intros Hlt.
    assert (Hkq : q < K * 2 ^ (- e')).
    { subst q. apply Z.div_lt_upper_bound; [lia|].
      apply Z.mul_lt_mono_pos_r with (p := 2 ^ (ey + 1074)); [lia|].
      rewrite <- Hxs'.
      replace (Zpos my * (K * 2 ^ (- e')) * 2 ^ (ey + 1074))
        with (K * (Zpos my * 2 ^ (ey + 1074)) * 2 ^ (- e')) by ring.
      apply Z.mul_lt_mono_pos_r; [exact Hpe | exact Hlt]. }
    assert (Hkq' : q / 2 ^ n < K * 2 ^ (- (e' + n))).
    { apply Z.div_lt_upper_bound; [lia|]. rewrite Hsplit in Hkq. lia. }
    assert (Hkh : qh <= K * 2 ^ (- (e' + n))) by lia.
    apply Z.mul_le_mono_pos_r with (p := 2 ^ 1074); [lia|].
    rewrite Hval, <- Z.mul_assoc, H2148, Z.mul_assoc.
    apply Z.mul_le_mono_nonneg_r; [apply Z.lt_le_incl; exact HP | exact Hkh].
Qed.

(** An exact integer quotient is returned as such. *)
Lemma SFdiv_exact (x y : spec_float) (K : Z) :
  okv x -> okv y -> sval 0 x <= 2 ^ 1084 -> 2 ^ 1064 <= sval 0 y ->
  1 <= K < 2 ^ 53 -> sval 0 x = K * sval 0 y ->
  okf (SF64div x y) /\ sval 0 (SF64div x y) = K * 2 ^ 1074.
Proof.
  intros [Vx Ox] [Vy Oy] Bx By HK Heq.
  destruct y as [sy| | |[] my ey]; cbn [okf] in Oy; try contradiction;
    try (cbn [sval] in By; lia).
  destruct x as [sx| | |[] mx ex]; cbn [okf] in Ox; try contradiction.
  { cbn [sval] in Heq, By. lia. }
  cbn [sval] in Bx, By, Heq |- *. rewrite !Z.add_0_r in *.
  destruct (valid_finite _ _ _ Vx) as (Dx & Ex & _).
  destruct (valid_finite _ _ _ Vy) as (Dy & Ey & _).
  destruct (sval_bound_mag mx ex 1084 Ox Bx ltac:(lia)) as [Mx Ex'].
  set (d1 := digits (Zpos mx)) in *. set (d2 := digits (Zpos my)) in *.
  destruct (digits_spec (Zpos my) ltac:(lia)) as [L2 H2]. fold d2 in L2, H2.
  assert (Hd1 : 0 < d1) by (apply digits_pos; lia).
  assert (Hd2 : 0 < d2) by (apply digits_pos; lia).
  assert (My : -9 <= d2 + ey).
  { assert (Hp : 0 < 2 ^ (ey + 1074)) by (apply Z.pow_pos_nonneg; lia).
    assert (2 ^ 1064 < 2 ^ (d2 + (ey + 1074))) by (rewrite Z.pow_add_r by lia; nia).
    apply Z.pow_lt_mono_r_iff in H; lia. }
  unfold SF64div. cbn [SFdiv xorb]. unfold SFdiv_core_binary.
  change (Zdigits2 (Zpos mx)) with d1. change (Zdigits2 (Zpos my)) with d2.
  rewrite fexp_eq.
  set (e' := Z.min (Z.max (d1 + ex - (d2 + ey) - 53) (-1074)) (ex - ey)).
  set (s := ex - ey - e').
  assert (Hs : 0 <= s) by (unfold s, e'; lia).
  assert (He'0 : e' <= 0) by (unfold e'; lia).
  set (m' := match s with Zpos _ => Z.shiftl (Zpos mx) s | Z0 => Zpos mx | Zneg _ => 0 end).
  assert (Hm' : m' = Zpos mx * 2 ^ s).
  { unfold m'. destruct s as [|p|p] eqn:Es; [cbn; lia| |lia].
    apply Z.shiftl_mul_pow2. lia. }
  pose proof (Z.pow_pos_nonneg 2 (- e') ltac:(lia) ltac:(lia)) as Hpe.
  pose proof (Z.pow_pos_nonneg 2 (ey + 1074) ltac:(lia) ltac:(lia)) as Hpy.
  assert (Hmq : m' = K * 2 ^ (- e') * Zpos my).
  { apply Z.mul_reg_r with (p := 2 ^ (ey + 1074)); [lia|].
    rewrite Hm', <- !Z.mul_assoc, <- Z.pow_add_r by lia.
    replace (s + (ey + 1074)) with ((ex + 1074) + - e') by (unfold s; lia).
    rewrite Z.pow_add_r, Z.mul_assoc, Heq by lia. ring. }
  assert (Hdiv : Z.div_eucl m' (Zpos my) = (K * 2 ^ (- e'), 0)).
  { assert (Hd : m' / Zpos my = K * 2 ^ (- e')) by (rewrite Hmq; apply Z.div_mul; lia).
    assert (Hr : m' mod Zpos my = 0) by (rewrite Hmq; apply Z.mod_mul; lia).
    unfold Z.div, Z.modulo in Hd, Hr.
    destruct (Z.div_eucl m' (Zpos my)) as [q r]. cbn [fst snd] in Hd, Hr. congruence. }
  rewrite Hdiv.
  assert (Hloc : new_location (Zpos my) 0 = loc_Exact).
  { unfold new_location, new_location_even, new_location_odd.
    destruct (Z.even (Zpos my)); reflexivity. }
  rewrite Hloc.
  set (q := K * 2 ^ (- e')).
  assert (Hq0 : 0 < q) by (unfold q; nia).
  destruct q as [|mq|mq] eqn:Eq; try lia.
  assert (Hdq : digits (Zpos mq) <= 53 + - e').
  { rewrite <- Eq. unfold q. rewrite digits_shift by lia.
    pose proof (digits_le_of_lt K 53 ltac:(lia) ltac:(lia)). lia. }
  destruct (BRA_exact mq e' 1074 ltac:(lia) ltac:(unfold e'; lia) ltac:(lia) ltac:(lia))
    as [Hok Hval].
  split; [exact Hok|].
  rewrite (sval_shift 1074 _ ltac:(lia) Hok) in Hval.
  apply Z.mul_reg_r with (p := 2 ^ 1074); [lia|].
  rewrite Hval, <- Eq. unfold q.
  rewrite <- Z.mul_assoc, <- Z.pow_add_r by (unfold e'; lia).
  replace (- e' + (e' + 1074 + 1074)) with 2148 by lia.
  rewrite rnd_exact by (try apply digits_le_of_lt; lia).
  change (2 ^ 2148) with (2 ^ 1074 * 2 ^ 1074). ring.
Qed.

(** Numbers that compare equal are the same number, or both zero. *)
Lemma SFcompare_Eq (x y : spec_float) :
  SFcompare x y = Some Eq ->
  x = y \/ (exists sx sy, x = S754_zero sx /\ y = S754_zero sy).
Proof.
  destruct x as [sx|sx| |sx mx ex], y as [sy|sy| |sy my ey]; cbn [SFcompare];
    intros H; try discriminate H;
    try (right; eexists; eexists; split; reflexivity);
    repeat match goal with b : bool |- _ => destruct b end;
    try discriminate H; try (left; reflexivity);
    left;
    (destruct (Z.compare_spec ex ey) as [->|L|L]; try discriminate H);
    injection H as H;
    (assert (Hm : Pos.compare mx my = Eq)
       by (change (Pos.compare mx my) with (PosDef.Pos.compare_cont Eq mx my);
           destruct (PosDef.Pos.compare_cont Eq mx my); try discriminate H; reflexivity));
    apply Pos.compare_eq in Hm; subst; reflexivity.
Qed.

Lemma SFcompare_antisym (x y : spec_float) :
  SFcompare y x = option_map CompOpp (SFcompare x y).
Proof.
  destruct x as [sx|sx| |sx mx ex], y as [sy|sy| |sy my ey]; cbn [SFcompare option_map];
    try reflexivity;
    try (destruct sx; reflexivity); try (destruct sy; reflexivity);
    try (destruct sx, sy; reflexivity).
  f_equal.
  pose proof (Z.compare_antisym ex ey) as Hz.
  pose proof (Pos.compare_antisym mx my) as Hp.
  unfold Pos.compare in Hp.
  destruct sx, sy; try reflexivity.
  - rewrite Hz. destruct (ex ?= ey); cbn [CompOpp]; try reflexivity.
    rewrite Hp. reflexivity.
  - rewrite Hz. destruct (ex ?= ey); cbn [CompOpp]; try reflexivity.
    exact Hp.
Qed.

(** ** Floats through their specification *)

Lemma fok_okv (x : float) : fok x -> okv (Prim2SF x).
Proof. intros H. split; [apply Prim2SF_valid | exact H]. Qed.

Lemma fval_nonneg (x : float) : 0 <= fval x.
Proof. apply sval_nonneg. Qed.

Lemma F_leb (x y : float) :
  fok x -> fok y -> (x <=? y)%float = (fval x <=? fval y).
Proof.
  intros Hx Hy. rewrite FloatAxioms.leb_spec. unfold SFleb.
  rewrite (SFcompare_sval _ _ (fok_okv x Hx) (fok_okv y Hy)).
  unfold fval, Z.leb. destruct (sval 0 (Prim2SF x) ?= sval 0 (Prim2SF y)); reflexivity.
Qed.

Lemma F_ltb (x y : float) :
  fok x -> fok y -> (x <? y)%float = (fval x <? fval y).
Proof.
  intros Hx Hy. rewrite FloatAxioms.ltb_spec. unfold SFltb.
  rewrite (SFcompare_sval _ _ (fok_okv x Hx) (fok_okv y Hy)).
  unfold fval, Z.ltb. destruct (sval 0 (Prim2SF x) ?= sval 0 (Prim2SF y)); reflexivity.
Qed.

(** A number between [0] and a non-negative bound is non-negative and
    finite. *)
Lemma F_between (a hi : float) :
  fok hi -> (0 <=? a)%float = true -> (a <=? hi)%float = true ->
  fok a /\ fval a <= fval hi.
Proof.
  intros Hhi H0 H1.
  assert (Ha : fok a).
  { rewrite FloatAxioms.leb_spec in H0, H1. unfold fok in *. unfold SFleb in H0, H1.
    pose proof (Prim2SF_valid a) as Va.
    change (Prim2SF 0) with (S754_zero false) in H0.
    destruct (Prim2SF a) as [s|s| |s m e]; cbn [SFcompare okf] in *.
    - exact I.
    - destruct s; [discriminate H0|].
      destruct (Prim2SF hi) as [| | |[] ? ?]; cbn [okf] in Hhi; try contradiction;
        discriminate H1.
    - discriminate H0.
    - destruct s; [discriminate H0|].
      destruct (valid_finite _ _ _ Va) as (_ & E & _). lia. }
  split; [exact Ha|]. rewrite F_leb in H1 by assumption. apply Z.leb_le. exact H1.
Qed.

Lemma F_add (x y : float) :
  fok x -> fok y -> fval x <= 2 ^ 1084 -> fval y <= 2 ^ 1084 ->
  fok (x + y) /\ fval (x + y) = rnd 0 (fval x + fval y).
Proof.
  intros Hx Hy Bx By. unfold fok, fval. rewrite FloatAxioms.add_spec.
  apply SFadd_val; try apply fok_okv; assumption.
Qed.

Lemma F_mul (x y : float) :
  fok x -> fok y -> fval x <= 2 ^ 1084 -> fval y <= 2 ^ 1084 ->
  fok (x * y) /\ fval (x * y) * 2 ^ 1074 = rnd 1074 (fval x * fval y).
Proof.
  intros Hx Hy Bx By. unfold fok, fval. rewrite FloatAxioms.mul_spec.
  destruct (SFmul_val _ _ (fok_okv x Hx) (fok_okv y Hy) Bx By) as [H1 H2].
  split; [exact H1|]. rewrite <- H2. symmetry. apply sval_shift; [lia | exact H1].
Qed.

Lemma F_div (x y : float) (K : Z) :
  fok x -> fok y -> fval x <= 2 ^ 1084 -> 2 ^ 1064 <= fval y -> 1 <= K ->
  fok (x / y)
  /\ (K * fval y <= fval x -> K * 2 ^ 1074 <= fval (x / y))
  /\ (fval x < K * fval y -> fval (x / y) <= K * 2 ^ 1074).
Proof.
  intros Hx Hy Bx By HK. unfold fok, fval. rewrite FloatAxioms.div_spec.
  apply SFdiv_bracket; try apply fok_okv; assumption.
Qed.

(** A literal is non-negative and finite: by evaluation. *)
Ltac fok_const :=
  unfold fok; vm_compute; first [exact I | let H := fresh in intros H; discriminate H].

(** Two non-negative numbers of the same non-zero value are the same
    number. *)
Lemma fval_inj (x y : float) :
  fok x -> fok y -> fval x = fval y -> 0 < fval x -> x = y.
Proof.
  intros Hx Hy Heq Hpos. apply Prim2SF_inj.
  pose proof (SFcompare_sval _ _ (fok_okv x Hx) (fok_okv y Hy)) as Hc.
  fold (fval x) (fval y) in Hc. rewrite Heq, Z.compare_refl in Hc.
  destruct (SFcompare_Eq _ _ Hc) as [H|(sx & sy & H1 & H2)]; [exact H|].
  unfold fval in Hpos. rewrite H1 in Hpos. cbn in Hpos. lia.
Qed.

Lemma F_div_self (x : float) :
  fok x -> 2 ^ 1064 <= fval x <= 2 ^ 1084 -> (x / x)%float = 1%float.
Proof.
  intros Hx [Lx Bx].
  assert (H : fok (x / x) /\ fval (x / x) = 1 * 2 ^ 1074).
  { unfold fok, fval. rewrite FloatAxioms.div_spec.
    apply SFdiv_exact; try apply fok_okv; try assumption; lia. }
  destruct H as [Hok Hv].
  apply fval_inj; [exact Hok | fok_const | rewrite Hv; reflexivity | rewrite Hv; lia].
Qed.
Lemma channel_ok_all (v : Z) : channel_range v -> channel_ok v = true.
Proof.
  intros Hv. apply (forallb_below channel_ok 256); [vm_compute; reflexivity|].
  unfold channel_range in Hv. lia.
Qed.

(** Evaluate a closed statement about literals. *)
Ltac by_eval :=
  vm_compute;
  first [ reflexivity | exact I | discriminate
        | let H := fresh in intros H; discriminate H ].

Lemma F_mul_mono (a a' c : float) :
  fok a -> fok a' -> fok c -> fval a <= fval a' ->
  fval a' <= 2 ^ 1084 -> fval c <= 2 ^ 1084 ->
  fok (a * c) /\ fval (a * c) <= fval (a' * c).
Proof.
  intros Ha Ha' Hc Hle Ba Bc.
  destruct (F_mul a c Ha Hc ltac:(lia) Bc) as [H1 H2].
  destruct (F_mul a' c Ha' Hc Ba Bc) as [_ H3].
  split; [exact H1|].
  apply Z.mul_le_mono_pos_r with (p := 2 ^ 1074); [lia|].
  rewrite H2, H3. apply rnd_mono; [lia|].
  pose proof (fval_nonneg a). pose proof (fval_nonneg c). split; nia.
Qed.

Lemma F_add_mono (x x' y y' : float) :
  fok x -> fok x' -> fok y -> fok y' ->
  fval x <= fval x' -> fval y <= fval y' ->
  fval x' <= 2 ^ 1084 -> fval y' <= 2 ^ 1084 ->
  fok (x + y) /\ fval (x + y) <= fval (x' + y').
Proof.
  intros Hx Hx' Hy Hy' Lx Ly Bx By.
  destruct (F_add x y Hx Hy ltac:(lia) ltac:(lia)) as [H1 H2].
  destruct (F_add x' y' Hx' Hy' Bx By) as [_ H3].
  split; [exact H1|].
  rewrite H2, H3. apply rnd_mono; [lia|].
  pose proof (fval_nonneg x). pose proof (fval_nonneg y). lia.
Qed.

(** ** The luminance of a colour is between 0 and 1 *)

Section LuminanceBounds.
Variable pow : float -> float -> float.
Hypothesis Hpow : pow_unit_interval pow.

Lemma linearize_unit (v : Z) :
  channel_range v ->
  (0 <=? linearize pow (Z2F v))%float = true
  /\ (linearize pow (Z2F v) <=? 1)%float = true.
Proof.
  intros Hv. pose proof (channel_ok_all v Hv) as Hok.
  unfold channel_ok in Hok. unfold linearize. cbv zeta in *.
  destruct (Z2F v / 255 <=? 0.03928)%float.
  - apply andb_prop in Hok. exact Hok.
  - apply andb_prop in Hok. destruct Hok as [H0 H1]. apply Hpow; assumption.
Qed.

(** The weighted sum of three linearized channels is a luminance: a
    number between 0 and 1. *)
Lemma weighted_sum_unit (a0 a1 a2 : float) :
  (0 <=? a0)%float = true -> (a0 <=? 1)%float = true ->
  (0 <=? a1)%float = true -> (a1 <=? 1)%float = true ->
  (0 <=? a2)%float = true -> (a2 <=? 1)%float = true ->
  fok (a0 * RED + a1 * GREEN + a2 * BLUE)
  /\ fval (a0 * RED + a1 * GREEN + a2 * BLUE) <= fval 1.
Proof.
  intros L0 U0 L1 U1 L2 U2.
  assert (F1 : fok 1) by fok_const.
  destruct (F_between a0 1 F1 L0 U0) as [K0 B0].
  destruct (F_between a1 1 F1 L1 U1) as [K1 B1].
  destruct (F_between a2 1 F1 L2 U2) as [K2 B2].
  assert (B1084 : fval 1 <= 2 ^ 1084) by by_eval.
  destruct (F_mul_mono a0 1 RED K0 F1 ltac:(fok_const) B0 B1084 ltac:(by_eval))
    as [T0 M0].
  destruct (F_mul_mono a1 1 GREEN K1 F1 ltac:(fok_const) B1 B1084 ltac:(by_eval))
    as [T1 M1].
  destruct (F_mul_mono a2 1 BLUE K2 F1 ltac:(fok_const) B2 B1084 ltac:(by_eval))
    as [T2 M2].
  destruct (F_add_mono (a0 * RED) (1 * RED) (a1 * GREEN) (1 * GREEN)
              T0 ltac:(fok_const) T1 ltac:(fok_const) M0 M1
              ltac:(by_eval) ltac:(by_eval)) as [S1 N1].
  destruct (F_add_mono (a0 * RED + a1 * GREEN) (1 * RED + 1 * GREEN)
              (a2 * BLUE) (1 * BLUE)
              S1 ltac:(fok_const) T2 ltac:(fok_const) N1 M2
              ltac:(by_eval) ltac:(by_eval)) as [S2 N2].
  split; [exact S2|].
  replace (fval 1) with (fval (1 * RED + 1 * GREEN + 1 * BLUE)) by by_eval.
  exact N2.
Qed.

Lemma luminance_unit (r g b : Z) :
  channel_range r -> channel_range g -> channel_range b ->
  fok (luminance pow (Z2F r) (Z2F g) (Z2F b))
  /\ fval (luminance pow (Z2F r) (Z2F g) (Z2F b)) <= fval 1.
Proof.
  intros Hr Hg Hb. unfold luminance. cbv zeta. cbn [map nth].
  destruct (linearize_unit r Hr), (linearize_unit g Hg), (linearize_unit b Hb).
  apply weighted_sum_unit; assumption.
Qed.
End LuminanceBounds.

(** ** [Math.max] and [Math.min] *)

Lemma is_nan_spec (x : float) :
  is_nan x = match Prim2SF x with S754_nan => true | _ => false end.
Proof.
  unfold is_nan. rewrite FloatAxioms.eqb_spec. unfold SFeqb.
  destruct (Prim2SF x) as [s|s| |s m e]; cbn [SFcompare]; try reflexivity.
  - destruct s; reflexivity.
  - replace (Z.compare e e) with Eq by (symmetry; apply Z.compare_refl).
    replace (PosDef.Pos.compare_cont Eq m m) with Eq
      by (symmetry; exact (Pos.compare_refl m)).
    destruct s; reflexivity.
Qed.

Lemma is_pos_zero_spec (x : float) :
  is_pos_zero x = match Prim2SF x with S754_zero false => true | _ => false end.
Proof.
  unfold is_pos_zero. rewrite FloatAxioms.classify_spec. unfold SF64classify.
  destruct (Prim2SF x) as [[]|[]| |[] m e]; cbn [SFclassify]; try reflexivity;
    destruct (Z.eqb _ _); reflexivity.
Qed.

Lemma is_neg_zero_spec (x : float) :
  is_neg_zero x = match Prim2SF x with S754_zero true => true | _ => false end.
Proof.
  unfold is_neg_zero. rewrite FloatAxioms.classify_spec. unfold SF64classify.
  destruct (Prim2SF x) as [[]|[]| |[] m e]; cbn [SFclassify]; try reflexivity;
    destruct (Z.eqb _ _); reflexivity.
Qed.

Lemma fok_not_nan (x : float) : fok x -> is_nan x = false.
Proof.
  unfold fok. rewrite is_nan_spec.
  destruct (Prim2SF x); cbn [okf]; try reflexivity. contradiction.
Qed.

(** The first step of either loop returns the first argument. *)
Lemma max_step_first (x : float) : is_nan x = false -> max_step neg_infinity x = x.
Proof.
  rewrite is_nan_spec. intros Hn. unfold max_step.
  replace (is_neg_zero neg_infinity) with false by by_eval.
  rewrite andb_false_r, FloatAxioms.ltb_spec. unfold SFltb.
  change (Prim2SF neg_infinity) with (S754_infinity true).
  destruct (Prim2SF x) as [s|s| |s m e] eqn:E; cbn [SFcompare]; try reflexivity;
    try discriminate Hn.
  destruct s; [|reflexivity].
  apply Prim2SF_inj. rewrite E. reflexivity.
Qed.

Lemma min_step_first (x : float) : is_nan x = false -> min_step infinity x = x.
Proof.
  rewrite is_nan_spec. intros Hn. unfold min_step.
  replace (is_pos_zero infinity) with false by by_eval.
  rewrite andb_false_r, FloatAxioms.ltb_spec. unfold SFltb.
  change (Prim2SF infinity) with (S754_infinity false).
  destruct (Prim2SF x) as [s|s| |s m e] eqn:E; cbn [SFcompare]; try reflexivity;
    try discriminate Hn.
  destruct s; [reflexivity|].
  apply Prim2SF_inj. rewrite E. reflexivity.
Qed.

(** Two numbers, neither of them [NaN], compare. *)
Lemma SFcompare_total (x y : float) :
  is_nan x = false -> is_nan y = false ->
  exists c, SFcompare (Prim2SF x) (Prim2SF y) = Some c.
Proof.
  rewrite !is_nan_spec. intros Hx Hy.
  destruct (Prim2SF x), (Prim2SF y); try discriminate; cbn [SFcompare]; eauto.
Qed.

Lemma zero_eq (x : float) (s : bool) :
  Prim2SF x = S754_zero s -> x = (if s then (-0)%float else 0%float).
Proof. intros H. apply Prim2SF_inj. rewrite H. destruct s; reflexivity. Qed.

Lemma max_step_comm (x y : float) :
  is_nan x = false -> is_nan y = false -> max_step x y = max_step y x.
Proof.
  intros Hx Hy.
  destruct (SFcompare_total x y Hx Hy) as [c Hc].
  pose proof (SFcompare_antisym (Prim2SF x) (Prim2SF y)) as Ha.
  rewrite Hc in Ha. cbn [option_map] in Ha.
  unfold max_step.
  rewrite !is_pos_zero_spec, !is_neg_zero_spec, !FloatAxioms.ltb_spec. unfold SFltb.
  rewrite Hc, Ha.
  destruct c; cbn [CompOpp].
  - destruct (SFcompare_Eq _ _ Hc) as [E|(sx & sy & Ex & Ey)].
    + apply Prim2SF_inj in E. subst y.
      destruct (Prim2SF x) as [[]| | |]; reflexivity.
    + rewrite Ex, Ey. apply zero_eq in Ex, Ey. subst x y.
      destruct sx, sy; reflexivity.
  - destruct (Prim2SF x) as [[]| | |], (Prim2SF y) as [[]| | |];
      cbn [andb]; try reflexivity; cbn [SFcompare] in Hc; discriminate Hc.
  - destruct (Prim2SF x) as [[]| | |], (Prim2SF y) as [[]| | |];
      cbn [andb]; try reflexivity; cbn [SFcompare] in Hc; discriminate Hc.
Qed.

Lemma min_step_comm (x y : float) :
  is_nan x = false -> is_nan y = false -> min_step x y = min_step y x.
Proof.
  intros Hx Hy.
  destruct (SFcompare_total x y Hx Hy) as [c Hc].
  pose proof (SFcompare_antisym (Prim2SF x) (Prim2SF y)) as Ha.
  rewrite Hc in Ha. cbn [option_map] in Ha.
  unfold min_step.
  rewrite !is_pos_zero_spec, !is_neg_zero_spec, !FloatAxioms.ltb_spec. unfold SFltb.
  rewrite Hc, Ha.
  destruct c; cbn [CompOpp].
  - destruct (SFcompare_Eq _ _ Hc) as [E|(sx & sy & Ex & Ey)].
    + apply Prim2SF_inj in E. subst y.
      destruct (Prim2SF x) as [[]| | |]; reflexivity.
    + rewrite Ex, Ey. apply zero_eq in Ex, Ey. subst x y.
      destruct sx, sy; reflexivity.
  - destruct (Prim2SF x) as [[]| | |], (Prim2SF y) as [[]| | |];
      cbn [andb]; try reflexivity; cbn [SFcompare] in Hc; discriminate Hc.
  - destruct (Prim2SF x) as [[]| | |], (Prim2SF y) as [[]| | |];
      cbn [andb]; try reflexivity; cbn [SFcompare] in Hc; discriminate Hc.
Qed.

Lemma Math_max_comm (x y : float) : Math_max x y = Math_max y x.
Proof.
  unfold Math_max. rewrite (orb_comm (is_nan y)).
  destruct (is_nan x) eqn:Hx, (is_nan y) eqn:Hy; cbn [orb]; try reflexivity.
  rewrite !max_step_first by assumption. apply max_step_comm; assumption.
Qed.

Lemma Math_min_comm (x y : float) : Math_min x y = Math_min y x.
Proof.
  unfold Math_min. rewrite (orb_comm (is_nan y)).
  destruct (is_nan x) eqn:Hx, (is_nan y) eqn:Hy; cbn [orb]; try reflexivity.
  rewrite !min_step_first by assumption. apply min_step_comm; assumption.
Qed.

Lemma Math_max_self (x : float) : is_nan x = false -> Math_max x x = x.
Proof.
  intros Hx. unfold Math_max. rewrite Hx. cbn [orb].
  rewrite max_step_first by assumption. unfold max_step.
  rewrite is_pos_zero_spec, is_neg_zero_spec.
  destruct (Prim2SF x) as [[]| | |]; cbn [andb]; destruct (x <? x)%float; reflexivity.
Qed.

Lemma Math_min_self (x : float) : is_nan x = false -> Math_min x x = x.
Proof.
  intros Hx. unfold Math_min. rewrite Hx. cbn [orb].
  rewrite min_step_first by assumption. unfold min_step.
  rewrite is_pos_zero_spec, is_neg_zero_spec.
  destruct (Prim2SF x) as [[]| | |]; cbn [andb]; destruct (x <? x)%float; reflexivity.
Qed.

(** On non-negative numbers [Math.max] and [Math.min] return one of the
    value of the larger, respectively the smaller. *)
Lemma Math_max_fok (x y : float) :
  fok x -> fok y ->
  fok (Math_max x y) /\ fval (Math_max x y) = Z.max (fval x) (fval y).
Proof.
  intros Hx Hy. unfold Math_max.
  rewrite (fok_not_nan x Hx), (fok_not_nan y Hy). cbn [orb].
  rewrite max_step_first by (apply fok_not_nan; assumption).
  unfold max_step. rewrite is_pos_zero_spec, is_neg_zero_spec.
  rewrite (F_ltb x y Hx Hy).
  destruct (Prim2SF y) as [[]| | |] eqn:Ey, (Prim2SF x) as [[]| | |] eqn:Ex;
    cbn [andb];
    try (destruct (Z.ltb_spec (fval x) (fval y)); split; try assumption; lia).
  split; [exact I|]. unfold fval. rewrite Ex, Ey. reflexivity.
Qed.

Lemma Math_min_fok (x y : float) :
  fok x -> fok y ->
  fok (Math_min x y) /\ fval (Math_min x y) = Z.min (fval x) (fval y).
Proof.
  intros Hx Hy. unfold Math_min.
  rewrite (fok_not_nan x Hx), (fok_not_nan y Hy). cbn [orb].
  rewrite min_step_first by (apply fok_not_nan; assumption).
  unfold min_step. rewrite is_pos_zero_spec, is_neg_zero_spec.
  rewrite (F_ltb y x Hy Hx).
  destruct (Prim2SF y) as [[]| | |] eqn:Ey, (Prim2SF x) as [[]| | |] eqn:Ex;
    cbn [andb];
    try (destruct (Z.ltb_spec (fval y) (fval x)); split; try assumption; lia).
  split; [exact I|]. unfold fval. rewrite Ex, Ey. reflexivity.
Qed.

(** ** The ratio *)

Section RatioBounds.
Variable pow : float -> float -> float.
Hypothesis Hpow : pow_unit_interval pow.

(** Numerator and denominator of the ratio: between 0.05 and 1.05. *)
Lemma plus_005 (l : float) :
  fok l -> fval l <= fval 1 ->
  fok (l + 0.05) /\ fval 0.05 <= fval (l + 0.05) <= fval (1 + 0.05).
Proof.
  intros Hl Bl.
  assert (F0 : fok 0) by fok_const. assert (F1 : fok 1) by fok_const.
  assert (F5 : fok 0.05) by fok_const.
  destruct (F_add_mono l 1 0.05 0.05 Hl F1 F5 F5 Bl ltac:(lia)
              ltac:(by_eval) ltac:(by_eval)) as [H1 H2].
  destruct (F_add_mono 0 l 0.05 0.05 F0 Hl F5 F5 (fval_nonneg l) ltac:(lia)
              ltac:(assert (fval 1 <= 2 ^ 1084) by by_eval; lia) ltac:(by_eval))
    as [_ H3].
  replace (fval (0 + 0.05)) with (fval 0.05) in H3 by by_eval.
  split; [exact H1|]. split; assumption.
Qed.

Lemma contrast_bounds (r1 g1 b1 r2 g2 b2 : Z) :
  channel_range r1 -> channel_range g1 -> channel_range b1 ->
  channel_range r2 -> channel_range g2 -> channel_range b2 ->
  (1 <=? contrast pow (rgb r1 g1 b1) (rgb r2 g2 b2))%float = true
  /\ (contrast pow (rgb r1 g1 b1) (rgb r2 g2 b2) <=? 21)%float = true.
Proof.
  intros R1 G1 B1 R2 G2 B2.
  unfold contrast, rgb. cbv zeta. cbn [nth].
  destruct (luminance_unit pow Hpow r1 g1 b1 R1 G1 B1) as [K1 U1].
  destruct (luminance_unit pow Hpow r2 g2 b2 R2 G2 B2) as [K2 U2].
  set (lum1 := luminance pow (Z2F r1) (Z2F g1) (Z2F b1)) in *.
  set (lum2 := luminance pow (Z2F r2) (Z2F g2) (Z2F b2)) in *.
  destruct (Math_max_fok lum1 lum2 K1 K2) as [Kh Vh].
  destruct (Math_min_fok lum1 lum2 K1 K2) as [Kl Vl].
  set (hi := Math_max lum1 lum2) in *. set (lo := Math_min lum1 lum2) in *.
  destruct (plus_005 hi Kh ltac:(lia)) as (KN & LN & UN).
  destruct (plus_005 lo Kl ltac:(lia)) as (KD & LD & UD).
  assert (F5 : fok 0.05) by fok_const.
  assert (Bone : fval 1 <= 2 ^ 1084) by by_eval.
  destruct (F_add_mono lo hi 0.05 0.05 Kl Kh F5 F5 ltac:(lia) ltac:(lia)
              ltac:(lia) ltac:(by_eval)) as [_ HDN].
  assert (C1 : fval (1 + 0.05) <= 2 ^ 1084) by by_eval.
  assert (C2 : 2 ^ 1064 <= fval 0.05) by by_eval.
  assert (C3 : fval (1 + 0.05) < 21 * fval 0.05) by by_eval.
  destruct (F_div (hi + 0.05) (lo + 0.05) 1 KN KD ltac:(lia) ltac:(lia) ltac:(lia))
    as (KQ & Lq & _).
  destruct (F_div (hi + 0.05) (lo + 0.05) 21 KN KD ltac:(lia) ltac:(lia) ltac:(lia))
    as (_ & _ & Uq).
  rewrite !F_leb by (assumption || fok_const).
  replace (fval 1) with (1 * 2 ^ 1074) by by_eval.
  replace (fval 21) with (21 * 2 ^ 1074) by by_eval.
  split; apply Z.leb_le; [apply Lq | apply Uq]; lia.
Qed.

Lemma contrast_self (r g b : Z) :
  channel_range r -> channel_range g -> channel_range b ->
  contrast pow (rgb r g b) (rgb r g b) = 1%float.
Proof.
  intros R G B. unfold contrast, rgb. cbv zeta. cbn [nth].
  destruct (luminance_unit pow Hpow r g b R G B) as [K U].
  set (l := luminance pow (Z2F r) (Z2F g) (Z2F b)) in *.
  rewrite Math_max_self, Math_min_self by (apply fok_not_nan; exact K).
  destruct (plus_005 l K U) as (KN & LN & UN).
  apply F_div_self; [exact KN|].
  assert (C1 : fval (1 + 0.05) <= 2 ^ 1084) by by_eval.
  assert (C2 : 2 ^ 1064 <= fval 0.05) by by_eval.
  lia.
Qed.
End RatioBounds.

Lemma contrast_comm (pow : float -> float -> float) (a b : list float) :
  contrast pow a b = contrast pow b a.
Proof.
  unfold contrast. cbv zeta.
  rewrite (Math_max_comm (luminance pow (nth 0 a nan) (nth 1 a nan) (nth 2 a nan))).
  rewrite (Math_min_comm (luminance pow (nth 0 a nan) (nth 1 a nan) (nth 2 a nan))).
  reflexivity.
Qed.

Lemma contrast_black_white (pow : float -> float -> float) :
  pow 1%float GAMMA = 1%float ->
  contrast pow (rgb 0 0 0) (rgb 255 255 255) = 21%float.
Proof.
  intros H1.
  unfold contrast, rgb, luminance, linearize. cbv zeta. cbn [map nth].
  change (Z2F 0 / 255)%float with 0%float.
  change (Z2F 255 / 255)%float with 1%float.
  change (0 <=? 0.03928)%float with true.
  change (1 <=? 0.03928)%float with false. cbv iota.
  change ((1 + 0.055) / 1.055)%float with 1%float.
  rewrite H1. vm_compute. reflexivity.
Qed.

(** A number that compares with 1 is not [NaN]: it equals itself. *)
Lemma F_eqb_refl (x : float) : (1 <=? x)%float = true -> (x =? x)%float = true.
Proof.
  intros H. rewrite FloatAxioms.leb_spec in H. rewrite FloatAxioms.eqb_spec.
  unfold SFleb in H. unfold SFeqb.
  change (Prim2SF 1) with (S754_finite false 4503599627370496 (-52)) in H.
  destruct (Prim2SF x) as [s|s| |s m e]; cbn [SFcompare] in *; try discriminate H.
  - destruct s; reflexivity.
  - replace (Z.compare e e) with Eq by (symmetry; apply Z.compare_refl).
    replace (PosDef.Pos.compare_cont Eq m m) with Eq
      by (symmetry; apply Pos.compare_cont_refl).
    destruct s; reflexivity.
Qed.

(** C2. With a [Math.pow] that keeps the unit interval and gives
    [Math.pow(1, 2.4) = 1], the contrast of any two colours whose channels
    are integers in [0,255] satisfies [1 <= contrast(a, b)] and
    [contrast(a, b) <= 21], and [contrast([0,0,0], [255,255,255])] is the
    number 21. *)
Theorem contrast_between_1_and_21 (pow : float -> float -> float) :
  pow_unit_interval pow ->
  pow 1%float GAMMA = 1%float ->
  (forall r1 g1 b1 r2 g2 b2 : Z,
      channel_range r1 -> channel_range g1 -> channel_range b1 ->
      channel_range r2 -> channel_range g2 -> channel_range b2 ->
      (1 <=? contrast pow (rgb r1 g1 b1) (rgb r2 g2 b2))%float = true
      /\ (contrast pow (rgb r1 g1 b1) (rgb r2 g2 b2) <=? 21)%float = true)
  /\ contrast pow (rgb 0 0 0) (rgb 255 255 255) = 21%float.
Proof.
  intros Hpow Hone. split.
  - intros r1 g1 b1 r2 g2 b2. apply contrast_bounds. exact Hpow.
  - apply contrast_black_white. exact Hone.
Qed.

Lemma contrast_between_1_and_21_witness :
  ((1 <=? contrast pow_first (rgb 255 128 0) (rgb 0 64 255))%float = true
   /\ (contrast pow_first (rgb 255 128 0) (rgb 0 64 255) <=? 21)%float = true)
  /\ contrast pow_first (rgb 0 0 0) (rgb 255 255 255) = 21%float.
Proof.
  assert (Hpow : pow_unit_interval pow_first).
  { intros x H0 H1. split; assumption. }
  assert (Hone : pow_first 1%float GAMMA = 1%float) by reflexivity.
  destruct (contrast_between_1_and_21 pow_first Hpow Hone) as [Hall Hbw].
  split; [|exact Hbw].
  apply Hall; unfold channel_range; lia.
Defined.

(** C7. With a [Math.pow] that keeps the unit interval, for colours [a], [b]
    whose channels are integers in [0,255], [contrast(a, b)] and
    [contrast(b, a)] are the same number, and that number is not [NaN], so
    [contrast(a, b) == contrast(b, a)] holds; and [contrast(a, a)] is the
    number 1. *)
Theorem contrast_symmetric (pow : float -> float -> float) :
  pow_unit_interval pow ->
  forall r1 g1 b1 r2 g2 b2 : Z,
    channel_range r1 -> channel_range g1 -> channel_range b1 ->
    channel_range r2 -> channel_range g2 -> channel_range b2 ->
    contrast pow (rgb r1 g1 b1) (rgb r2 g2 b2)
    = contrast pow (rgb r2 g2 b2) (rgb r1 g1 b1)
    /\ (contrast pow (rgb r1 g1 b1) (rgb r2 g2 b2)
        =? contrast pow (rgb r2 g2 b2) (rgb r1 g1 b1))%float = true
    /\ contrast pow (rgb r1 g1 b1) (rgb r1 g1 b1) = 1%float.
Proof.
  intros Hpow r1 g1 b1 r2 g2 b2 R1 G1 B1 R2 G2 B2.
  split; [apply contrast_comm|]. split.
  - rewrite <- (contrast_comm pow (rgb r1 g1 b1) (rgb r2 g2 b2)).
    apply F_eqb_refl.
    apply (contrast_bounds pow Hpow r1 g1 b1 r2 g2 b2); assumption.
  - apply contrast_self; assumption.
Qed.

Lemma contrast_symmetric_witness :
  contrast pow_first (rgb 255 128 0) (rgb 0 64 255)
  = contrast pow_first (rgb 0 64 255) (rgb 255 128 0)
  /\ (contrast pow_first (rgb 255 128 0) (rgb 0 64 255)
      =? contrast pow_first (rgb 0 64 255) (rgb 255 128 0))%float = true
  /\ contrast pow_first (rgb 255 128 0) (rgb 255 128 0) = 1%float.
Proof.
  assert (Hpow : pow_unit_interval pow_first).
  { intros x H0 H1. split; assumption. }
  apply (contrast_symmetric pow_first Hpow); unfold channel_range; lia.
Defined.

(** ** Luminance, and arrays that are no colours *)

(** X18.  With a [Math.pow] that keeps the unit interval, the luminance of a
    colour whose channels are integers in [0,255] satisfies
    [0 <= luminance] and [luminance <= 1]. *)
Theorem luminance_between_0_and_1 (pow : float -> float -> float) (r g b : Z) :
  pow_unit_interval pow ->
  channel_range r -> channel_range g -> channel_range b ->
  (0 <=? luminance pow (Z2F r) (Z2F g) (Z2F b))%float = true
  /\ (luminance pow (Z2F r) (Z2F g) (Z2F b) <=? 1)%float = true.
Proof.
  intros Hpow Hr Hg Hb.
  destruct (luminance_unit pow Hpow r g b Hr Hg Hb) as [K U].
  assert (F0 : fok 0) by fok_const. assert (F1 : fok 1) by fok_const.
  rewrite !F_leb by assumption.
  split; apply Z.leb_le; [|exact U].
  replace (fval 0) with 0 by by_eval. apply fval_nonneg.
Qed.

Lemma luminance_between_0_and_1_witness :
  (0 <=? luminance pow_first (Z2F 255) (Z2F 128) (Z2F 0))%float = true
  /\ (luminance pow_first (Z2F 255) (Z2F 128) (Z2F 0) <=? 1)%float = true.
Proof.
  apply luminance_between_0_and_1;
    [intros x H0 H1; split; assumption | unfold channel_range; lia..].
Defined.

Lemma linear_branch_threshold (v : Z) : channel_range v -> linear_branch v = (v <=? 10).
Proof.
  intros Hv. apply Bool.eqb_prop.
  apply (forallb_below (fun v => Bool.eqb (linear_branch v) (v <=? 10)) 256);
    [vm_compute; reflexivity | unfold channel_range in Hv; lia].
Qed.

(** X19.  For a channel that is an integer in [0,255] the callback of
    [luminance] takes the linear branch [v / 255 / 12.92] exactly for the
    values 0 to 10, without calling [Math.pow], and the power branch from
    11 on. *)
Theorem linearize_threshold (pow : float -> float -> float) (v : Z) :
  channel_range v ->
  linearize pow (Z2F v) =
  if v <=? 10 then (Z2F v / 255 / 12.92)%float
  else pow ((Z2F v / 255 + 0.055) / 1.055)%float GAMMA.
Proof.
  intros Hv. rewrite <- (linear_branch_threshold v Hv).
  reflexivity.
Qed.

Lemma linearize_threshold_witness :
  linearize pow_first (Z2F 10) = (Z2F 10 / 255 / 12.92)%float
  /\ linearize pow_first (Z2F 11)
     = pow_first ((Z2F 11 / 255 + 0.055) / 1.055)%float GAMMA.
Proof.
  split.
  - apply (linearize_threshold pow_first 10). unfold channel_range. lia.
  - apply (linearize_threshold pow_first 11). unfold channel_range. lia.
Defined.

(** *** [NaN] *)

Lemma Prim2SF_nan : Prim2SF nan = S754_nan.
Proof. reflexivity. Qed.

Lemma F_add_nan_r (x : float) : (x + nan)%float = nan.
Proof.
  apply Prim2SF_inj. rewrite FloatAxioms.add_spec, Prim2SF_nan.
  destruct (Prim2SF x) as [[]|[]| |[] m e]; reflexivity.
Qed.

Lemma F_add_nan_l (x : float) : (nan + x)%float = nan.
Proof.
  apply Prim2SF_inj. rewrite FloatAxioms.add_spec, Prim2SF_nan. reflexivity.
Qed.

Lemma F_mul_nan_l (x : float) : (nan * x)%float = nan.
Proof.
  apply Prim2SF_inj. rewrite FloatAxioms.mul_spec, Prim2SF_nan. reflexivity.
Qed.

Lemma F_div_nan_l (x : float) : (nan / x)%float = nan.
Proof.
  apply Prim2SF_inj. rewrite FloatAxioms.div_spec, Prim2SF_nan. reflexivity.
Qed.

Lemma F_div_nan_r (x : float) : (x / nan)%float = nan.
Proof.
  apply Prim2SF_inj. rewrite FloatAxioms.div_spec, Prim2SF_nan.
  destruct (Prim2SF x) as [[]|[]| |[] m e]; reflexivity.
Qed.

Lemma Math_max_nan_l (y : float) : Math_max nan y = nan.
Proof. reflexivity. Qed.

Lemma Math_min_nan_l (y : float) : Math_min nan y = nan.
Proof. reflexivity. Qed.

Section NaN.
Variable pow : float -> float -> float.
Hypothesis Hnan : pow nan GAMMA = nan.

Lemma linearize_nan : linearize pow nan = nan.
Proof.
  unfold linearize. cbv zeta.
  change (nan / 255)%float with nan.
  change (nan <=? 0.03928)%float with false. cbv iota.
  change ((nan + 0.055) / 1.055)%float with nan. exact Hnan.
Qed.

Lemma luminance_nan (r g b : float) :
  r = nan \/ g = nan \/ b = nan -> luminance pow r g b = nan.
Proof.
  unfold luminance. cbv zeta. cbn [map nth].
  intros [-> | [-> | ->]]; rewrite linearize_nan, F_mul_nan_l.
  - rewrite F_add_nan_l, F_add_nan_l. reflexivity.
  - rewrite F_add_nan_r, F_add_nan_l. reflexivity.
  - rewrite F_add_nan_r. reflexivity.
Qed.

End NaN.

Lemma contrast_nan_lum (pow : float -> float -> float) (rgb1 rgb2 : list float) :
  luminance pow (nth 0 rgb1 nan) (nth 1 rgb1 nan) (nth 2 rgb1 nan) = nan ->
  contrast pow rgb1 rgb2 = nan.
Proof.
  intros H. unfold contrast. cbv zeta. rewrite H.
  rewrite Math_max_nan_l, Math_min_nan_l, F_add_nan_l. apply F_div_nan_l.
Qed.


Lemma nth_short (rgb : list float) :
  (List.length rgb < 3)%nat ->
  nth 0 rgb nan = nan \/ nth 1 rgb nan = nan \/ nth 2 rgb nan = nan.
Proof.
  intros H. right. right. apply nth_overflow. lia.
Qed.

(** X20.  With a [Math.pow] that returns [NaN] for the base [NaN], as
    ECMAScript requires, [contrast] of an array with fewer than three
    components is [NaN]: the missing component reads as [undefined]. *)
Theorem contrast_missing_component (pow : float -> float -> float)
    (rgb1 rgb2 : list float) :
  pow nan GAMMA = nan ->
  (List.length rgb1 < 3)%nat \/ (List.length rgb2 < 3)%nat ->
  contrast pow rgb1 rgb2 = nan.
Proof.
  intros Hnan [H|H].
  - apply contrast_nan_lum.
    apply luminance_nan; [exact Hnan | apply nth_short; exact H].
  - rewrite contrast_comm. apply contrast_nan_lum.
    apply luminance_nan; [exact Hnan | apply nth_short; exact H].
Qed.

Lemma contrast_missing_component_witness :
  contrast pow_first [Z2F 255; Z2F 255] (rgb 0 0 0) = nan.
Proof.
  apply contrast_missing_component; [reflexivity | left; cbn; lia].
Defined.
